(** * godotenv: the dotenv line parser, the value decoder and the lookup policy

    A shallow embedding of [godotenv.go] (the version with the functional
    options [Variables], [PrioritizeSystem] and [From]).

    Go strings are byte sequences; they are modelled by [string], whose
    characters are the 256 byte values.  Go maps [map[string]string] are
    modelled by [gmap string string]; reading a missing key yields the empty
    string ([!!!]), and a nil map reads like the empty map. *)

From Stdlib Require Import Ascii ZArith Lia.
From stdpp Require Import base option list strings gmap fin_maps.

(** ** Bytes that the parser singles out *)

Definition dquote : ascii := "034"%char.
Definition squote : ascii := "039"%char.
Definition bslash : ascii := "092"%char.
Definition dollar : ascii := "036"%char.
Definition hash : ascii := "035"%char.
Definition newline : ascii := "010"%char.
Definition creturn : ascii := "013"%char.

(** A one-byte string. *)
Definition str1 (c : ascii) : string := String c EmptyString.

(** Go's slice expressions [s[n:]] and [s[lo:hi]] on a string.  Every use in
    the source is in range: [parseValue] slices a value of two bytes or
    more, [expandVariables] a match, and no match is empty. *)
Fixpoint drop_bytes (n : nat) (s : string) : string :=
  match n, s with
  | S k, String _ t => drop_bytes k t
  | _, _ => s
  end.

Fixpoint take_bytes (n : nat) (s : string) : string :=
  match n, s with
  | S k, String c t => String c (take_bytes k t)
  | _, _ => EmptyString
  end.

Definition slice (s : string) (lo hi : nat) : string :=
  take_bytes (hi - lo) (drop_bytes lo s).

Fixpoint rev_bytes (s : string) : string :=
  match s with
  | EmptyString => EmptyString
  | String c t => rev_bytes t +:+ str1 c
  end.

(** ** The functions of Go's package [strings] that the parser calls

    Every separator, needle and cutset in the source is a one-byte ASCII
    literal, so they are bytes here. *)

Module strings.

Fixpoint HasPrefix (s prefix : string) : bool :=
  match prefix, s with
  | EmptyString, _ => true
  | String p ps, String c cs => Ascii.eqb c p && HasPrefix cs ps
  | String _ _, EmptyString => false
  end.

Fixpoint Contains (s : string) (c : ascii) : bool :=
  match s with
  | EmptyString => false
  | String x t => Ascii.eqb x c || Contains t c
  end.

Fixpoint Count (s : string) (c : ascii) : nat :=
  match s with
  | EmptyString => 0
  | String x t => (if Ascii.eqb x c then 1 else 0) + Count t c
  end.

(** [Index] returns -1 when the byte does not occur. *)
Fixpoint Index (s : string) (c : ascii) : Z :=
  match s with
  | EmptyString => (-1)%Z
  | String x t =>
      if Ascii.eqb x c then 0%Z
      else let i := Index t c in
           if (i =? -1)%Z then (-1)%Z else (i + 1)%Z
  end.

(** The text before and after the first occurrence of the separator. *)
Fixpoint Cut (s : string) (sep : ascii) : option (string * string) :=
  match s with
  | EmptyString => None
  | String x t =>
      if Ascii.eqb x sep then Some (EmptyString, t)
      else match Cut t sep with
           | Some (a, b) => Some (String x a, b)
           | None => None
           end
  end.

(** [SplitN s sep n] for [n >= 0]: at most [n] pieces, the last one the
    unsplit remainder. *)
Fixpoint SplitN (s : string) (sep : ascii) (n : nat) : list string :=
  match n with
  | 0 => []
  | 1 => [s]
  | S n' =>
      match Cut s sep with
      | None => [s]
      | Some (a, b) => a :: SplitN b sep n'
      end
  end.

(** [Split] always yields at least one piece. *)
Fixpoint Split (s : string) (sep : ascii) : list string :=
  match s with
  | EmptyString => [EmptyString]
  | String x t =>
      if Ascii.eqb x sep then EmptyString :: Split t sep
      else match Split t sep with
           | h :: r => String x h :: r
           | [] => [str1 x]
           end
  end.

Fixpoint Join (elems : list string) (sep : ascii) : string :=
  match elems with
  | [] => EmptyString
  | [e] => e
  | e :: rest => e +:+ String sep (Join rest sep)
  end.

Fixpoint TrimLeft (s : string) (c : ascii) : string :=
  match s with
  | EmptyString => EmptyString
  | String x t => if Ascii.eqb x c then TrimLeft t c else s
  end.

Fixpoint TrimRight (s : string) (c : ascii) : string :=
  match s with
  | EmptyString => EmptyString
  | String x t =>
      match TrimRight t c with
      | EmptyString => if Ascii.eqb x c then EmptyString else str1 x
      | t' => String x t'
      end
  end.

(** [Trim s cutset] for a one-byte cutset. *)
Definition Trim (s : string) (c : ascii) : string :=
  TrimRight (TrimLeft s c) c.

Definition TrimPrefix (s prefix : string) : string :=
  if HasPrefix s prefix then drop_bytes (String.length prefix) s else s.

(** [TrimSpace] removes the leading and trailing white space as Unicode
    defines it.  On bytes: the six ASCII space bytes and the UTF-8
    encodings of U+0085, U+00A0, U+1680, U+2000..U+200A, U+2028, U+2029,
    U+202F, U+205F and U+3000. *)
Definition asciiSpace (c : ascii) : bool :=
  let n := nat_of_ascii c in
  (9 <=? n) && (n <=? 13) || (n =? 32).

(** The rest of the text after one leading white-space rune, if there is
    one. *)
Definition afterSpaceRune (s : string) : option string :=
  match s with
  | EmptyString => None
  | String c t =>
      if asciiSpace c then Some t
      else
        match nat_of_ascii c, t with
        | 194, String d t2 =>
            let d := nat_of_ascii d in
            if (d =? 133) || (d =? 160) then Some t2 else None
        | 225, String d (String e t3) =>
            if (nat_of_ascii d =? 154) && (nat_of_ascii e =? 128)
            then Some t3 else None
        | 226, String d (String e t3) =>
            let d := nat_of_ascii d in
            let e := nat_of_ascii e in
            if (d =? 128) &&
               ((128 <=? e) && (e <=? 138) || (e =? 168) || (e =? 169)
                || (e =? 175))
               || (d =? 129) && (e =? 159)
            then Some t3 else None
        | 227, String d (String e t3) =>
            if (nat_of_ascii d =? 128) && (nat_of_ascii e =? 128)
            then Some t3 else None
        | _, _ => None
        end
  end.

(** The same from the right end, on the reversed text: a rune's bytes come
    last byte first. *)
Definition afterSpaceRuneRev (s : string) : option string :=
  match s with
  | EmptyString => None
  | String c t =>
      if asciiSpace c then Some t
      else
        match t with
        | String d t2 =>
            let c := nat_of_ascii c in
            let d' := nat_of_ascii d in
            if (d' =? 194) && ((c =? 133) || (c =? 160)) then Some t2
            else
              match t2 with
              | String e t3 =>
                  let e := nat_of_ascii e in
                  if (e =? 225) && (d' =? 154) && (c =? 128)
                     || (e =? 226) && (d' =? 128) &&
                        ((128 <=? c) && (c <=? 138) || (c =? 168)
                         || (c =? 169) || (c =? 175))
                     || (e =? 226) && (d' =? 129) && (c =? 159)
                     || (e =? 227) && (d' =? 128) && (c =? 128)
                  then Some t3 else None
              | EmptyString => None
              end
        | EmptyString => None
        end
  end.

Fixpoint stripRunes (after : string → option string) (fuel : nat)
    (s : string) : string :=
  match fuel with
  | 0 => s
  | S k => match after s with
           | Some t => stripRunes after k t
           | None => s
           end
  end.

Definition TrimSpace (s : string) : string :=
  let l := stripRunes afterSpaceRune (String.length s) s in
  rev_bytes (stripRunes afterSpaceRuneRev (String.length l) (rev_bytes l)).

End strings.

(** ** The part of Go's package [regexp] that the parser uses

    A pattern is its syntax tree, and matching is a backtracking search with
    the priorities of Go's leftmost-first semantics: a greedy operator tries
    the longer match first, the lazy star the shorter one, and the first
    way of matching that reaches the end of the pattern is the match.  The
    search runs on bytes.  A class of the source's patterns that admits a
    byte above 127 admits every such byte, and no replacement of the source
    changes such a byte, so the result on bytes is the result on runes. *)

Module regexp.

Inductive Syntax :=
  | Lit (c : ascii)                 (* one byte *)
  | Class (p : ascii → bool)        (* a class of bytes, or the dot *)
  | EmptyMatch
  | Cat (r1 r2 : Syntax)
  | Quest (r : Syntax)              (* r? *)
  | Star (r : Syntax)               (* r* *)
  | LazyStar (r : Syntax)           (* r*? *)
  | Capture (i : nat) (r : Syntax)  (* the i-th group *)
  | BeginText                       (* \A, and ^ without the flag m *)
  | EndText.                        (* \z, and $ without the flag m *)

(** [r+] *)
Definition Plus (r : Syntax) : Syntax := Cat r (Star r).

(** A sequence of patterns, and the pattern of a literal text. *)
Fixpoint cat (rs : list Syntax) : Syntax :=
  match rs with
  | [] => EmptyMatch
  | [r] => r
  | r :: rs' => Cat r (cat rs')
  end.

Fixpoint lits (s : string) : Syntax :=
  match s with
  | EmptyString => EmptyMatch
  | String c EmptyString => Lit c
  | String c t => Cat (Lit c) (lits t)
  end.

(** The state of the search: the number of bytes matched so far, the rest
    of the text and the submatches recorded so far.  A continuation is what
    remains to be matched; a matcher runs a pattern before a continuation. *)
Definition Cont := nat → string → list string → option (list string).
Definition Matcher :=
  nat → string → list string → Cont → option (list string).

Definition orElse {A} (x y : option A) : option A :=
  match x with Some _ => x | None => y end.

(** The loops of the two stars.  An iteration has to consume a byte; [fuel]
    bounds the number of iterations by the length of the rest. *)
Fixpoint starLoop (body : Matcher) (k : Cont) (fuel pos : nat) (rest : string)
    (caps : list string) : option (list string) :=
  match fuel with
  | 0 => k pos rest caps
  | S fuel' =>
      orElse
        (body pos rest caps (λ pos' rest' caps',
           if pos <? pos' then starLoop body k fuel' pos' rest' caps'
           else None))
        (k pos rest caps)
  end.

Fixpoint lazyLoop (body : Matcher) (k : Cont) (fuel pos : nat) (rest : string)
    (caps : list string) : option (list string) :=
  orElse (k pos rest caps)
    match fuel with
    | 0 => None
    | S fuel' =>
        body pos rest caps (λ pos' rest' caps',
          if pos <? pos' then lazyLoop body k fuel' pos' rest' caps'
          else None)
    end.

Fixpoint run (r : Syntax) : Matcher := λ pos rest caps k,
  match r with
  | Lit c =>
      match rest with
      | String x t => if Ascii.eqb x c then k (S pos) t caps else None
      | EmptyString => None
      end
  | Class p =>
      match rest with
      | String x t => if p x then k (S pos) t caps else None
      | EmptyString => None
      end
  | EmptyMatch => k pos rest caps
  | Cat r1 r2 =>
      run r1 pos rest caps (λ pos' rest' caps', run r2 pos' rest' caps' k)
  | Quest r1 => orElse (run r1 pos rest caps k) (k pos rest caps)
  | Star r1 => starLoop (run r1) k (String.length rest) pos rest caps
  | LazyStar r1 => lazyLoop (run r1) k (String.length rest) pos rest caps
  | Capture i r1 =>
      run r1 pos rest caps (λ pos' rest' caps',
        k pos' rest' (<[i := take_bytes (pos' - pos) rest]> caps'))
  | BeginText => if pos =? 0 then k pos rest caps else None
  | EndText =>
      match rest with
      | EmptyString => k pos rest caps
      | String _ _ => None
      end
  end.

Fixpoint numSubexp (r : Syntax) : nat :=
  match r with
  | Cat r1 r2 => numSubexp r1 `max` numSubexp r2
  | Quest r1 | Star r1 | LazyStar r1 => numSubexp r1
  | Capture i r1 => i `max` numSubexp r1
  | _ => 0
  end.

Fixpoint beginsText (r : Syntax) : bool :=
  match r with
  | BeginText => true
  | Cat r1 _ => beginsText r1
  | Capture _ r1 => beginsText r1
  | _ => false
  end.

(** A compiled pattern: [matchAt] gives the match that starts at the first
    byte of a text, as the list of submatches ([FindStringSubmatch]'s
    result: entry 0 is the whole match, a group that did not take part is
    the empty string).  [anchored] says that the pattern begins with the
    start-of-text anchor, so that it cannot match anywhere else.  No
    unanchored pattern of the source matches the empty text. *)
Record Regexp := {
  anchored : bool;
  matchAt : string → option (list string)
}.

Definition MustCompile (r : Syntax) : Regexp :=
  {| anchored := beginsText r;
     matchAt := λ s,
       run r 0 s (replicate (S (numSubexp r)) EmptyString)
         (λ pos _ caps, Some (<[0 := take_bytes pos s]> caps)) |}.

Definition group (submatch : list string) (i : nat) : string :=
  nth i submatch EmptyString.

Fixpoint findFrom (m : string → option (list string)) (s : string)
    : option (list string) :=
  match m s with
  | Some submatch => Some submatch
  | None => match s with
            | EmptyString => None
            | String _ t => findFrom m t
            end
  end.

Definition FindStringSubmatch (re : Regexp) (s : string)
    : option (list string) :=
  if anchored re then matchAt re s else findFrom (matchAt re) s.

(** Replaces the successive non-overlapping matches, left to right; [skip]
    counts the bytes of the current match that are still to be passed
    over. *)
Fixpoint replaceFrom (m : string → option (list string))
    (repl : list string → string) (skip : nat) (src : string) : string :=
  match src with
  | EmptyString => EmptyString
  | String c rest =>
      match skip with
      | S k => replaceFrom m repl k rest
      | 0 =>
          match m src with
          | Some submatch =>
              repl submatch
                +:+ replaceFrom m repl
                      (String.length (group submatch 0) - 1) rest
          | None => String c (replaceFrom m repl 0 rest)
          end
      end
  end.

Definition replaceAll (re : Regexp) (repl : list string → string)
    (src : string) : string :=
  if anchored re then
    match matchAt re src with
    | Some submatch =>
        repl submatch +:+ drop_bytes (String.length (group submatch 0)) src
    | None => src
    end
  else replaceFrom (matchAt re) repl 0 src.

Definition ReplaceAllStringFunc (re : Regexp) (src : string)
    (repl : string → string) : string :=
  replaceAll re (λ submatch, repl (group submatch 0)) src.

(** [ReplaceAllString] with the template that consists of one group
    reference, [$i]. *)
Definition ReplaceAllString (re : Regexp) (src : string) (i : nat) : string :=
  replaceAll re (λ submatch, group submatch i) src.

End regexp.

(** ** The compiled patterns of the package *)

(** The dot: any byte but the newline. *)
Definition notNewline (c : ascii) : bool := negb (Ascii.eqb c newline).

(** The class [\s]: tab, newline, form feed, carriage return and space. *)
Definition reSpace (c : ascii) : bool :=
  let n := nat_of_ascii c in
  (n =? 9) || (n =? 10) || (n =? 12) || (n =? 13) || (n =? 32).

(** The class [[A-Z0-9_]]. *)
Definition identByte (c : ascii) : bool :=
  let n := nat_of_ascii c in
  (65 <=? n) && (n <=? 90) || (48 <=? n) && (n <=? 57) || (n =? 95).

(** The class [[^$]]. *)
Definition notDollar (c : ascii) : bool := negb (Ascii.eqb c dollar).

(** [\Aq( .* )q\z] for a quote byte [q]. *)
Definition quotesSyntax (q : ascii) : regexp.Syntax :=
  regexp.cat
    [regexp.BeginText; regexp.Lit q;
     regexp.Capture 1 (regexp.Star (regexp.Class notNewline));
     regexp.Lit q; regexp.EndText].

Definition singleQuotesRegex : regexp.Regexp :=
  regexp.MustCompile (quotesSyntax squote).

Definition doubleQuotesRegex : regexp.Regexp :=
  regexp.MustCompile (quotesSyntax dquote).

(** [\\.] *)
Definition escapeRegex : regexp.Regexp :=
  regexp.MustCompile
    (regexp.cat [regexp.Lit bslash; regexp.Class notNewline]).

(** [\\([^$])] *)
Definition unescapeCharsRegex : regexp.Regexp :=
  regexp.MustCompile
    (regexp.cat
       [regexp.Lit bslash; regexp.Capture 1 (regexp.Class notDollar)]).

(** [( .*? )\s*$], the end of the key pattern. *)
Definition groupSyntax : regexp.Syntax :=
  regexp.cat
    [regexp.Capture 1 (regexp.LazyStar (regexp.Class notNewline));
     regexp.Star (regexp.Class reSpace); regexp.EndText].

(** [^\s*(?:export\s+)?( .*? )\s*$] *)
Definition exportSyntax : regexp.Syntax :=
  regexp.cat
    [regexp.BeginText; regexp.Star (regexp.Class reSpace);
     regexp.Quest
       (regexp.cat [regexp.lits "export"; regexp.Plus (regexp.Class reSpace)]);
     groupSyntax].

Definition exportRegex : regexp.Regexp := regexp.MustCompile exportSyntax.

(** [(\()?{?([A-Z0-9_]+)?}?], what follows the dollar sign in the pattern
    of the interpolator. *)
Definition expandVarTailSyntax : regexp.Syntax :=
  regexp.cat
    [regexp.Quest (regexp.Capture 3 (regexp.Lit "("));
     regexp.Quest (regexp.Lit "{");
     regexp.Quest
       (regexp.Capture 4 (regexp.Plus (regexp.Class identByte)));
     regexp.Quest (regexp.Lit "}")].

(** [(\\)?(\$)(\()?{?([A-Z0-9_]+)?}?] *)
Definition expandVarSyntax : regexp.Syntax :=
  regexp.cat
    [regexp.Quest (regexp.Capture 1 (regexp.Lit bslash));
     regexp.Capture 2 (regexp.Lit dollar);
     expandVarTailSyntax].

Definition expandVarRegex : regexp.Regexp := regexp.MustCompile expandVarSyntax.

(** ** The patterns in closed form

    What each compiled pattern matches at the head of a text, as a direct
    function; the properties below show that the search computes it. *)

Fixpoint lastByte (s : string) : option ascii :=
  match s with
  | EmptyString => None
  | String c EmptyString => Some c
  | String _ t => lastByte t
  end.

(** An anchored wrap in the quote byte [q]: the text starts and ends with
    [q], these are two different bytes, and what lies between them holds
    no newline (the dot does not match it). *)
Definition quotedBy (q : ascii) (s : string) : option (list string) :=
  match s with
  | String c t =>
      let inner := take_bytes (String.length t - 1) t in
      if Ascii.eqb c q && bool_decide (lastByte t = Some q)
         && negb (strings.Contains inner newline)
      then Some [s; inner] else None
  | EmptyString => None
  end.

(** A backslash and one more byte that is not a newline. *)
Definition escapeMatch (s : string) : option (list string) :=
  match s with
  | String c (String d _) =>
      if Ascii.eqb c bslash && negb (Ascii.eqb d newline)
      then Some [String c (str1 d)] else None
  | _ => None
  end.

(** A backslash and one more byte that is not a dollar sign. *)
Definition unescapeCharsMatch (s : string) : option (list string) :=
  match s with
  | String c (String d _) =>
      if Ascii.eqb c bslash && negb (Ascii.eqb d dollar)
      then Some [String c (str1 d); str1 d] else None
  | _ => None
  end.

Fixpoint dropSpaces (s : string) : string :=
  match s with
  | EmptyString => EmptyString
  | String c t => if reSpace c then dropSpaces t else s
  end.

Fixpoint dropTrailingSpaces (s : string) : string :=
  match s with
  | EmptyString => EmptyString
  | String c t =>
      match dropTrailingSpaces t with
      | EmptyString => if reSpace c then EmptyString else str1 c
      | t' => String c t'
      end
  end.

(** A text without the keyword [export] and the white space after it, when
    it begins with both. *)
Definition afterExport (s1 : string) : string :=
  match drop_bytes 6 s1 with
  | String c t =>
      if strings.HasPrefix s1 "export" && reSpace c then dropSpaces t else s1
  | EmptyString => s1
  end.

(** The key pattern takes the leading white space and the optional keyword
    greedily and its group lazily, so the group is what is left without its
    trailing white space.  The group holds no newline: if what is left has
    one, no other way of matching avoids it and the pattern does not match
    at all. *)
Definition exportMatch (s : string) : option (list string) :=
  let body := dropTrailingSpaces (afterExport (dropSpaces s)) in
  if strings.Contains body newline then None else Some [s; body].

(** The longest run of identifier bytes at the head, and the rest. *)
Fixpoint spanIdent (s : string) : string * string :=
  match s with
  | EmptyString => (EmptyString, EmptyString)
  | String c t =>
      if identByte c
      then let '(a, b) := spanIdent t in (String c a, b)
      else (EmptyString, s)
  end.

(** An optional byte at the head, and the rest. *)
Definition optByte (c : ascii) (s : string) : string * string :=
  match s with
  | String x t => if Ascii.eqb x c then (str1 c, t) else (EmptyString, s)
  | EmptyString => (EmptyString, EmptyString)
  end.

(** What follows the dollar sign in the pattern of the interpolator: every
    part is optional and greedy.  [g1] is the text of the first group. *)
Definition expandVarTail (g1 : string) (t : string) : option (list string) :=
  let '(g3, t1) := optByte "(" t in
  let '(ob, t2) := optByte "{" t1 in
  let '(g4, t3) := spanIdent t2 in
  let '(cb, _) := optByte "}" t3 in
  Some [g1 +:+ String dollar (g3 +:+ ob +:+ g4 +:+ cb);
        g1; str1 dollar; g3; g4].

Definition expandVarMatch (s : string) : option (list string) :=
  match s with
  | String c t =>
      if Ascii.eqb c bslash then
        match t with
        | String d t' =>
            if Ascii.eqb d dollar then expandVarTail (str1 bslash) t'
            else None
        | EmptyString => None
        end
      else if Ascii.eqb c dollar then expandVarTail EmptyString t
      else None
  | EmptyString => None
  end.

(** The loops of the stars over a class, by recursion on the text. *)
Fixpoint greedily (p : ascii → bool) (k : regexp.Cont) (pos : nat)
    (rest : string) (caps : list string) : option (list string) :=
  match rest with
  | String c t =>
      if p c then regexp.orElse (greedily p k (S pos) t caps) (k pos rest caps)
      else k pos rest caps
  | EmptyString => k pos rest caps
  end.

Fixpoint lazily (p : ascii → bool) (k : regexp.Cont) (pos : nat)
    (rest : string) (caps : list string) : option (list string) :=
  regexp.orElse (k pos rest caps)
    match rest with
    | String c t => if p c then lazily p k (S pos) t caps else None
    | EmptyString => None
    end.

(** The continuation at the end of a pattern: it records the whole match. *)
Definition final (s : string) : regexp.Cont :=
  λ pos _ caps, Some (<[0 := take_bytes pos s]> caps).

(** A continuation that cannot fail. *)
Definition always (k : regexp.Cont) : Prop :=
  ∀ pos rest caps, is_Some (k pos rest caps).

(** An optional group leaves its text in the submatches when it matches. *)
Definition setGroup (i : nat) (g : string) (caps : list string) : list string :=
  match g with
  | EmptyString => caps
  | _ => <[i := g]> caps
  end.

(** What follows the group in the quote patterns, for the text [s] with the
    rest [t] after its first byte. *)
Definition quoteCont (q : ascii) (s t : string) : regexp.Cont :=
  λ pos rest caps,
    regexp.run (regexp.Cat (regexp.Lit q) regexp.EndText) pos rest
      (<[1 := take_bytes (pos - 1) t]> caps) (final s).

(** The continuations of the key pattern: its end, what follows the lazy
    loop of a group that began at [pos0] on [rest0], the pattern from the
    group on and from the optional keyword on. *)
Definition endCont (s : string) : regexp.Cont :=
  λ pos rest caps, regexp.run regexp.EndText pos rest caps (final s).

Definition groupCont (s : string) (pos0 : nat) (rest0 : string) : regexp.Cont :=
  λ pos rest caps,
    greedily reSpace (endCont s) pos rest
      (<[1 := take_bytes (pos - pos0) rest0]> caps).

Definition fromGroup (s : string) : regexp.Cont :=
  λ pos rest caps, regexp.run groupSyntax pos rest caps (final s).

Definition fromExport (s : string) : regexp.Cont :=
  λ pos rest caps,
    regexp.run
      (regexp.Cat
         (regexp.Quest
            (regexp.cat
               [regexp.lits "export"; regexp.Plus (regexp.Class reSpace)]))
         groupSyntax)
      pos rest caps (final s).

(** The outcome of the key pattern from the group on: the group and the
    whole match, unless the group would hold a newline. *)
Definition exportResult (s : string) (n : nat) (body : string)
    (caps : list string) : option (list string) :=
  if strings.Contains body newline then None
  else Some (<[0 := take_bytes n s]> (<[1 := body]> caps)).
(** ** The collaborators: sources and the process environment *)

(** The two fatal error kinds: a source that cannot be opened or read to
    its end (the operating system's message is carried along), and a line
    without a key/value delimiter. *)
Inductive error :=
  | ReadError (msg : string)
  | FormatError.

Global Instance error_eq_dec : EqDecision error.
Proof. solve_decision. Defined.

(** What [bufio.Scanner] yields over an [io.Reader]: the lines, without
    their end-of-line markers, and the error, if any, that ended the scan. *)
Record Reader := {
  scanLines : list string;
  scanErr : option error
}.

(** [os.Open]: a reader on the named file, or the error. *)
Definition FileSystem := string → error + Reader.

(** The process environment as package [os] shows it: [Getenv] (the empty
    string for an unset name) and [Environ] (the raw entries). *)
Record System := {
  Getenv : string → string;
  Environ : list string
}.

(** ** godotenv.go *)

(** The test [x != nil] on a result that may be nil. *)
Definition notNil {A} (o : option A) : bool :=
  match o with Some _ => true | None => false end.

Record config := {
  variables : list string;
  filenames : list string;
  systemFirst : bool
}.

(** An option updates the configuration that [Get] builds. *)
Definition Option := config → config.

Definition Variables (vars : list string) : Option :=
  λ cfg, {| variables := vars; filenames := filenames cfg;
            systemFirst := systemFirst cfg |}.

Definition PrioritizeSystem : Option :=
  λ cfg, {| variables := variables cfg; filenames := filenames cfg;
            systemFirst := true |}.

Definition From (filePaths : list string) : Option :=
  λ cfg, {| variables := variables cfg; filenames := filePaths;
            systemFirst := systemFirst cfg |}.

Definition isIgnoredLine (line : string) : bool :=
  let trimmedLine := strings.TrimSpace line in
  (String.length trimmedLine =? 0) || strings.HasPrefix trimmedLine (str1 hash).

(** The replacement function of [expandVariables]: [s] is the matched
    text.  The indexes are in range: a match has five submatches and its
    text is not empty. *)
Definition expandVariable (m : gmap string string) (s : string) : string :=
  match regexp.FindStringSubmatch expandVarRegex s with
  | None => s
  | Some submatch =>
      if bool_decide (regexp.group submatch 1 = str1 bslash)
         || bool_decide (regexp.group submatch 2 = "(")
      then drop_bytes 1 (regexp.group submatch 0)
      else if negb (bool_decide (regexp.group submatch 4 = EmptyString))
      then m !!! regexp.group submatch 4
      else s
  end.

Definition expandVariables (str : string) (m : gmap string string) : string :=
  regexp.ReplaceAllStringFunc expandVarRegex str (expandVariable m).

(** The replacement function of the newline pass. *)
Definition expandNewline (match_ : string) : string :=
  let c := strings.TrimPrefix match_ (str1 bslash) in
  if bool_decide (c = "n") then str1 newline
  else if bool_decide (c = "r") then str1 creturn
  else match_.

Definition parseValue (value : string) (envMap : gmap string string) : string :=
  let value := strings.Trim value " " in
  if 1 <? String.length value then
    let singleQuotes := regexp.FindStringSubmatch singleQuotesRegex value in
    let doubleQuotes := regexp.FindStringSubmatch doubleQuotesRegex value in
    let value :=
      if notNil singleQuotes || notNil doubleQuotes
      then slice value 1 (String.length value - 1) else value in
    let value :=
      if notNil doubleQuotes
      then regexp.ReplaceAllString unescapeCharsRegex
             (regexp.ReplaceAllStringFunc escapeRegex value expandNewline) 1
      else value in
    if notNil singleQuotes then value
    else expandVariables value envMap
  else value.

(** Ditch the comments (but keep quoted hashes).  One step of the loop over
    the segments: the state is [quotesAreOpen] and [segmentsToKeep]. *)
Definition commentStep (st : bool * list string) (segment : string)
    : bool * list string :=
  let '(quotesAreOpen, segmentsToKeep) := st in
  let '(quotesAreOpen, segmentsToKeep) :=
    if (strings.Count segment dquote =? 1)
       || (strings.Count segment squote =? 1)
    then
      if quotesAreOpen then (false, segmentsToKeep ++ [segment])
      else (true, segmentsToKeep)
    else (quotesAreOpen, segmentsToKeep) in
  if (length segmentsToKeep =? 0) || quotesAreOpen
  then (quotesAreOpen, segmentsToKeep ++ [segment])
  else (quotesAreOpen, segmentsToKeep).

Definition removeComments (line : string) : string :=
  if strings.Contains line hash then
    let '(_, segmentsToKeep) :=
      fold_left commentStep (strings.Split line hash) (false, []) in
    strings.Join segmentsToKeep hash
  else line.

Definition parseLine (line : string) (envMap : gmap string string)
    : string * string * option error :=
  let line := removeComments line in
  let firstEquals := strings.Index line "=" in
  let firstColon := strings.Index line ":" in
  let splitString :=
    if negb (firstColon =? -1)%Z
       && ((firstColon <? firstEquals)%Z || (firstEquals =? -1)%Z)
    then (* This is a yaml-style line. *) strings.SplitN line ":" 2
    else strings.SplitN line "=" 2 in
  match splitString with
  | [rawKey; rawValue] =>
      (regexp.ReplaceAllString exportRegex rawKey 1,
       parseValue rawValue envMap, None)
  | _ => (EmptyString, EmptyString, Some FormatError)
  end.

(** The loop of [parse] over the lines, from the mapping built so far. *)
Fixpoint parseLines (lines : list string) (envMap : gmap string string)
    : gmap string string * option error :=
  match lines with
  | [] => (envMap, None)
  | line :: rest =>
      if isIgnoredLine line then parseLines rest envMap
      else
        match parseLine line envMap with
        | (_, _, Some err) => (envMap, Some err)
        | (k, v, None) => parseLines rest (<[k:=v]> envMap)
        end
  end.

Definition parse (r : Reader) : gmap string string * option error :=
  match scanErr r with
  | Some err => (∅, Some err)
  | None => parseLines (scanLines r) ∅
  end.

Definition readFile (fs : FileSystem) (filename : string)
    : gmap string string * option error :=
  match fs filename with
  | inl err => (∅, Some err)
  | inr file => parse file
  end.

Definition filenamesOrDefault (filenames : list string) : list string :=
  match filenames with
  | [] => [".env"]
  | _ => filenames
  end.

(** [for k, v := range src { dst[k] = v }] *)
Definition copyInto (src dst : gmap string string) : gmap string string :=
  map_fold (λ k v envMap, <[k:=v]> envMap) dst src.

(** The loop of [read] over the file names, from the mapping merged so
    far. *)
Fixpoint readFiles (fs : FileSystem) (filenames : list string)
    (envMap : gmap string string) : gmap string string * option error :=
  match filenames with
  | [] => (envMap, None)
  | filename :: rest =>
      match readFile fs filename with
      | (_, Some individualErr) => (envMap, Some individualErr)
      | (individualEnvMap, None) =>
          readFiles fs rest (copyInto individualEnvMap envMap)
      end
  end.

Definition read (fs : FileSystem) (filenames : list string)
    : gmap string string * option error :=
  readFiles fs filenames ∅.

(** [systemVariables] indexes the second piece of every entry of
    [os.Environ]: on an entry without an equals sign this is out of range
    and the program panics, which [None] stands for. *)
Fixpoint systemVariablesFrom (entries : list string)
    (envMap : gmap string string) : option (gmap string string) :=
  match entries with
  | [] => Some envMap
  | rawEnvLine :: rest =>
      match strings.SplitN rawEnvLine "=" 2 with
      | [k; v] => systemVariablesFrom rest (<[k:=v]> envMap)
      | _ => None
      end
  end.

Definition systemVariables (sys : System) : option (gmap string string) :=
  systemVariablesFrom (Environ sys) ∅.

Definition getAllVariables (sys : System) (fromEnvDotFiles : gmap string string)
    (systemFirst : bool) : option (gmap string string) :=
  let envMap := copyInto fromEnvDotFiles ∅ in
  match systemVariables sys with
  | None => None
  | Some sysVars =>
      Some (map_fold (λ k v envMap,
              let ok := notNil (envMap !! k) in
              if ok && systemFirst || negb ok then <[k:=v]> envMap else envMap)
            envMap sysVars)
  end.

(** One round of the loop of [get] over the requested variables: the state
    is [envMap] and [notFoundVariables]. *)
Definition getStep (sys : System) (inFileVariables : gmap string string)
    (systemFirst : bool) (st : gmap string string * list string)
    (variable : string) : gmap string string * list string :=
  let '(envMap, notFoundVariables) := st in
  let value := Getenv sys variable in
  let found := negb (bool_decide (value = EmptyString)) in
  let envMap := if found then <[variable:=value]> envMap else envMap in
  if found && systemFirst then (envMap, notFoundVariables)
  else
    let set := found in
    match inFileVariables !! variable with
    | Some value => (<[variable:=value]> envMap, notFoundVariables)
    | None =>
        if negb set then (envMap, notFoundVariables ++ [variable])
        else (envMap, notFoundVariables)
    end.

(** [get] drops the error of [read] and goes on with the mapping that
    [read] returns with it.  [None] stands for the panic of
    [systemVariables], which only the mode without requested variables can
    reach. *)
Definition get (sys : System) (fs : FileSystem) (cfg : config)
    : option (gmap string string * list string) :=
  let '(inFileVariables, _) := read fs (filenamesOrDefault (filenames cfg)) in
  if length (variables cfg) =? 0 then
    match getAllVariables sys inFileVariables (systemFirst cfg) with
    | Some envMap => Some (envMap, [])
    | None => None
    end
  else
    Some (fold_left (getStep sys inFileVariables (systemFirst cfg))
            (variables cfg) (∅, [])).

Definition Get (sys : System) (fs : FileSystem) (options : list Option)
    : option (gmap string string * list string) :=
  let cfg :=
    fold_left (λ cfg op, op cfg) options
      {| variables := []; filenames := []; systemFirst := false |} in
  get sys fs cfg.

(** ** Notions used to state the properties *)

(** What one round of the loop of [get] decides for a variable: the value
    it leaves in the mapping, or nothing when the variable goes to the
    not-found list. *)
Definition resolved (sys : System) (inFile : gmap string string) (sf : bool)
    (variable : string) : option string :=
  let value := Getenv sys variable in
  if bool_decide (value = EmptyString) then inFile !! variable
  else if sf then Some value
  else match inFile !! variable with
       | Some v => Some v
       | None => Some value
       end.

(** Every byte of a text satisfies a test; the first byte does. *)
Fixpoint allBytes (p : ascii → bool) (s : string) : bool :=
  match s with
  | EmptyString => true
  | String c t => p c && allBytes p t
  end.

Definition headSatisfies (p : ascii → bool) (s : string) : bool :=
  match s with
  | EmptyString => false
  | String c _ => p c
  end.

(** An identifier of the interpolator: a non-empty run of the bytes of
    [[A-Z0-9_]]. *)
Definition identifier (name : string) : Prop :=
  name ≠ EmptyString ∧ allBytes identByte name = true.

(** A byte that no pass of the value decoder treats specially: not a
    backslash, not a dollar sign, not a newline. *)
Definition plainByte (c : ascii) : bool :=
  negb (Ascii.eqb c bslash) && negb (Ascii.eqb c dollar)
  && negb (Ascii.eqb c newline).

(** The test of the comment stripper on a segment: it holds exactly one
    double quote or exactly one single quote. *)
Definition togglesQuote (segment : string) : bool :=
  (strings.Count segment dquote =? 1) || (strings.Count segment squote =? 1).

(** A byte that is no quote, and one that is no quote and no hash. *)
Definition noQuote (c : ascii) : bool :=
  negb (Ascii.eqb c dquote) && negb (Ascii.eqb c squote).

Definition noQuoteNoHash (c : ascii) : bool :=
  noQuote c && negb (Ascii.eqb c hash).

(** A line has a key/value delimiter. *)
Definition hasDelimiter (line : string) : bool :=
  strings.Contains line "=" || strings.Contains line ":".

(** A line that the parser passes: it is ignored, or it has a delimiter
    once the comment is stripped. *)
Definition passes (line : string) : Prop :=
  isIgnoredLine line = true ∨ hasDelimiter (removeComments line) = true.

(** The key that a line assigns; it does not depend on the mapping. *)
Definition lineKey (line : string) : string := (parseLine line ∅).1.1.

(** A text in double quotes. *)
Definition inDoubleQuotes (s : string) : string :=
  str1 dquote +:+ s +:+ str1 dquote.

(** A readable source that holds the given lines. *)
Definition document (lines : list string) : Reader :=
  {| scanLines := lines; scanErr := None |}.

(** ** Sample worlds *)

(** A file system with the file [plain.env], an unreadable directory
    [fixtures/] and the empty file [empty.env]; every other name, [.env]
    too, cannot be opened. *)
Definition sampleFS : FileSystem := λ filename,
  if bool_decide (filename = "plain.env") then
    inr (document ["OPTION_A=1"; "OPTION_B=2"; "OPTION_F="])
  else if bool_decide (filename = "local.env") then
    inr (document ["OPTION_B=two"; "# a comment"; "OPTION_C=3"; "OPTION_C=4"])
  else if bool_decide (filename = "invalid.env") then
    inr (document ["OPTION_D=4"; "lol$wut"; "OPTION_E=5"])
  else if bool_decide (filename = "empty.env") then inr (document [])
  else if bool_decide (filename = "fixtures/") then
    inr {| scanLines := []; scanErr := Some (ReadError "is a directory") |}
  else inl (ReadError "no such file or directory").

(** The same file system after a repair: [invalid.env] and [local.env] are
    empty files. *)
Definition repairedFS : FileSystem := λ filename,
  if bool_decide (filename = "invalid.env") then inr (document [])
  else if bool_decide (filename = "local.env") then inr (document [])
  else sampleFS filename.

(** A process environment that sets [OPTION_A] to 999 and [OPTION_G] to the
    empty string. *)
Definition sampleSystem : System :=
  {| Getenv := λ name,
       if bool_decide (name = "OPTION_A") then "999" else EmptyString;
     Environ := ["OPTION_A=999"; "OPTION_G="] |}.

(** Two sources that assign [K]; the second one has a malformed line
    after its assignment. *)
Definition collidingFS : FileSystem := λ filename,
  if bool_decide (filename = "a.env") then inr (document ["K=1"])
  else if bool_decide (filename = "b.env") then
    inr (document ["K=2"; "lol$wut"])
  else inl (ReadError "no such file or directory").

(** ** Calls of the option constructors *)

(** A call of one of the three option constructors, and the option that it
    returns. *)
Inductive OptionCall :=
  | CallVariables (vars : list string)
  | CallPrioritizeSystem
  | CallFrom (filePaths : list string).

Global Instance OptionCall_eq_dec : EqDecision OptionCall.
Proof. solve_decision. Defined.

Definition optionOf (call : OptionCall) : Option :=
  match call with
  | CallVariables vars => Variables vars
  | CallPrioritizeSystem => PrioritizeSystem
  | CallFrom filePaths => From filePaths
  end.

(** The argument of a call of [Variables], and of a call of [From]. *)
Definition variablesArg (call : OptionCall) : option (list string) :=
  match call with CallVariables vars => Some vars | _ => None end.

Definition fromArg (call : OptionCall) : option (list string) :=
  match call with CallFrom filePaths => Some filePaths | _ => None end.

(** ** Notions used to state the properties of the line classifier *)

(** An ASCII byte that is no white space. *)
Definition solidByte (c : ascii) : bool :=
  (nat_of_ascii c <? 128) && negb (strings.asciiSpace c).

(** ** Notions used to state the properties of the key pattern *)

(** A byte that the class [\s] does not hold. *)
Definition noSpace (c : ascii) : bool := negb (reSpace c).

(** ** Notions used to state the properties of the value decoder *)

(** The byte of the cutset of [parseValue], the space. *)
Definition spaceByte (c : ascii) : bool := Ascii.eqb c " ".

(** A byte that is neither a space nor a quote: the first byte of a value
    that is not wrapped in quotes. *)
Definition opensPlainValue (c : ascii) : bool :=
  negb (spaceByte c) && noQuote c.


(** ** Notions used to state the properties of the keys *)

(** A text without white space of the class [\s] at either end. *)
Definition tight (s : string) : Prop :=
  headSatisfies reSpace s = false
  ∧ ∀ c, lastByte s = Some c → reSpace c = false.

(** ** The version of the package with a variable holder

    The other version in [godotenv.go] replaces the options by a value
    that holds the requested variables and the priority, with the source
    files as arguments of [GetFrom].  Its reader, parser and decoder are
    those of the version with the options, word for word, and so is the
    body of the loop over the requested variables. *)

Module holder.

Record variableHolder := {
  variables : list string;
  systemFirst : bool
}.

Definition Variables (vars : list string) : variableHolder :=
  {| variables := vars; systemFirst := false |}.

Definition PrioritizeSystem (vh : variableHolder) : variableHolder :=
  {| variables := variables vh; systemFirst := true |}.

(** [read] takes the file names as they are given and falls back to the
    default name itself. *)
Definition read (fs : FileSystem) (filenames : list string)
    : gmap string string * option error :=
  readFiles fs (filenamesOrDefault filenames) ∅.

Definition getAllVariables (sys : System) (vh : variableHolder)
    (fromEnvDotFiles : gmap string string) : option (gmap string string) :=
  let envMap := copyInto fromEnvDotFiles ∅ in
  match systemVariables sys with
  | None => None
  | Some sysVars =>
      Some (map_fold (λ k v envMap,
              let ok := notNil (envMap !! k) in
              if ok && systemFirst vh || negb ok
              then <[k:=v]> envMap else envMap)
            envMap sysVars)
  end.

Definition GetFrom (sys : System) (fs : FileSystem) (vh : variableHolder)
    (filenames : list string) : option (gmap string string * list string) :=
  let '(inFileVariables, _) := read fs filenames in
  if length (variables vh) =? 0 then
    match getAllVariables sys vh inFileVariables with
    | Some envMap => Some (envMap, [])
    | None => None
    end
  else
    Some (fold_left (getStep sys inFileVariables (systemFirst vh))
            (variables vh) (∅, [])).

Definition Get (sys : System) (fs : FileSystem) (vh : variableHolder)
    : option (gmap string string * list string) :=
  GetFrom sys fs vh [].

End holder.

(** ** The version of the package with [Read]

    This version only reads the sources.  Its [parseLine] starts with a
    test for the empty line, which has an error of its own; the rest of the
    file is the text of the other versions. *)

Module readonly.

(** The failures of this version: the errors that it shares with the
    other versions and the error of the empty line. *)
Inductive failure :=
  | Shared (err : error)
  | EmptyLine.

(** After the test for the empty line, the function is the [parseLine] of
    the other versions. *)
Definition parseLine (line : string) (envMap : gmap string string)
    : string * string * option failure :=
  if String.length line =? 0
  then (EmptyString, EmptyString, Some EmptyLine)
  else
    let '(key, value, err) := parseLine line envMap in
    (key, value, Shared <$> err).

Fixpoint parseLines (lines : list string) (envMap : gmap string string)
    : gmap string string * option failure :=
  match lines with
  | [] => (envMap, None)
  | line :: rest =>
      if isIgnoredLine line then parseLines rest envMap
      else
        match parseLine line envMap with
        | (_, _, Some err) => (envMap, Some err)
        | (k, v, None) => parseLines rest (<[k:=v]> envMap)
        end
  end.

Definition parse (r : Reader) : gmap string string * option failure :=
  match scanErr r with
  | Some err => (∅, Some (Shared err))
  | None => parseLines (scanLines r) ∅
  end.

Definition readFile (fs : FileSystem) (filename : string)
    : gmap string string * option failure :=
  match fs filename with
  | inl err => (∅, Some (Shared err))
  | inr file => parse file
  end.

Fixpoint readFiles (fs : FileSystem) (filenames : list string)
    (envMap : gmap string string) : gmap string string * option failure :=
  match filenames with
  | [] => (envMap, None)
  | filename :: rest =>
      match readFile fs filename with
      | (_, Some individualErr) => (envMap, Some individualErr)
      | (individualEnvMap, None) =>
          readFiles fs rest (copyInto individualEnvMap envMap)
      end
  end.

Definition Read (fs : FileSystem) (filenames : list string)
    : gmap string string * option failure :=
  readFiles fs (filenamesOrDefault filenames) ∅.

End readonly.

(** * Properties *)

(** ** Byte strings *)

Lemma app_cons c s t : String c s +:+ t = String c (s +:+ t).
Proof. reflexivity. Qed.

Lemma app_empty_l t : EmptyString +:+ t = t.
Proof. reflexivity. Qed.

Lemma app_empty_r s : s +:+ EmptyString = s.
Proof. induction s as [|c s IH]; [done|]. by rewrite app_cons, IH. Qed.

Lemma app_assoc_s s t u : (s +:+ t) +:+ u = s +:+ (t +:+ u).
Proof. induction s as [|c s IH]; [done|]. by rewrite !app_cons, IH. Qed.

Lemma length_app_s s t :
  String.length (s +:+ t) = String.length s + String.length t.
Proof.
  induction s as [|c s IH]; [done|]. rewrite app_cons. cbn. by rewrite IH.
Qed.

Lemma take_bytes_app s t : take_bytes (String.length s) (s +:+ t) = s.
Proof.
  induction s as [|c s IH]; [by destruct t|].
  rewrite app_cons. cbn. by rewrite IH.
Qed.

Lemma drop_bytes_app s t : drop_bytes (String.length s) (s +:+ t) = t.
Proof.
  induction s as [|c s IH]; [done|]. rewrite app_cons. cbn. by rewrite IH.
Qed.

Lemma lastByte_app s c : lastByte (s +:+ str1 c) = Some c.
Proof.
  induction s as [|x s IH]; [done|]. rewrite app_cons.
  cbn [lastByte]. rewrite IH. by destruct (s +:+ str1 c).
Qed.

Lemma TrimLeft_head s c x t :
  s = String x t → x ≠ c → strings.TrimLeft s c = s.
Proof. intros -> Hne. cbn. by rewrite (proj2 (Ascii.eqb_neq x c)). Qed.

Lemma take_bytes_all s : take_bytes (String.length s) s = s.
Proof. induction s as [|c s IH]; [done|]. cbn. by rewrite IH. Qed.

Lemma app_snoc_cons pre c t : (pre +:+ str1 c) +:+ t = pre +:+ String c t.
Proof. by rewrite app_assoc_s. Qed.

Lemma HasPrefix_empty s : strings.HasPrefix s EmptyString = true.
Proof. by destruct s. Qed.

Lemma take_drop_bytes n s : s = take_bytes n s +:+ drop_bytes n s.
Proof.
  revert s. induction n as [|n IH]; intros [|c s]; try done.
  cbn [take_bytes drop_bytes]. by rewrite app_cons, <- IH.
Qed.

Lemma HasPrefix_length s w :
  strings.HasPrefix s w = true →
  String.length s
    = String.length w + String.length (drop_bytes (String.length w) s).
Proof.
  revert s. induction w as [|c w IH]; intros s; [done|].
  destruct s as [|x s]; [done|]. cbn.
  intros H. apply andb_true_iff in H as [_ H]. by rewrite (IH s H).
Qed.

Lemma drop_bytes_app_all s : drop_bytes (String.length s) s = EmptyString.
Proof. induction s as [|c s IH]; [done|]. cbn. by rewrite IH. Qed.

Lemma Contains_app a b c :
  strings.Contains (a +:+ b) c = strings.Contains a c || strings.Contains b c.
Proof.
  induction a as [|x a IH]; [done|]. rewrite app_cons. cbn.
  by rewrite IH, orb_assoc.
Qed.

Lemma Contains_allBytes p s c :
  allBytes p s = true → p c = false → strings.Contains s c = false.
Proof.
  intros Hall Hc. induction s as [|x s IH]; [done|].
  cbn in *. apply andb_true_iff in Hall as [Hx Hall].
  rewrite IH by done. rewrite orb_false_r.
  apply Ascii.eqb_neq. intros ->. congruence.
Qed.

Lemma Contains_true_allBytes p s c :
  allBytes p s = true → strings.Contains s c = true → p c = true.
Proof.
  intros Hall Hc. destruct (p c) eqn:Hp; [done|].
  by rewrite (Contains_allBytes p s c) in Hc.
Qed.

Lemma optByte_split c t g t' : optByte c t = (g, t') → t = g +:+ t'.
Proof.
  destruct t as [|x t]; cbn; [by intros [= <- <-]|].
  destruct (Ascii.eqb_spec x c) as [->|]; by intros [= <- <-].
Qed.

Lemma spanIdent_split t a b : spanIdent t = (a, b) → t = a +:+ b.
Proof.
  revert a b. induction t as [|x t IH]; intros a b; cbn; [by intros [= <- <-]|].
  destruct (identByte x); [|by intros [= <- <-]].
  destruct (spanIdent t) as [a' b']. intros [= <- <-].
  rewrite app_cons. f_equal. by apply IH.
Qed.


(** ** The search computes the closed forms *)

Section search.
Import regexp.

(** The loops of the stars over a class are recursions on the text. *)
Lemma starLoop_class p k fuel pos rest caps :
  String.length rest ≤ fuel →
  starLoop (run (Class p)) k fuel pos rest caps = greedily p k pos rest caps.
Proof.
  revert pos rest. induction fuel as [|fuel IH]; intros pos rest Hfuel.
  - destruct rest; [done|cbn in Hfuel; lia].
  - cbn [starLoop run]. destruct rest as [|c t]; [done|].
    cbn [greedily]. destruct (p c); [|done].
    replace (pos <? S pos) with true by (symmetry; apply Nat.ltb_lt; lia).
    rewrite IH; [done|cbn in Hfuel; lia].
Qed.

Lemma lazyLoop_class p k fuel pos rest caps :
  String.length rest ≤ fuel →
  lazyLoop (run (Class p)) k fuel pos rest caps = lazily p k pos rest caps.
Proof.
  revert pos rest. induction fuel as [|fuel IH]; intros pos rest Hfuel.
  - destruct rest; [done|cbn in Hfuel; lia].
  - cbn [lazyLoop run]. destruct rest as [|c t]; [done|].
    cbn [lazily]. destruct (p c); [|done].
    replace (pos <? S pos) with true by (symmetry; apply Nat.ltb_lt; lia).
    rewrite IH; [done|cbn in Hfuel; lia].
Qed.

Lemma run_star_class p pos rest caps k :
  run (Star (Class p)) pos rest caps k = greedily p k pos rest caps.
Proof. cbn [run]. by apply starLoop_class. Qed.

Lemma run_lazy_class p pos rest caps k :
  run (LazyStar (Class p)) pos rest caps k = lazily p k pos rest caps.
Proof. cbn [run]. by apply lazyLoop_class. Qed.

(** The two-byte patterns. *)
Lemma escapeRegex_matchAt s : matchAt escapeRegex s = escapeMatch s.
Proof.
  destruct s as [|c [|d t]]; [done| |].
  - change (matchAt escapeRegex (String c EmptyString))
      with (if Ascii.eqb c bslash then @None (list string) else None).
    by destruct (Ascii.eqb c bslash).
  - change (matchAt escapeRegex (String c (String d t)))
      with (if Ascii.eqb c bslash
            then if notNewline d then Some [String c (str1 d)] else None
            else None).
    unfold escapeMatch, notNewline.
    by destruct (Ascii.eqb c bslash), (Ascii.eqb d newline).
Qed.

Lemma unescapeCharsRegex_matchAt s :
  matchAt unescapeCharsRegex s = unescapeCharsMatch s.
Proof.
  destruct s as [|c [|d t]]; [done| |].
  - change (matchAt unescapeCharsRegex (String c EmptyString))
      with (if Ascii.eqb c bslash then @None (list string) else None).
    by destruct (Ascii.eqb c bslash).
  - change (matchAt unescapeCharsRegex (String c (String d t)))
      with (if Ascii.eqb c bslash
            then if notDollar d then Some [String c (str1 d); str1 d] else None
            else None).
    unfold unescapeCharsMatch, notDollar.
    by destruct (Ascii.eqb c bslash), (Ascii.eqb d dollar).
Qed.

Lemma orElse_None_r {A} (x : option A) : orElse x None = x.
Proof. by destruct x. Qed.

Lemma greedy_quote q s t rest pos caps :
  q ≠ newline →
  greedily notNewline (quoteCont q s t) pos rest caps =
    if bool_decide (lastByte rest = Some q)
       && negb (strings.Contains
                  (take_bytes (String.length rest - 1) rest) newline)
    then Some (<[0 := take_bytes (pos + String.length rest) s]>
                 (<[1 := take_bytes (pos + String.length rest - 1 - 1) t]>
                    caps))
    else None.
Proof.
  intros Hq. revert pos. induction rest as [|c r IH]; intros pos; [done|].
  cbn [greedily]. unfold notNewline at 1.
  destruct (Ascii.eqb_spec c newline) as [->|Hc]; cbn [negb].
  - unfold quoteCont. cbn [run].
    rewrite (proj2 (Ascii.eqb_neq newline q)) by done.
    destruct r as [|d r'].
    + by rewrite bool_decide_eq_false_2 by (cbn; congruence).
    + cbn [String.length].
      replace (S (S (String.length r')) - 1) with (S (String.length r')) by lia.
      cbn [take_bytes strings.Contains]. rewrite Ascii.eqb_refl.
      by rewrite andb_false_r.
  - rewrite IH. destruct r as [|d r'].
    + cbn [lastByte String.length take_bytes strings.Contains Nat.sub].
      rewrite bool_decide_eq_false_2 by done. cbn [andb orElse negb].
      unfold quoteCont, final. cbn [run].
      destruct (Ascii.eqb_spec c q) as [->|Hcq].
      * rewrite bool_decide_eq_true_2 by done.
        by replace (pos + 1) with (S pos) by lia;
           replace (S pos - 1 - 1) with (pos - 1) by lia.
      * by rewrite bool_decide_eq_false_2 by congruence.
    + replace (quoteCont q s t pos (String c (String d r')) caps)
        with (@None (list string)).
      2:{ unfold quoteCont. cbn [run]. by destruct (Ascii.eqb c q). }
      rewrite orElse_None_r.
      change (lastByte (String c (String d r'))) with (lastByte (String d r')).
      cbn [String.length].
      replace (S (S (String.length r')) - 1) with (S (String.length r')) by lia.
      replace (S (String.length r') - 1) with (String.length r') by lia.
      cbn [take_bytes strings.Contains].
      rewrite (proj2 (Ascii.eqb_neq c newline)) by done. cbn [orb].
      by replace (S pos + S (String.length r'))
           with (pos + S (S (String.length r'))) by lia.
Qed.

Lemma quotes_matchAt q s :
  q ≠ newline → matchAt (MustCompile (quotesSyntax q)) s = quotedBy q s.
Proof.
  intros Hq. destruct s as [|c t]; [done|].
  change (matchAt (MustCompile (quotesSyntax q)) (String c t))
    with (if Ascii.eqb c q
          then run (Star (Class notNewline)) 1 t [EmptyString; EmptyString]
                 (quoteCont q (String c t) t)
          else None).
  unfold quotedBy. destruct (Ascii.eqb c q); [|done]. cbn [andb].
  rewrite run_star_class, greedy_quote by done.
  destruct (bool_decide _ && _); [|done].
  replace (1 + String.length t) with (String.length (String c t)) by done.
  rewrite take_bytes_all.
  by replace (String.length (String c t) - 1 - 1) with (String.length t - 1)
    by (cbn; lia).
Qed.

Lemma orElse_Some_l {A} (x y : option A) : is_Some x → orElse x y = x.
Proof. by intros [? ->]. Qed.

Lemma always_final s : always (final s).
Proof. intros pos rest caps. by eexists. Qed.

Lemma always_quest r k :
  always k → always (λ pos rest caps, run (Quest r) pos rest caps k).
Proof.
  intros Hk pos rest caps. cbn [run].
  destruct (run r pos rest caps k); [by eexists|apply Hk].
Qed.

Lemma greedy_always k pos rest caps :
  always k →
  greedily identByte k pos rest caps =
    k (pos + String.length (spanIdent rest).1) (spanIdent rest).2 caps.
Proof.
  intros Hk. revert pos. induction rest as [|c t IH]; intros pos.
  - cbn. by rewrite Nat.add_0_r.
  - cbn [greedily spanIdent]. destruct (identByte c).
    + rewrite IH. destruct (spanIdent t) as [a b]. cbn [fst snd String.length].
      rewrite orElse_Some_l by apply Hk. f_equal. lia.
    + cbn. by rewrite Nat.add_0_r.
Qed.

Lemma quest_lit_always c k pos rest caps :
  always k →
  run (Quest (Lit c)) pos rest caps k =
    k (pos + String.length (optByte c rest).1) (optByte c rest).2 caps.
Proof.
  intros Hk. cbn [run]. destruct rest as [|x t].
  - cbn. by rewrite Nat.add_0_r.
  - cbn [optByte]. destruct (Ascii.eqb x c).
    + rewrite orElse_Some_l by apply Hk. cbn. f_equal. lia.
    + cbn. by rewrite Nat.add_0_r.
Qed.

Lemma quest_capture_lit_always i c k pos rest caps :
  always k →
  run (Quest (Capture i (Lit c))) pos rest caps k =
    k (pos + String.length (optByte c rest).1) (optByte c rest).2
      (setGroup i (optByte c rest).1 caps).
Proof.
  intros Hk. cbn [run]. destruct rest as [|x t].
  - cbn. by rewrite Nat.add_0_r.
  - cbn [optByte]. destruct (Ascii.eqb_spec x c) as [->|].
    + rewrite orElse_Some_l by apply Hk.
      cbn [fst snd String.length str1 setGroup].
      replace (S pos - pos) with 1 by lia. cbn [take_bytes]. f_equal. lia.
    + cbn. by rewrite Nat.add_0_r.
Qed.

Lemma quest_capture_plus_always i k pos rest caps :
  always k →
  run (Quest (Capture i (Plus (Class identByte)))) pos rest caps k =
    k (pos + String.length (spanIdent rest).1) (spanIdent rest).2
      (setGroup i (spanIdent rest).1 caps).
Proof.
  intros Hk. destruct rest as [|x t].
  - cbn. by rewrite Nat.add_0_r.
  - change (run (Quest (Capture i (Plus (Class identByte)))) pos (String x t)
              caps k)
      with (orElse
              (if identByte x
               then run (Star (Class identByte)) (S pos) t caps
                      (λ pos' rest' caps',
                         k pos' rest'
                           (<[i := take_bytes (pos' - pos) (String x t)]>
                              caps'))
               else None)
              (k pos (String x t) caps)).
    cbn [spanIdent]. destruct (identByte x).
    + rewrite run_star_class, greedy_always by (intros ???; apply Hk).
      pose proof (spanIdent_split t) as Hsplit.
      destruct (spanIdent t) as [a b]. specialize (Hsplit a b eq_refl).
      cbn [fst snd String.length setGroup].
      rewrite orElse_Some_l by apply Hk.
      replace (S pos + String.length a - pos) with (S (String.length a)) by lia.
      cbn [take_bytes]. rewrite Hsplit, take_bytes_app. f_equal. lia.
    + cbn. by rewrite Nat.add_0_r.
Qed.

Lemma setGroup_3 g w g1 d :
  setGroup 3 g [w; g1; d; EmptyString; EmptyString]
    = [w; g1; d; g; EmptyString].
Proof. by destruct g. Qed.

Lemma setGroup_4 g w g1 d g3 :
  setGroup 4 g [w; g1; d; g3; EmptyString] = [w; g1; d; g3; g].
Proof. by destruct g. Qed.

Lemma expandVarTail_eq s g1 t w d :
  s = g1 +:+ String dollar t →
  run expandVarTailSyntax (S (String.length g1)) t
    [w; g1; d; EmptyString; EmptyString] (final s)
  = match expandVarTail g1 t with
    | Some [whole; _; _; g3; g4] => Some [whole; g1; d; g3; g4]
    | _ => None
    end.
Proof.
  intros Hs.
  set (K4 := final s).
  set (K3 := λ pos rest caps, run (Quest (Lit "}")) pos rest caps K4).
  set (K2 := λ pos rest caps,
          run (Quest (Capture 4 (Plus (Class identByte)))) pos rest caps K3).
  set (K1 := λ pos rest caps, run (Quest (Lit "{")) pos rest caps K2).
  assert (always K4) as H4 by apply always_final.
  assert (always K3) as H3 by by apply always_quest.
  assert (always K2) as H2 by by apply always_quest.
  assert (always K1) as H1 by by apply always_quest.
  change (run expandVarTailSyntax (S (String.length g1)) t
            [w; g1; d; EmptyString; EmptyString] K4)
    with (run (Quest (Capture 3 (Lit "("))) (S (String.length g1)) t
            [w; g1; d; EmptyString; EmptyString] K1).
  rewrite quest_capture_lit_always by done. unfold K1 at 1.
  rewrite quest_lit_always by done. unfold K2 at 1.
  rewrite quest_capture_plus_always by done. unfold K3 at 1.
  rewrite quest_lit_always by done. unfold K4, final.
  unfold expandVarTail.
  pose proof (optByte_split "(" t) as S1.
  destruct (optByte "(" t) as [g3 t1]. specialize (S1 _ _ eq_refl).
  cbn [fst snd].
  pose proof (optByte_split "{" t1) as S2.
  destruct (optByte "{" t1) as [ob t2]. specialize (S2 _ _ eq_refl).
  cbn [fst snd].
  pose proof (spanIdent_split t2) as S3.
  destruct (spanIdent t2) as [g4 t3]. specialize (S3 _ _ eq_refl).
  cbn [fst snd].
  pose proof (optByte_split "}" t3) as S4.
  destruct (optByte "}" t3) as [cb t4]. specialize (S4 _ _ eq_refl).
  cbn [fst snd].
  rewrite setGroup_3, setGroup_4. cbn [insert list_insert].
  f_equal. f_equal.
  subst s t t1 t2 t3.
  replace (S (String.length g1) + String.length g3 + String.length ob
           + String.length g4 + String.length cb)
    with (String.length (g1 +:+ String dollar (g3 +:+ ob +:+ g4 +:+ cb)))
    by (rewrite !length_app_s; cbn [String.length]; rewrite !length_app_s; lia).
  rewrite <- (take_bytes_app
                (g1 +:+ String dollar (g3 +:+ ob +:+ g4 +:+ cb)) t4) at 2.
  f_equal. by rewrite !app_assoc_s, !app_cons, !app_assoc_s.
Qed.

Lemma expandVarSyntax_unfold c t :
  matchAt expandVarRegex (String c t) =
    orElse
      (if Ascii.eqb c bslash then
         match t with
         | String d t' =>
             if Ascii.eqb d dollar then
               run expandVarTailSyntax 2 t'
                 [EmptyString; str1 c; str1 d; EmptyString; EmptyString]
                 (final (String c t))
             else None
         | EmptyString => None
         end
       else None)
      (if Ascii.eqb c dollar then
         run expandVarTailSyntax 1 t
           [EmptyString; EmptyString; str1 c; EmptyString; EmptyString]
           (final (String c t))
       else None).
Proof. destruct t; reflexivity. Qed.

Lemma expandVarTail_shape g1 t :
  ∃ whole g3 g4, expandVarTail g1 t = Some [whole; g1; str1 dollar; g3; g4].
Proof.
  unfold expandVarTail.
  destruct (optByte "(" t) as [g3 t1], (optByte "{" t1) as [ob t2],
    (spanIdent t2) as [g4 t3], (optByte "}" t3) as [cb t4].
  by eexists _, _, _.
Qed.

Lemma expandVarRegex_matchAt s : matchAt expandVarRegex s = expandVarMatch s.
Proof.
  destruct s as [|c t]; [done|].
  rewrite expandVarSyntax_unfold. unfold expandVarMatch.
  destruct (Ascii.eqb_spec c bslash) as [->|Hc].
  - change (Ascii.eqb bslash dollar) with false. cbv iota.
    rewrite orElse_None_r.
    destruct t as [|d t']; [done|].
    destruct (Ascii.eqb_spec d dollar) as [->|]; [|done].
    rewrite (expandVarTail_eq _ (str1 bslash) t') by done.
    by destruct (expandVarTail_shape (str1 bslash) t') as (w & g3 & g4 & ->).
  - cbn [orElse]. destruct (Ascii.eqb_spec c dollar) as [->|]; [|done].
    rewrite (expandVarTail_eq _ EmptyString t) by done.
    by destruct (expandVarTail_shape EmptyString t) as (w & g3 & g4 & ->).
Qed.

(** ** The key pattern *)

Lemma greedy_spaces_end s pos rest caps :
  greedily reSpace (endCont s) pos rest caps =
    if allBytes reSpace rest
    then Some (<[0 := take_bytes (pos + String.length rest) s]> caps)
    else None.
Proof.
  revert pos. induction rest as [|c t IH]; intros pos.
  - cbn. by rewrite Nat.add_0_r.
  - cbn [greedily allBytes]. destruct (reSpace c); [|done].
    rewrite IH. cbn [andb String.length].
    replace (S pos + String.length t) with (pos + S (String.length t)) by lia.
    by destruct (allBytes reSpace t).
Qed.

Lemma dropTrailingSpaces_spaces rest :
  allBytes reSpace rest = true → dropTrailingSpaces rest = EmptyString.
Proof.
  induction rest as [|c t IH]; [done|]. cbn. intros H.
  apply andb_true_iff in H as [Hc Ht]. by rewrite IH, Hc.
Qed.

Lemma dropTrailingSpaces_cons c t :
  allBytes reSpace (String c t) = false →
  dropTrailingSpaces (String c t) = String c (dropTrailingSpaces t).
Proof.
  cbn. intros H. destruct (dropTrailingSpaces t) eqn:Ht; [|done].
  destruct (reSpace c) eqn:Hc; [|done]. cbn in H.
  assert (allBytes reSpace t = true) as Hall; [|congruence].
  clear H. revert Ht. induction t as [|x t IH]; [done|]. cbn.
  destruct (dropTrailingSpaces t); [|done].
  destruct (reSpace x); [|done]. intros _. by rewrite IH.
Qed.

Lemma lazy_group s pos0 pre rest caps :
  strings.Contains pre newline = false →
  lazily notNewline (groupCont s pos0 (pre +:+ rest))
    (pos0 + String.length pre) rest caps
  = exportResult s (pos0 + String.length pre + String.length rest)
      (pre +:+ dropTrailingSpaces rest) caps.
Proof.
  revert pre. induction rest as [|c t IH]; intros pre Hpre.
  - cbn [lazily]. unfold groupCont at 1. rewrite greedy_spaces_end.
    cbn [allBytes dropTrailingSpaces]. unfold exportResult.
    replace (pos0 + String.length pre - pos0) with (String.length pre) by lia.
    by rewrite take_bytes_app, !app_empty_r, Hpre.
  - cbn [lazily]. unfold groupCont at 1. rewrite greedy_spaces_end.
    replace (pos0 + String.length pre - pos0) with (String.length pre) by lia.
    rewrite take_bytes_app.
    destruct (allBytes reSpace (String c t)) eqn:Hall.
    + rewrite dropTrailingSpaces_spaces by done. unfold exportResult.
      rewrite app_empty_r, Hpre. done.
    + cbn [orElse]. rewrite dropTrailingSpaces_cons by done.
      unfold notNewline at 1.
      destruct (Ascii.eqb_spec c newline) as [->|Hc]; cbn [negb].
      * unfold exportResult. rewrite Contains_app. cbn [strings.Contains].
        rewrite Ascii.eqb_refl. by rewrite orb_true_r.
      * specialize (IH (pre +:+ str1 c)).
        rewrite app_snoc_cons, length_app_s in IH.
        cbn [String.length str1] in IH.
        replace (pos0 + (String.length pre + 1))
          with (S (pos0 + String.length pre)) in IH by lia.
        rewrite IH.
        -- rewrite app_snoc_cons. cbn [String.length].
           by replace (S (pos0 + String.length pre) + String.length t)
                with (pos0 + String.length pre + S (String.length t)) by lia.
        -- rewrite Contains_app, Hpre. cbn.
           by rewrite (proj2 (Ascii.eqb_neq c newline)).
Qed.

(** A greedy run of white space before a continuation that fails on a
    longer text whenever it fails on the text without its first byte: no
    backtracking into the run can succeed, so the run takes all the white
    space. *)
Lemma dropSpaces_length rest :
  String.length (dropSpaces rest) ≤ String.length rest.
Proof.
  induction rest as [|c t IH]; [done|]. cbn.
  destruct (reSpace c); cbn; lia.
Qed.

Section commit.
Context (k : Cont).
Context (Hk : ∀ pos c t caps,
           reSpace c = true → k (S pos) t caps = None →
           k pos (String c t) caps = None).

Lemma commit_fail pos rest caps :
  k (pos + (String.length rest - String.length (dropSpaces rest)))
    (dropSpaces rest) caps = None →
  k pos rest caps = None.
Proof.
  revert pos. induction rest as [|c t IH]; intros pos.
  - cbn. by rewrite Nat.add_0_r.
  - cbn [dropSpaces]. destruct (reSpace c) eqn:Hc.
    + pose proof (dropSpaces_length t). cbn [String.length].
      replace (pos + (S (String.length t) - String.length (dropSpaces t)))
        with (S pos + (String.length t - String.length (dropSpaces t))) by lia.
      intros Hfail. by apply Hk, IH.
    + by rewrite Nat.sub_diag, Nat.add_0_r.
Qed.

Lemma greedy_commit pos rest caps :
  greedily reSpace k pos rest caps =
    k (pos + (String.length rest - String.length (dropSpaces rest)))
      (dropSpaces rest) caps.
Proof.
  revert pos. induction rest as [|c t IH]; intros pos.
  - cbn. by rewrite Nat.add_0_r.
  - cbn [greedily dropSpaces]. destruct (reSpace c) eqn:Hc.
    + pose proof (dropSpaces_length t). rewrite IH. cbn [String.length].
      replace (pos + (S (String.length t) - String.length (dropSpaces t)))
        with (S pos + (String.length t - String.length (dropSpaces t))) by lia.
      destruct (k (S pos + _) (dropSpaces t) caps) eqn:Hres; [done|].
      cbn [orElse]. by apply Hk, commit_fail.
    + by rewrite Nat.sub_diag, Nat.add_0_r.
Qed.
End commit.

Lemma greedy_ext p k1 k2 pos rest caps :
  (∀ pos rest caps, k1 pos rest caps = k2 pos rest caps) →
  greedily p k1 pos rest caps = greedily p k2 pos rest caps.
Proof.
  intros Hk. revert pos. induction rest as [|c t IH]; intros pos; cbn; [done|].
  by rewrite IH, Hk.
Qed.

Lemma lazy_ext p k1 k2 pos rest caps :
  (∀ pos rest caps, k1 pos rest caps = k2 pos rest caps) →
  lazily p k1 pos rest caps = lazily p k2 pos rest caps.
Proof.
  intros Hk. revert pos. induction rest as [|c t IH]; intros pos; cbn.
  - by rewrite Hk.
  - by rewrite IH, Hk.
Qed.

Lemma run_lits w pos rest caps k :
  w ≠ EmptyString →
  run (lits w) pos rest caps k =
    if strings.HasPrefix rest w
    then k (pos + String.length w) (drop_bytes (String.length w) rest) caps
    else None.
Proof.
  intros Hw. revert pos rest.
  induction w as [|c w IH]; intros pos rest; [done|].
  destruct w as [|c' w].
  - cbn [lits run strings.HasPrefix String.length].
    destruct rest as [|x t]; [reflexivity|].
    change (strings.HasPrefix (String x t) (String c EmptyString))
      with (Ascii.eqb x c && strings.HasPrefix t EmptyString).
    rewrite HasPrefix_empty, andb_true_r.
    destruct (Ascii.eqb x c); [|done]. cbn [drop_bytes].
    f_equal. lia.
  - change (lits (String c (String c' w)))
      with (Cat (Lit c) (lits (String c' w))).
    cbn [run]. destruct rest as [|x t]; [done|].
    change (strings.HasPrefix (String x t) (String c (String c' w)))
      with (Ascii.eqb x c && strings.HasPrefix t (String c' w)).
    destruct (Ascii.eqb x c); [|done].
    rewrite IH by done. cbn [andb String.length drop_bytes].
    destruct (strings.HasPrefix t (String c' w)); [|done]. f_equal. lia.
Qed.

Lemma run_plus_class p pos rest caps k :
  run (Plus (Class p)) pos rest caps k =
    match rest with
    | String c t => if p c then greedily p k (S pos) t caps else None
    | EmptyString => None
    end.
Proof.
  destruct rest as [|c t]; [done|].
  change (run (Plus (Class p)) pos (String c t) caps k)
    with (if p c then run (Star (Class p)) (S pos) t caps k else None).
  by rewrite run_star_class.
Qed.

Lemma fromGroup_eq s pos rest caps :
  fromGroup s pos rest caps
    = exportResult s (pos + String.length rest) (dropTrailingSpaces rest) caps.
Proof.
  change (fromGroup s pos rest caps)
    with (run (LazyStar (Class notNewline)) pos rest caps
            (λ pos' rest' caps',
               run (Star (Class reSpace)) pos' rest'
                 (<[1 := take_bytes (pos' - pos) rest]> caps') (endCont s))).
  rewrite run_lazy_class.
  rewrite (lazy_ext _ _ (groupCont s pos rest))
    by (intros; apply run_star_class).
  pose proof (lazy_group s pos EmptyString rest caps) as H.
  rewrite app_empty_l in H. cbn [String.length] in H.
  rewrite Nat.add_0_r in H. by apply H.
Qed.

Lemma exportResult_None s n body caps :
  exportResult s n body caps = None ↔ strings.Contains body newline = true.
Proof. unfold exportResult. by destruct (strings.Contains body newline). Qed.

Lemma dropTrailingSpaces_nonempty t :
  strings.Contains (dropTrailingSpaces t) newline = true →
  allBytes reSpace t = false.
Proof.
  intros H. destruct (allBytes reSpace t) eqn:Hall; [|done].
  by rewrite dropTrailingSpaces_spaces in H.
Qed.

Lemma dropTrailingSpaces_newline_cons c t :
  strings.Contains (dropTrailingSpaces t) newline = true →
  strings.Contains (dropTrailingSpaces (String c t)) newline = true.
Proof.
  intros H. rewrite dropTrailingSpaces_cons.
  - cbn. by rewrite H, orb_true_r.
  - cbn. by rewrite (dropTrailingSpaces_nonempty t H), andb_false_r.
Qed.

Lemma dropTrailingSpaces_newline_app a b :
  strings.Contains (dropTrailingSpaces b) newline = true →
  strings.Contains (dropTrailingSpaces (a +:+ b)) newline = true.
Proof.
  intros H. induction a as [|c a IH]; [done|].
  rewrite app_cons. by apply dropTrailingSpaces_newline_cons.
Qed.

Lemma fromGroup_fail s pos c t caps :
  fromGroup s (S pos) t caps = None →
  fromGroup s pos (String c t) caps = None.
Proof.
  rewrite !fromGroup_eq, !exportResult_None.
  apply dropTrailingSpaces_newline_cons.
Qed.

Lemma dropSpaces_suffix t : ∃ a, t = a +:+ dropSpaces t.
Proof.
  induction t as [|c t [a IH]]; [by exists EmptyString|]. cbn.
  destruct (reSpace c); [|by exists EmptyString].
  exists (String c a). by rewrite app_cons, <- IH.
Qed.

Lemma afterExport_suffix t : ∃ a, t = a +:+ afterExport t.
Proof.
  unfold afterExport. destruct (drop_bytes 6 t) as [|c u] eqn:Hdrop.
  - by exists EmptyString.
  - destruct (_ && _); [|by exists EmptyString].
    destruct (dropSpaces_suffix u) as [a Ha].
    exists (take_bytes 6 t +:+ String c a).
    rewrite app_assoc_s, app_cons, <- Ha, <- Hdrop. apply take_drop_bytes.
Qed.

Lemma fromExport_eq s pos rest caps :
  fromExport s pos rest caps
    = exportResult s (pos + String.length rest)
        (dropTrailingSpaces (afterExport rest)) caps.
Proof.
  change (fromExport s pos rest caps)
    with (orElse
            (run (lits "export") pos rest caps
               (λ pos' rest' caps',
                  run (Plus (Class reSpace)) pos' rest' caps' (fromGroup s)))
            (fromGroup s pos rest caps)).
  rewrite run_lits by done. unfold afterExport.
  destruct (strings.HasPrefix rest "export") eqn:Hpre;
    [|cbn [orElse andb]; rewrite fromGroup_eq; by destruct (drop_bytes 6 rest)].
  rewrite run_plus_class. cbn [String.length].
  pose proof (HasPrefix_length _ _ Hpre) as Hlen. cbn [String.length] in Hlen.
  destruct (drop_bytes 6 rest) as [|c t] eqn:Hdrop;
    [cbn [orElse]; by rewrite fromGroup_eq|].
  cbn [andb]. destruct (reSpace c);
    [|cbn [orElse]; by rewrite fromGroup_eq].
  rewrite greedy_commit by (intros; by apply fromGroup_fail).
  rewrite !fromGroup_eq. pose proof (dropSpaces_length t).
  cbn [String.length] in Hlen.
  replace (S (pos + 6) + (String.length t - String.length (dropSpaces t))
           + String.length (dropSpaces t))
    with (pos + String.length rest) by lia.
  destruct (exportResult s _ (dropTrailingSpaces (dropSpaces t)) caps) eqn:Hres;
    [done|].
  cbn [orElse]. apply exportResult_None. apply exportResult_None in Hres.
  destruct (dropSpaces_suffix t) as [a Ha].
  rewrite (take_drop_bytes 6 rest), Hdrop, Ha.
  rewrite <- app_cons, <- app_assoc_s.
  by apply dropTrailingSpaces_newline_app.
Qed.

Lemma reSpace_not_e c : reSpace c = true → Ascii.eqb c "e" = false.
Proof. destruct c as [[] [] [] [] [] [] [] []]; cbn; intros; done. Qed.

Lemma fromExport_fail s pos c t caps :
  reSpace c = true →
  fromExport s (S pos) t caps = None →
  fromExport s pos (String c t) caps = None.
Proof.
  intros Hc. rewrite !fromExport_eq, !exportResult_None. intros H.
  assert (afterExport (String c t) = String c t) as ->.
  { unfold afterExport. cbn [strings.HasPrefix]. rewrite (reSpace_not_e c Hc).
    cbn [andb]. by destruct (drop_bytes 6 (String c t)). }
  destruct (afterExport_suffix t) as [a Ha]. rewrite Ha, <- app_cons.
  by apply dropTrailingSpaces_newline_app.
Qed.

Lemma exportRegex_matchAt s : matchAt exportRegex s = exportMatch s.
Proof.
  change (matchAt exportRegex s)
    with (run (Star (Class reSpace)) 0 s [EmptyString; EmptyString]
            (fromExport s)).
  rewrite run_star_class.
  rewrite greedy_commit by (intros; by apply fromExport_fail).
  rewrite fromExport_eq. pose proof (dropSpaces_length s).
  replace (0 + (String.length s - String.length (dropSpaces s))
           + String.length (dropSpaces s)) with (String.length s) by lia.
  unfold exportResult. rewrite take_bytes_all.
  unfold exportMatch.
  by destruct (strings.Contains _ newline).
Qed.

(** The patterns of the package. *)
Lemma singleQuotesRegex_find v :
  FindStringSubmatch singleQuotesRegex v = quotedBy squote v.
Proof. by apply quotes_matchAt. Qed.

Lemma doubleQuotesRegex_find v :
  FindStringSubmatch doubleQuotesRegex v = quotedBy dquote v.
Proof. by apply quotes_matchAt. Qed.

Lemma exportRegex_replace rawKey :
  ReplaceAllString exportRegex rawKey 1 =
    match exportMatch rawKey with
    | Some submatch => group submatch 1
    | None => rawKey
    end.
Proof.
  unfold ReplaceAllString, replaceAll.
  change (anchored exportRegex) with true. cbv iota.
  rewrite exportRegex_matchAt. unfold exportMatch.
  destruct (strings.Contains _ newline); [done|].
  cbn [group nth]. by rewrite drop_bytes_app_all, app_empty_r.
Qed.

Lemma expandVarRegex_dollar t :
  matchAt expandVarRegex (String dollar t) = expandVarTail EmptyString t.
Proof. by rewrite expandVarRegex_matchAt. Qed.

Lemma expandVarRegex_escaped t :
  matchAt expandVarRegex (String bslash (String dollar t))
    = expandVarTail (str1 bslash) t.
Proof. by rewrite expandVarRegex_matchAt. Qed.

Lemma expandVarRegex_find s submatch :
  matchAt expandVarRegex s = Some submatch →
  FindStringSubmatch expandVarRegex s = Some submatch.
Proof.
  intros H. unfold FindStringSubmatch.
  change (anchored expandVarRegex) with false. cbv iota.
  destruct s; cbn [findFrom]; by rewrite H.
Qed.

End search.
(** ** Maps *)

Lemma copyInto_union (src dst : gmap string string) :
  copyInto src dst = src ∪ dst.
Proof.
  unfold copyInto.
  apply (map_fold_weak_ind (λ r m, r = m ∪ dst)).
  - by rewrite (left_id_L ∅ (∪)).
  - intros k v m r Hk ->. by rewrite insert_union_l.
Qed.

Lemma copyInto_lookup (src dst : gmap string string) (k : string) :
  copyInto src dst !! k =
    match src !! k with Some v => Some v | None => dst !! k end.
Proof.
  rewrite copyInto_union, lookup_union.
  destruct (src !! k), (dst !! k); reflexivity.
Qed.

(** ** The lookup loop *)

Section lookup.
Context (sys : System) (inFile : gmap string string) (sf : bool).

Lemma getStep_resolved envMap notFound variable :
  getStep sys inFile sf (envMap, notFound) variable =
    match resolved sys inFile sf variable with
    | Some v => (<[variable:=v]> envMap, notFound)
    | None => (envMap, notFound ++ [variable])
    end.
Proof.
  unfold getStep, resolved.
  destruct (bool_decide (Getenv sys variable = EmptyString)); simpl.
  - destruct (inFile !! variable); reflexivity.
  - destruct sf; simpl; [reflexivity|].
    destruct (inFile !! variable); [|reflexivity].
    by rewrite insert_insert_eq.
Qed.

Lemma getLoop_notFound vars envMap notFound :
  (fold_left (getStep sys inFile sf) vars (envMap, notFound)).2 =
    notFound ++ filter (λ v, resolved sys inFile sf v = None) vars.
Proof.
  revert envMap notFound.
  induction vars as [|v vars IH]; intros envMap notFound; cbn [fold_left].
  - by rewrite filter_nil, app_nil_r.
  - rewrite getStep_resolved.
    destruct (resolved sys inFile sf v) as [x|] eqn:Hv.
    + rewrite IH, filter_cons_False; [done | congruence].
    + rewrite IH, filter_cons_True by done. by rewrite <- (assoc_L (++)).
Qed.

Lemma getLoop_keeps vars envMap notFound name v :
  name ∉ vars → envMap !! name = Some v →
  (fold_left (getStep sys inFile sf) vars (envMap, notFound)).1 !! name
    = Some v.
Proof.
  revert envMap notFound.
  induction vars as [|u vars IH]; intros envMap notFound Hnin Hem; [done|].
  cbn [fold_left]. rewrite getStep_resolved.
  apply not_elem_of_cons in Hnin as [Hne Hnin].
  destruct (resolved sys inFile sf u); apply IH; try done.
  by rewrite lookup_insert_ne.
Qed.

Lemma getLoop_lookup vars envMap notFound name v :
  name ∈ vars → resolved sys inFile sf name = Some v →
  (fold_left (getStep sys inFile sf) vars (envMap, notFound)).1 !! name
    = Some v.
Proof.
  revert envMap notFound.
  induction vars as [|w vars IH]; intros envMap notFound Hin Hres.
  - by apply elem_of_nil in Hin.
  - cbn [fold_left]. rewrite getStep_resolved.
    destruct (decide (name ∈ vars)) as [Hin'|Hnin].
    + destruct (resolved sys inFile sf w); by apply IH.
    + apply elem_of_cons in Hin as [->|]; [|done].
      rewrite Hres. by apply getLoop_keeps, lookup_insert_eq.
Qed.
End lookup.

(** In selective mode [get] always returns, with the result of the loop. *)
Lemma get_selective sys fs cfg :
  variables cfg ≠ [] →
  get sys fs cfg =
    Some (fold_left
            (getStep sys (read fs (filenamesOrDefault (filenames cfg))).1
               (systemFirst cfg))
            (variables cfg) (∅, [])).
Proof.
  intros Hsel. unfold get.
  destruct (read fs (filenamesOrDefault (filenames cfg))) as [inFile e].
  destruct (variables cfg); [done|reflexivity].
Qed.

(** C3. In selective mode, a requested name with a non-empty system value
    resolves to the system value when priority-system is set, whatever the
    sources hold, and to the file value when priority-system is not set and
    the file mapping defines the name. *)
Theorem selective_collision_precedence sys fs cfg name sysValue :
  name ∈ variables cfg →
  Getenv sys name = sysValue →
  sysValue ≠ EmptyString →
  ∃ envMap notFound,
    get sys fs cfg = Some (envMap, notFound) ∧
    (systemFirst cfg = true → envMap !! name = Some sysValue) ∧
    (systemFirst cfg = false →
       ∀ fileValue,
         (read fs (filenamesOrDefault (filenames cfg))).1 !! name
           = Some fileValue →
         envMap !! name = Some fileValue).
Proof.
  intros Hin Hsys Hne.
  assert (variables cfg ≠ []) as Hsel.
  { intros Hnil. rewrite Hnil in Hin. by apply elem_of_nil in Hin. }
  rewrite (get_selective _ _ _ Hsel).
  set (inFile := (read fs (filenamesOrDefault (filenames cfg))).1).
  destruct (fold_left _ _ _) as [envMap notFound] eqn:Hloop.
  exists envMap, notFound. split; [done|].
  replace envMap with
    (fold_left (getStep sys inFile (systemFirst cfg)) (variables cfg)
       (∅, [])).1
    by by rewrite Hloop.
  split.
  - intros Hsf. apply getLoop_lookup; [done|].
    unfold resolved. rewrite Hsys, bool_decide_eq_false_2 by done.
    by rewrite Hsf.
  - intros Hsf fileValue Hfile. apply getLoop_lookup; [done|].
    unfold resolved. rewrite Hsys, bool_decide_eq_false_2 by done.
    by rewrite Hsf, Hfile.
Qed.

(** The collision of the specification: the file sets [OPTION_A] to 1, the
    system to 999. *)
Lemma selective_collision_precedence_witness :
  ("OPTION_A" ∈ variables (Variables ["OPTION_A"; "OPTION_B"]
                            (From ["plain.env"]
                               {| variables := []; filenames := [];
                                  systemFirst := false |}))) ∧
  Getenv sampleSystem "OPTION_A" = "999" ∧
  "999" ≠ EmptyString ∧
  ∃ envMap notFound,
    get sampleSystem sampleFS
      (Variables ["OPTION_A"; "OPTION_B"]
         (From ["plain.env"]
            {| variables := []; filenames := []; systemFirst := false |}))
      = Some (envMap, notFound) ∧
    (false = true → envMap !! "OPTION_A" = Some "999") ∧
    (false = false →
       ∀ fileValue,
         (read sampleFS (filenamesOrDefault ["plain.env"])).1 !! "OPTION_A"
           = Some fileValue →
         envMap !! "OPTION_A" = Some fileValue).
Proof.
  split; [apply list_elem_of_here|].
  split; [reflexivity|].
  split; [discriminate|].
  apply (selective_collision_precedence sampleSystem sampleFS
           (Variables ["OPTION_A"; "OPTION_B"]
              (From ["plain.env"]
                 {| variables := []; filenames := [];
                    systemFirst := false |}))
           "OPTION_A" "999").
  - apply list_elem_of_here.
  - reflexivity.
  - discriminate.
Defined.

(** C9. In selective mode the not-found list is the list of the requested
    names that the file mapping does not define and for which the system
    supplies nothing or the empty string, in the order of the request: a
    requested name is in the list exactly when both hold. *)
Theorem not_found_iff_absent_everywhere sys fs cfg :
  variables cfg ≠ [] →
  ∃ envMap notFound,
    get sys fs cfg = Some (envMap, notFound) ∧
    notFound =
      filter (λ v, (read fs (filenamesOrDefault (filenames cfg))).1 !! v = None
                   ∧ Getenv sys v = EmptyString)
        (variables cfg) ∧
    ∀ name,
      name ∈ notFound ↔
        name ∈ variables cfg ∧
        (read fs (filenamesOrDefault (filenames cfg))).1 !! name = None ∧
        Getenv sys name = EmptyString.
Proof.
  intros Hsel. rewrite (get_selective _ _ _ Hsel).
  set (inFile := (read fs (filenamesOrDefault (filenames cfg))).1).
  destruct (fold_left _ _ _) as [envMap notFound] eqn:Hloop.
  exists envMap, notFound. split; [done|].
  assert (notFound =
    filter (λ v, inFile !! v = None ∧ Getenv sys v = EmptyString)
      (variables cfg)) as ->.
  { replace notFound with
      (fold_left (getStep sys inFile (systemFirst cfg)) (variables cfg)
         (∅, [])).2 by by rewrite Hloop.
    rewrite getLoop_notFound. cbn [app].
    apply list_filter_iff. intros v. unfold resolved.
    case_bool_decide as Hv.
    - tauto.
    - destruct (systemFirst cfg), (inFile !! v); split; intros H;
        try discriminate; destruct H; congruence. }
  split; [done|].
  intros name. rewrite list_elem_of_filter. tauto.
Qed.

(** Of the three requested names, [OPTION_A] comes from both sources,
    [OPTION_F] is defined empty in the file and [OPTION_G] is empty in the
    system: only the last one is not found. *)
Lemma not_found_iff_absent_everywhere_witness :
  ["OPTION_A"; "OPTION_F"; "OPTION_G"] ≠ [] ∧
  ∃ envMap notFound,
    get sampleSystem sampleFS
      {| variables := ["OPTION_A"; "OPTION_F"; "OPTION_G"];
         filenames := ["plain.env"]; systemFirst := false |}
      = Some (envMap, notFound) ∧
    notFound =
      filter (λ v, (read sampleFS (filenamesOrDefault ["plain.env"])).1 !! v
                     = None
                   ∧ Getenv sampleSystem v = EmptyString)
        ["OPTION_A"; "OPTION_F"; "OPTION_G"] ∧
    ∀ name,
      name ∈ notFound ↔
        name ∈ ["OPTION_A"; "OPTION_F"; "OPTION_G"] ∧
        (read sampleFS (filenamesOrDefault ["plain.env"])).1 !! name = None ∧
        Getenv sampleSystem name = EmptyString.
Proof.
  split; [discriminate|].
  apply (not_found_iff_absent_everywhere sampleSystem sampleFS
           {| variables := ["OPTION_A"; "OPTION_F"; "OPTION_G"];
              filenames := ["plain.env"]; systemFirst := false |}).
  discriminate.
Defined.

(** ** Delimiters and the split of a line *)

Lemma Index_Contains s c :
  strings.Index s c = (-1)%Z ↔ strings.Contains s c = false.
Proof.
  induction s as [|x t IH]; simpl; [done|].
  destruct (Ascii.eqb x c); simpl; [done|].
  assert (-1 ≤ strings.Index t c)%Z as Hge.
  { clear. induction t as [|y t IH]; simpl; [lia|].
    destruct (Ascii.eqb y c); [lia|].
    destruct (Z.eqb_spec (strings.Index t c) (-1)); lia. }
  destruct (Z.eqb_spec (strings.Index t c) (-1)) as [Heq|Hne].
  - rewrite <- IH. tauto.
  - split; [lia|]. intros H. apply IH in H. lia.
Qed.

Lemma Cut_Contains s c :
  strings.Cut s c = None ↔ strings.Contains s c = false.
Proof.
  induction s as [|x t IH]; simpl; [done|].
  destruct (Ascii.eqb x c); simpl; [done|].
  destruct (strings.Cut t c) as [[a b]|]; [|tauto].
  split; [done|]. intros H. by apply IH in H.
Qed.

Lemma SplitN_2 s c :
  strings.SplitN s c 2 =
    match strings.Cut s c with Some (a, b) => [a; b] | None => [s] end.
Proof. simpl. by destruct (strings.Cut s c) as [[a b]|]. Qed.

(** The pieces that [parseLine] splits the stripped line into. *)
Lemma parseLine_split line envMap :
  if hasDelimiter (removeComments line) then
    ∃ rawKey rawValue,
      parseLine line envMap =
        (regexp.ReplaceAllString exportRegex rawKey 1,
         parseValue rawValue envMap, None)
  else parseLine line envMap = (EmptyString, EmptyString, Some FormatError).
Proof.
  unfold parseLine, hasDelimiter.
  set (l := removeComments line).
  rewrite !SplitN_2.
  destruct (strings.Contains l "=") eqn:Heq, (strings.Contains l ":") eqn:Hcol;
    simpl.
  - destruct (strings.Cut l "=") as [[a b]|] eqn:Ha;
      [|by apply Cut_Contains in Ha; congruence].
    destruct (strings.Cut l ":") as [[a' b']|] eqn:Ha';
      [|by apply Cut_Contains in Ha'; congruence].
    destruct (_ && _); eauto.
  - apply Index_Contains in Hcol. rewrite Hcol. simpl.
    destruct (strings.Cut l "=") as [[a b]|] eqn:Ha;
      [eauto|by apply Cut_Contains in Ha; congruence].
  - destruct (strings.Cut l ":") as [[a' b']|] eqn:Ha';
      [|by apply Cut_Contains in Ha'; congruence].
    apply Index_Contains in Heq. rewrite Heq.
    destruct (strings.Index l ":" =? -1)%Z eqn:Hi.
    + apply Z.eqb_eq, Index_Contains in Hi. congruence.
    + simpl. rewrite orb_true_r. eauto.
  - apply Index_Contains in Hcol. rewrite Hcol. simpl.
    apply Cut_Contains in Heq. by rewrite Heq.
Qed.

Lemma parseLine_error line envMap :
  (parseLine line envMap).2 =
    if hasDelimiter (removeComments line) then None else Some FormatError.
Proof.
  pose proof (parseLine_split line envMap) as H.
  destruct (hasDelimiter (removeComments line)).
  - by destruct H as (k & v & ->).
  - by rewrite H.
Qed.

Lemma parseLine_key line envMap : (parseLine line envMap).1.1 = lineKey line.
Proof.
  unfold lineKey, parseLine.
  by destruct (if _ : bool then _ else _) as [|? [|? [|? ?]]].
Qed.

(** ** The document parser *)

Lemma parseLines_app l1 l2 envMap :
  parseLines (l1 ++ l2) envMap =
    match parseLines l1 envMap with
    | (m, None) => parseLines l2 m
    | (m, Some err) => (m, Some err)
    end.
Proof.
  revert envMap. induction l1 as [|line l1 IH]; intros envMap; [done|].
  cbn [app parseLines].
  destruct (isIgnoredLine line); [apply IH|].
  destruct (parseLine line envMap) as [[k v] [err|]]; [done|apply IH].
Qed.

(** The outcome of the loop: no error and every line passes, or the error
    is the format error of the first line that does not pass, and the
    mapping is the one of the lines before it. *)
Lemma parseLines_outcome lines envMap :
  match parseLines lines envMap with
  | (m, None) => Forall passes lines
  | (m, Some err) =>
      err = FormatError ∧
      ∃ pre bad post,
        lines = pre ++ bad :: post ∧ Forall passes pre ∧
        isIgnoredLine bad = false ∧
        hasDelimiter (removeComments bad) = false ∧
        parseLines pre envMap = (m, None)
  end.
Proof.
  revert envMap. induction lines as [|line lines IH]; intros envMap.
  - cbn. constructor.
  - cbn [parseLines]. destruct (isIgnoredLine line) eqn:Hign.
    + specialize (IH envMap).
      destruct (parseLines lines envMap) as [m [err|]].
      * destruct IH as (-> & pre & bad & post & -> & Hpre & Hb1 & Hb2 & Hm).
        split; [done|]. exists (line :: pre), bad, post.
        repeat split; try done.
        -- constructor; [by left|done].
        -- cbn [parseLines]. by rewrite Hign.
      * constructor; [by left|done].
    + pose proof (parseLine_error line envMap) as Herr.
      destruct (parseLine line envMap) as [[k v] err] eqn:Hpl. cbn in Herr.
      destruct (hasDelimiter (removeComments line)) eqn:Hdel; subst err.
      * specialize (IH (<[k:=v]> envMap)).
        destruct (parseLines lines (<[k:=v]> envMap)) as [m [err|]].
        -- destruct IH as (-> & pre & bad & post & -> & Hpre & Hb1 & Hb2 & Hm).
           split; [done|]. exists (line :: pre), bad, post.
           repeat split; try done.
           ++ constructor; [by right|done].
           ++ cbn [parseLines]. by rewrite Hign, Hpl.
        -- constructor; [by right|done].
      * split; [done|]. exists [], line, lines. repeat split; try done.
Qed.

(** C7. The parser returns a format error exactly when some line that is
    not ignored has neither delimiter once its comment is stripped; it then
    stops at the first such line and returns the mapping built from the
    lines before it.  No other error comes out of a readable document. *)
Theorem format_error_iff_line_without_delimiter (lines : list string) :
  ((parse (document lines)).2 = Some FormatError ↔
     ∃ line, line ∈ lines ∧ isIgnoredLine line = false ∧
             hasDelimiter (removeComments line) = false) ∧
  (∀ err, (parse (document lines)).2 = Some err →
     err = FormatError ∧
     ∃ pre bad post,
       lines = pre ++ bad :: post ∧
       (∀ l, l ∈ pre → isIgnoredLine l = false →
             hasDelimiter (removeComments l) = true) ∧
       isIgnoredLine bad = false ∧
       hasDelimiter (removeComments bad) = false ∧
       parse (document pre) = ((parse (document lines)).1, None)).
Proof.
  unfold parse, document. cbn [scanErr scanLines].
  pose proof (parseLines_outcome lines ∅) as Hout.
  destruct (parseLines lines ∅) as [m [err|]]; cbn [fst snd].
  - destruct Hout as (-> & pre & bad & post & -> & Hpre & Hb1 & Hb2 & Hm).
    split.
    + split; [|done]. intros _. exists bad. split; [|done].
      apply elem_of_app. right. apply list_elem_of_here.
    + intros err [= <-]. split; [done|]. exists pre, bad, post.
      repeat split; try done.
      intros l Hl Hign. rewrite Forall_forall in Hpre.
      destruct (Hpre l Hl) as [H|H]; [congruence|done].
  - split; [|done]. split; [done|].
    intros (line & Hin & Hign & Hdel). rewrite Forall_forall in Hout.
    destruct (Hout line Hin); congruence.
Qed.

(** The malformed line of the specification, between two good lines. *)
Lemma format_error_iff_line_without_delimiter_witness :
  parse (document ["OPTION_D=4"; "lol$wut"; "OPTION_E=5"])
    = ({["OPTION_D" := "4"]}, Some FormatError) ∧
  ∃ pre bad post,
    ["OPTION_D=4"; "lol$wut"; "OPTION_E=5"] = pre ++ bad :: post ∧
    isIgnoredLine bad = false ∧
    hasDelimiter (removeComments bad) = false ∧
    parse (document pre) = ({["OPTION_D" := "4"]}, None).
Proof.
  assert (parse (document ["OPTION_D=4"; "lol$wut"; "OPTION_E=5"])
            = ({["OPTION_D" := "4"]}, Some FormatError)) as Hrun
    by (vm_compute; reflexivity).
  split; [exact Hrun|].
  destruct (proj2 (format_error_iff_line_without_delimiter
                     ["OPTION_D=4"; "lol$wut"; "OPTION_E=5"]) FormatError)
    as (_ & pre & bad & post & Hsplit & _ & Hign & Hdel & Hpre).
  - by rewrite Hrun.
  - exists pre, bad, post. rewrite Hrun in Hpre. done.
Defined.

(** ** Last write wins *)

Lemma parseLines_keeps post envMap m k v :
  parseLines post envMap = (m, None) →
  envMap !! k = Some v →
  (∀ l, l ∈ post → isIgnoredLine l = false → lineKey l ≠ k) →
  m !! k = Some v.
Proof.
  revert envMap.
  induction post as [|line post IH]; intros envMap Hrun Hk Hlater.
  - cbn in Hrun. by injection Hrun as <-.
  - cbn [parseLines] in Hrun.
    assert (∀ l, l ∈ post → isIgnoredLine l = false → lineKey l ≠ k)
      as Hpost.
    { intros l Hl. apply Hlater. by right. }
    destruct (isIgnoredLine line) eqn:Hign; [by eapply IH|].
    pose proof (parseLine_key line envMap) as Hkey.
    destruct (parseLine line envMap) as [[k' v'] [err|]]; [done|].
    cbn in Hkey. eapply IH; [done| |done].
    rewrite lookup_insert_ne; [done|].
    rewrite Hkey. apply Hlater; [by left|done].
Qed.

Lemma readFiles_app fs l1 l2 envMap :
  readFiles fs (l1 ++ l2) envMap =
    match readFiles fs l1 envMap with
    | (m, None) => readFiles fs l2 m
    | (m, Some err) => (m, Some err)
    end.
Proof.
  revert envMap. induction l1 as [|f l1 IH]; intros envMap; [done|].
  cbn [app readFiles].
  destruct (readFile fs f) as [ind [err|]]; [done|apply IH].
Qed.

Lemma readFiles_keeps fs post envMap m k v :
  readFiles fs post envMap = (m, None) →
  envMap !! k = Some v →
  (∀ g, g ∈ post → (readFile fs g).1 !! k = None) →
  m !! k = Some v.
Proof.
  revert envMap. induction post as [|f post IH]; intros envMap Hrun Hk Hlater.
  - cbn in Hrun. by injection Hrun as <-.
  - cbn [readFiles] in Hrun.
    pose proof (Hlater f (list_elem_of_here _ _)) as Hf.
    destruct (readFile fs f) as [ind [err|]]; [done|]. cbn in Hf.
    eapply IH; [done| |].
    + by rewrite copyInto_lookup, Hf.
    + intros g Hg. apply Hlater. by right.
Qed.

(** When the sources are read without error, a line of one of them assigns
    [v] to [k], no later line of that document assigns [k] and no later
    document defines [k], the merged mapping binds [k] to [v]. *)
Lemma read_last_assignment fs before filename after file
    linesBefore line linesAfter m k v :
  read fs (before ++ filename :: after) = (m, None) →
  fs filename = inr file →
  scanLines file = linesBefore ++ line :: linesAfter →
  isIgnoredLine line = false →
  parseLine line (parseLines linesBefore ∅).1 = (k, v, None) →
  (∀ l, l ∈ linesAfter → isIgnoredLine l = false → lineKey l ≠ k) →
  (∀ g, g ∈ after → (readFile fs g).1 !! k = None) →
  m !! k = Some v.
Proof.
  intros Hread Hfile Hlines Hign Hline Hlater Hafter.
  unfold read in Hread. rewrite readFiles_app in Hread.
  destruct (readFiles fs before ∅) as [m0 [err|]]; [done|].
  cbn [readFiles] in Hread.
  destruct (readFile fs filename) as [ind [err|]] eqn:Hind; [done|].
  eapply readFiles_keeps; [done| |done].
  rewrite copyInto_lookup.
  enough (ind !! k = Some v) as -> by done.
  unfold readFile in Hind. rewrite Hfile in Hind. unfold parse in Hind.
  destruct (scanErr file); [done|].
  rewrite Hlines, parseLines_app in Hind.
  destruct (parseLines linesBefore ∅) as [m1 [err|]]; [done|].
  cbn [parseLines fst] in Hind, Hline. rewrite Hign, Hline in Hind.
  eapply parseLines_keeps; [done| |done].
  apply lookup_insert_eq.
Qed.

(** The mapping that [read] returns is the one of the sources before the
    first one that fails. *)
Lemma read_merged_prefix fs merged rest :
  (read fs merged).2 = None →
  (∀ bad, head rest = Some bad → is_Some (readFile fs bad).2) →
  (read fs (merged ++ rest)).1 = (read fs merged).1.
Proof.
  intros Hok Hbad. unfold read in *. rewrite readFiles_app.
  destruct (readFiles fs merged ∅) as [m e]. cbn in Hok. subst e.
  destruct rest as [|bad rest]; [done|]. cbn [readFiles fst].
  destruct (Hbad bad eq_refl) as [err Herr].
  destruct (readFile fs bad) as [ind e]. cbn in Herr. by subst e.
Qed.

(** C10, as the code has it. Among the sources that are merged, those
    before the first source that fails, a key resolves to the last value
    assigned to it, in document order then line order: if these sources
    are read without error, a line of one of them assigns [v] to [k], no
    later line of that document assigns [k] and no later one of these
    documents defines [k], then the mapping that [read] returns binds [k]
    to [v], whether the sources end there or go on with one that fails. *)
Theorem last_assignment_wins fs before filename after rest file
    linesBefore line linesAfter k v :
  (read fs (before ++ filename :: after)).2 = None →
  (∀ bad, head rest = Some bad → is_Some (readFile fs bad).2) →
  fs filename = inr file →
  scanLines file = linesBefore ++ line :: linesAfter →
  isIgnoredLine line = false →
  parseLine line (parseLines linesBefore ∅).1 = (k, v, None) →
  (∀ l, l ∈ linesAfter → isIgnoredLine l = false → lineKey l ≠ k) →
  (∀ g, g ∈ after → (readFile fs g).1 !! k = None) →
  (read fs ((before ++ filename :: after) ++ rest)).1 !! k = Some v.
Proof.
  intros Hok Hbad Hfile Hlines Hign Hline Hlater Hafter.
  rewrite read_merged_prefix by done.
  destruct (read fs (before ++ filename :: after)) as [m e] eqn:Hread.
  cbn in Hok. subst e. cbn [fst].
  by eapply read_last_assignment.
Qed.

(** [OPTION_B] is set by [plain.env] and again by the first line of
    [local.env]; nothing after that line sets it among the sources before
    [invalid.env], which fails, and [plain.env] is not read again after
    it. *)
Lemma last_assignment_wins_witness :
  (readFile sampleFS "plain.env").1 !! "OPTION_B" = Some "2" ∧
  parseLine "OPTION_B=two" (parseLines [] ∅).1
    = ("OPTION_B", "two", None) ∧
  (read sampleFS
     ((["plain.env"] ++ "local.env" :: ["empty.env"])
        ++ ["invalid.env"; "plain.env"])).1 !! "OPTION_B"
    = Some "two".
Proof.
  split; [vm_compute; reflexivity|].
  split; [vm_compute; reflexivity|].
  apply (last_assignment_wins sampleFS ["plain.env"] "local.env" ["empty.env"]
           ["invalid.env"; "plain.env"]
           (document
              ["OPTION_B=two"; "# a comment"; "OPTION_C=3"; "OPTION_C=4"])
           [] "OPTION_B=two" ["# a comment"; "OPTION_C=3"; "OPTION_C=4"]
           "OPTION_B" "two").
  - vm_compute; reflexivity.
  - intros bad [= <-]. eexists. vm_compute. reflexivity.
  - reflexivity.
  - reflexivity.
  - vm_compute; reflexivity.
  - vm_compute; reflexivity.
  - intros l Hl Hign.
    repeat (apply elem_of_cons in Hl as [->|Hl]);
      [discriminate Hign | vm_compute; discriminate | vm_compute; discriminate
      | by apply elem_of_nil in Hl].
  - intros g Hg.
    repeat (apply elem_of_cons in Hg as [->|Hg]);
      [vm_compute; reflexivity | by apply elem_of_nil in Hg].
Defined.

(** C10 as stated fails: the second source assigns [K] last, on a line
    that is not ignored, and then fails on a later line; [read] returns
    before it merges that source, so the final mapping binds [K] to the
    value of the first source. *)
Lemma failed_source_loses_last_assignment :
  isIgnoredLine "K=2" = false ∧
  parseLine "K=2" ∅ = ("K", "2", None) ∧
  read collidingFS ["a.env"; "b.env"]
    = ({["K" := "1"]}, Some FormatError) ∧
  (read collidingFS ["a.env"; "b.env"]).1 !! "K" ≠ Some "2" ∧
  Get sampleSystem collidingFS [Variables ["K"]; From ["a.env"; "b.env"]]
    = Some ({["K" := "1"]}, []).
Proof.
  split; [vm_compute; reflexivity|].
  split; [vm_compute; reflexivity|].
  split; [vm_compute; reflexivity|].
  split; [vm_compute; discriminate|].
  vm_compute; reflexivity.
Qed.

(** ** Errors of the sources *)

(** [get] uses the mapping that [read] returns and nothing else of it. *)
Lemma get_depends_on_mapping sys fs fs' cfg :
  (read fs' (filenamesOrDefault (filenames cfg))).1
    = (read fs (filenamesOrDefault (filenames cfg))).1 →
  get sys fs' cfg = get sys fs cfg.
Proof.
  unfold get.
  destruct (read fs' _) as [m' e'], (read fs _) as [m e]. cbn.
  by intros ->.
Qed.

(** C1, as the code has it. When a configured source fails, [read] returns
    the error of the first failing source together with the mapping merged
    from the sources before it; [get] drops that error: its result is the
    one it computes from this mapping alone, the same as in any world where
    the sources yield this mapping. *)
Theorem read_error_stops_at_get sys fs cfg before filename after err :
  filenamesOrDefault (filenames cfg) = before ++ filename :: after →
  (read fs before).2 = None →
  (readFile fs filename).2 = Some err →
  read fs (filenamesOrDefault (filenames cfg))
    = ((read fs before).1, Some err) ∧
  ∀ fs',
    (read fs' (filenamesOrDefault (filenames cfg))).1 = (read fs before).1 →
    get sys fs' cfg = get sys fs cfg.
Proof.
  intros Hnames Hbefore Herr.
  assert (read fs (filenamesOrDefault (filenames cfg))
            = ((read fs before).1, Some err)) as Hread.
  { rewrite Hnames. unfold read in *. rewrite readFiles_app.
    destruct (readFiles fs before ∅) as [m0 e0]. cbn in Hbefore. subst e0.
    cbn [readFiles fst].
    destruct (readFile fs filename) as [ind e]. cbn in Herr. by subst e. }
  split; [done|].
  intros fs' Hsame. apply get_depends_on_mapping. by rewrite Hread.
Qed.

(** The second of three sources is malformed: the mapping is the one of the
    first source, and the lookup gives what it gives when the three sources
    are read without error and yield that mapping. *)
Lemma read_error_stops_at_get_witness :
  read sampleFS ["plain.env"; "invalid.env"; "local.env"]
    = ((read sampleFS ["plain.env"]).1, Some FormatError) ∧
  (read repairedFS ["plain.env"; "invalid.env"; "local.env"]).2 = None ∧
  get sampleSystem repairedFS
    {| variables := ["OPTION_B"; "OPTION_D"];
       filenames := ["plain.env"; "invalid.env"; "local.env"];
       systemFirst := false |}
  = get sampleSystem sampleFS
      {| variables := ["OPTION_B"; "OPTION_D"];
         filenames := ["plain.env"; "invalid.env"; "local.env"];
         systemFirst := false |}.
Proof.
  destruct (read_error_stops_at_get sampleSystem sampleFS
              {| variables := ["OPTION_B"; "OPTION_D"];
                 filenames := ["plain.env"; "invalid.env"; "local.env"];
                 systemFirst := false |}
              ["plain.env"] "invalid.env" ["local.env"] FormatError)
    as [Hread Hget].
  - reflexivity.
  - vm_compute; reflexivity.
  - vm_compute; reflexivity.
  - split; [exact Hread|].
    split; [vm_compute; reflexivity|].
    apply Hget. vm_compute; reflexivity.
Defined.

(** C1 as stated fails: with an unreadable second source [Get] returns
    exactly what it returns without that source, so no part of its result
    carries the error. *)
Lemma Get_discards_read_error :
  (read sampleFS ["plain.env"; "fixtures/"]).2
    = Some (ReadError "is a directory") ∧
  (read sampleFS ["plain.env"]).2 = None ∧
  Get sampleSystem sampleFS
    [Variables ["OPTION_B"]; From ["plain.env"; "fixtures/"]]
  = Get sampleSystem sampleFS [Variables ["OPTION_B"]; From ["plain.env"]] ∧
  Get sampleSystem sampleFS
    [Variables ["OPTION_B"]; From ["plain.env"; "fixtures/"]]
  = Some ({["OPTION_B" := "2"]}, []) ∧
  ¬ ∃ errorOf : option (gmap string string * list string) → option error,
      ∀ filePaths,
        errorOf (Get sampleSystem sampleFS
                   [Variables ["OPTION_B"]; From filePaths])
        = (read sampleFS (filenamesOrDefault filePaths)).2.
Proof.
  assert (Get sampleSystem sampleFS
            [Variables ["OPTION_B"]; From ["plain.env"; "fixtures/"]]
          = Get sampleSystem sampleFS
              [Variables ["OPTION_B"]; From ["plain.env"]]) as Hsame
    by (vm_compute; reflexivity).
  split; [vm_compute; reflexivity|].
  split; [vm_compute; reflexivity|].
  split; [exact Hsame|].
  split; [vm_compute; reflexivity|].
  intros [errorOf Herr].
  pose proof (Herr ["plain.env"; "fixtures/"]) as H1.
  pose proof (Herr ["plain.env"]) as H2.
  rewrite Hsame, H2 in H1. vm_compute in H1. discriminate H1.
Qed.

(** ** The interpolator *)

Lemma expandVarRegex_group2 s submatch :
  regexp.matchAt expandVarRegex s = Some submatch →
  regexp.group submatch 2 = str1 dollar.
Proof.
  assert (∀ g1 t, expandVarTail g1 t = Some submatch →
                  regexp.group submatch 2 = str1 dollar) as Htail.
  { intros g1 t. unfold expandVarTail.
    destruct (optByte "(" t) as [g3 t1], (optByte "{" t1) as [ob t2],
      (spanIdent t2) as [g4 t3], (optByte "}" t3) as [cb t4].
    by intros [= <-]. }
  rewrite expandVarRegex_matchAt. unfold expandVarMatch.
  destruct s as [|c t]; [done|].
  destruct (Ascii.eqb c bslash).
  - destruct t as [|d t']; [done|]. destruct (Ascii.eqb d dollar); [|done].
    apply Htail.
  - destruct (Ascii.eqb c dollar); [|done]. apply Htail.
Qed.

(** C2, what the code does. The test for the parenthesis reads the group
    of the dollar sign, which is never a parenthesis, so the parenthesised
    form is expanded like the plain one and only its closing parenthesis is
    left: [$(FOO)] becomes the value of [FOO] followed by [)]. *)
Theorem paren_form_is_expanded :
  (∀ s submatch,
     regexp.matchAt expandVarRegex s = Some submatch →
     regexp.group submatch 2 ≠ "(") ∧
  (∀ m : gmap string string,
     expandVariables "$(FOO)" m = (m !!! "FOO") +:+ ")") ∧
  expandVariables "$(FOO)" {["FOO" := "test"]} = "test)".
Proof.
  split; [|split].
  - intros s submatch H. by rewrite (expandVarRegex_group2 _ _ H).
  - intros m. reflexivity.
  - vm_compute; reflexivity.
Qed.

(** ** The value decoder *)

Lemma quotedBy_wrap q inner :
  strings.Contains inner newline = false →
  quotedBy q (String q (inner +:+ str1 q))
    = Some [String q (inner +:+ str1 q); inner].
Proof.
  intros Hnl. unfold quotedBy.
  rewrite Ascii.eqb_refl, lastByte_app, bool_decide_eq_true_2 by done.
  rewrite length_app_s. cbn [String.length str1].
  replace (String.length inner + 1 - 1) with (String.length inner) by lia.
  by rewrite take_bytes_app, Hnl.
Qed.

Lemma quotedBy_other q c t : c ≠ q → quotedBy q (String c t) = None.
Proof. intros Hne. unfold quotedBy. by rewrite (proj2 (Ascii.eqb_neq c q)). Qed.

Lemma lastByte_split t x :
  lastByte t = Some x → t = take_bytes (String.length t - 1) t +:+ str1 x.
Proof.
  induction t as [|c t IH]; [done|]. destruct t as [|d t].
  - cbn. by intros [= ->].
  - intros H. specialize (IH H).
    cbn [String.length] in *.
    replace (S (S (String.length t)) - 1) with (S (String.length t)) by lia.
    replace (S (String.length t) - 1) with (String.length t) in IH by lia.
    cbn [take_bytes]. rewrite app_cons. f_equal.
    destruct (String.length t); exact IH.
Qed.

Lemma quotedBy_inv q s submatch :
  quotedBy q s = Some submatch →
  ∃ inner,
    submatch = [s; inner] ∧ s = String q (inner +:+ str1 q) ∧
    strings.Contains inner newline = false.
Proof.
  unfold quotedBy. destruct s as [|c t]; [done|].
  destruct (Ascii.eqb_spec c q) as [->|]; [|done]. cbn [andb].
  case_bool_decide as Hlast; [|done]. cbn [andb].
  destruct (strings.Contains _ newline) eqn:Hnl; [done|].
  intros [= <-]. eexists. split; [done|]. split; [|done].
  f_equal. by apply lastByte_split.
Qed.

(** The decoder on an anchored single-quoted wrap. *)
Lemma parseValue_single_quoted raw inner (m : gmap string string) :
  strings.Trim raw " " = String squote (inner +:+ str1 squote) →
  strings.Contains inner newline = false →
  parseValue raw m = inner.
Proof.
  intros Htrim Hnl. unfold parseValue. rewrite Htrim.
  assert (String.length (String squote (inner +:+ str1 squote))
            = S (S (String.length inner))) as Hlen.
  { cbn [String.length]. rewrite length_app_s. cbn. lia. }
  rewrite Hlen. cbn [Nat.ltb Nat.leb].
  rewrite singleQuotesRegex_find, doubleQuotesRegex_find.
  rewrite (quotedBy_wrap squote inner Hnl), quotedBy_other by done.
  cbn [notNil orb].
  unfold slice. cbn [drop_bytes].
  replace (S (S (String.length inner)) - 1 - 1) with (String.length inner)
    by lia.
  apply take_bytes_app.
Qed.

(** C4. A value that [singleQuotesRegex] matches, an anchored wrap in
    single quotes, decodes to the text between the quotes, whatever the
    mapping: no escape is decoded and no reference is expanded.  Every wrap
    without a newline between the quotes is such a match (the dot of the
    pattern excludes the newline, which a line of a document never
    holds). *)
Theorem single_quoted_value_is_literal
    (raw : string) (submatch : list string) (m : gmap string string) :
  regexp.FindStringSubmatch singleQuotesRegex (strings.Trim raw " ")
    = Some submatch →
  parseValue raw m = regexp.group submatch 1 ∧
  strings.Trim raw " "
    = String squote (regexp.group submatch 1 +:+ str1 squote) ∧
  (∀ inner,
     strings.Contains inner newline = false →
     regexp.FindStringSubmatch singleQuotesRegex
       (String squote (inner +:+ str1 squote))
     = Some [String squote (inner +:+ str1 squote); inner]) ∧
  parseLine "BAR='quote $FOO'" m = ("BAR", "quote $FOO", None).
Proof.
  intros Hmatch. rewrite singleQuotesRegex_find in Hmatch.
  apply quotedBy_inv in Hmatch as (inner & -> & Htrim & Hnl).
  cbn [regexp.group nth].
  split; [by apply parseValue_single_quoted|].
  split; [done|]. split; [|reflexivity].
  intros inner' Hnl'. rewrite singleQuotesRegex_find. by apply quotedBy_wrap.
Qed.

(** A single-quoted value with an escape, a reference and an escaped
    reference in it, under a mapping that defines the variable. *)
Lemma single_quoted_value_is_literal_witness :
  regexp.FindStringSubmatch singleQuotesRegex
    (strings.Trim " 'a\nb $FOO\$BAR' " " ")
    = Some ["'a\nb $FOO\$BAR'"; "a\nb $FOO\$BAR"] ∧
  parseValue " 'a\nb $FOO\$BAR' " {["FOO" := "x"]} = "a\nb $FOO\$BAR" ∧
  parseLine "BAR='quote $FOO'" {["FOO" := "x"]} = ("BAR", "quote $FOO", None).
Proof.
  split; [reflexivity|].
  destruct (single_quoted_value_is_literal " 'a\nb $FOO\$BAR' "
              ["'a\nb $FOO\$BAR'"; "a\nb $FOO\$BAR"] {["FOO" := "x"]})
    as (Hvalue & _ & _ & Hline); [reflexivity|].
  split; [exact Hvalue|exact Hline].
Defined.

(** ** Replacing the matches of a pattern *)

Lemma replaceFrom_skip m r n s :
  regexp.replaceFrom m r n s = regexp.replaceFrom m r 0 (drop_bytes n s).
Proof.
  revert n. induction s as [|c t IH]; intros [|k]; try reflexivity.
  cbn [regexp.replaceFrom drop_bytes]. apply IH.
Qed.

(** A run of bytes none of which can start a match is copied. *)
Lemma replaceFrom_copy m r s rest :
  (∀ c t, strings.Contains s c = true → m (String c t) = None) →
  regexp.replaceFrom m r 0 (s +:+ rest) = s +:+ regexp.replaceFrom m r 0 rest.
Proof.
  induction s as [|x s IH]; intros Hno; [done|].
  rewrite !app_cons. cbn [regexp.replaceFrom].
  rewrite Hno.
  - f_equal. apply IH. intros c t Hc. apply Hno. cbn. rewrite Hc.
    by rewrite orb_true_r.
  - cbn. by rewrite Ascii.eqb_refl.
Qed.

Lemma replaceFrom_copy_all m r s :
  (∀ c t, strings.Contains s c = true → m (String c t) = None) →
  regexp.replaceFrom m r 0 s = s.
Proof.
  intros Hno. rewrite <- (app_empty_r s) at 1.
  rewrite replaceFrom_copy by done. apply app_empty_r.
Qed.

(** ** The pattern of the interpolator *)

Lemma identByte_plain c :
  identByte c = true →
  c ≠ bslash ∧ c ≠ dollar ∧ c ≠ "("%char ∧ c ≠ "{"%char
  ∧ c ≠ "}"%char ∧ c ≠ newline.
Proof. destruct c as [[] [] [] [] [] [] [] []]; cbn; intros; done. Qed.

Lemma optByte_miss c x t :
  x ≠ c → optByte c (String x t) = (EmptyString, String x t).
Proof. intros Hne. cbn. by rewrite (proj2 (Ascii.eqb_neq x c)). Qed.

Lemma optByte_hit c t : optByte c (String c t) = (str1 c, t).
Proof. cbn. by rewrite Ascii.eqb_refl. Qed.

Lemma spanIdent_run name rest :
  allBytes identByte name = true →
  headSatisfies identByte rest = false →
  spanIdent (name +:+ rest) = (name, rest).
Proof.
  intros Hname Hrest. induction name as [|x name IH].
  - rewrite app_empty_l. destruct rest as [|y rest]; [done|].
    cbn in *. by rewrite Hrest.
  - cbn in Hname. apply andb_true_iff in Hname as [Hx Hname].
    rewrite app_cons. cbn. by rewrite Hx, IH.
Qed.

(** The submatches of the four forms of a reference. *)
Lemma expandVarTail_plain g1 name rest :
  identifier name →
  headSatisfies (λ c, identByte c || Ascii.eqb c "}") rest = false →
  expandVarTail g1 (name +:+ rest)
    = Some [g1 +:+ String dollar name; g1; str1 dollar; EmptyString; name].
Proof.
  intros [Hne Hname] Hrest. unfold expandVarTail.
  destruct name as [|x name]; [done|].
  pose proof Hname as Hx. cbn in Hx. apply andb_true_iff in Hx as [Hx _].
  apply identByte_plain in Hx as (_ & _ & Hp & Hb & _).
  rewrite app_cons, !optByte_miss by done.
  rewrite <- app_cons, spanIdent_run.
  - destruct rest as [|y rest].
    { cbn [optByte]. by rewrite !app_empty_l, !app_empty_r. }
    cbn [headSatisfies] in Hrest. apply orb_false_iff in Hrest as [_ Hy].
    apply Ascii.eqb_neq in Hy. rewrite optByte_miss by done.
    by rewrite !app_empty_l, app_empty_r.
  - done.
  - destruct rest as [|y rest]; [done|]. cbn [headSatisfies] in *.
    by apply orb_false_iff in Hrest as [Hrest _].
Qed.

Lemma expandVarTail_braced g1 name rest :
  identifier name →
  expandVarTail g1 (String "{" (name +:+ String "}" rest))
    = Some [g1 +:+ String dollar (String "{" (name +:+ "}")); g1; str1 dollar;
            EmptyString; name].
Proof.
  intros [Hne Hname]. unfold expandVarTail.
  rewrite optByte_miss by done. rewrite optByte_hit.
  rewrite spanIdent_run, optByte_hit by done.
  by rewrite app_empty_l.
Qed.

(** A closing brace after a plain reference belongs to the match. *)
Lemma expandVarTail_closed g1 name rest :
  identifier name →
  expandVarTail g1 (name +:+ String "}" rest)
    = Some [g1 +:+ String dollar (name +:+ "}"); g1; str1 dollar;
            EmptyString; name].
Proof.
  intros [Hne Hname]. unfold expandVarTail.
  destruct name as [|x name]; [done|].
  pose proof Hname as Hx. cbn in Hx. apply andb_true_iff in Hx as [Hx _].
  apply identByte_plain in Hx as (_ & _ & Hp & Hb & _).
  rewrite app_cons, !optByte_miss by done.
  rewrite <- app_cons, spanIdent_run, optByte_hit by done.
  by rewrite !app_empty_l.
Qed.

(** A match is a prefix of the text, it is not empty and it has five
    submatches: the indexes and the slice of [expandVariable] are in
    range. *)
Lemma expandVarTail_prefix g1 t submatch :
  expandVarTail g1 t = Some submatch →
  length submatch = 5 ∧
  ∃ rest, g1 +:+ String dollar t = regexp.group submatch 0 +:+ rest.
Proof.
  unfold expandVarTail.
  destruct (optByte "(" t) as [g3 t1] eqn:H1.
  destruct (optByte "{" t1) as [ob t2] eqn:H2.
  destruct (spanIdent t2) as [g4 t3] eqn:H3.
  destruct (optByte "}" t3) as [cb t4] eqn:H4.
  intros [= <-]. split; [done|]. exists t4. cbn [regexp.group nth].
  apply optByte_split in H1, H2, H4. apply spanIdent_split in H3.
  subst t t1 t2 t3.
  by rewrite !app_assoc_s, !app_cons, !app_assoc_s.
Qed.

Lemma expandVarRegex_prefix p submatch :
  regexp.matchAt expandVarRegex p = Some submatch →
  length submatch = 5 ∧ regexp.group submatch 0 ≠ EmptyString ∧
  ∃ rest, p = regexp.group submatch 0 +:+ rest.
Proof.
  rewrite expandVarRegex_matchAt. unfold expandVarMatch.
  destruct p as [|c t]; [done|].
  destruct (Ascii.eqb_spec c bslash) as [->|_].
  - destruct t as [|d t']; [done|].
    destruct (Ascii.eqb_spec d dollar) as [->|_]; [|done].
    intros H. pose proof H as Hne. apply expandVarTail_prefix in H as [Hlen H].
    split; [done|]. split; [|exact H].
    unfold expandVarTail in Hne.
    destruct (optByte "(" t') as [g3 t1], (optByte "{" t1) as [ob t2],
      (spanIdent t2) as [g4 t3], (optByte "}" t3) as [cb t4].
    by injection Hne as <-.
  - destruct (Ascii.eqb_spec c dollar) as [->|_]; [|done].
    intros H. pose proof H as Hne. apply expandVarTail_prefix in H as [Hlen H].
    split; [done|]. split; [|exact H].
    unfold expandVarTail in Hne.
    destruct (optByte "(" t) as [g3 t1], (optByte "{" t1) as [ob t2],
      (spanIdent t2) as [g4 t3], (optByte "}" t3) as [cb t4].
    by injection Hne as <-.
Qed.

(** A dollar sign that follows ends every match that began before it,
    unless a backslash stands right before it. *)
Lemma optByte_before_dollar c t s' :
  c ≠ dollar →
  optByte c (t +:+ String dollar s') =
    let '(g, t') := optByte c t in (g, t' +:+ String dollar s').
Proof.
  intros Hne. destruct t as [|x t].
  - rewrite app_empty_l. by rewrite optByte_miss.
  - rewrite app_cons. cbn. by destruct (Ascii.eqb x c).
Qed.

Lemma spanIdent_before_dollar t s' :
  spanIdent (t +:+ String dollar s') =
    let '(a, b) := spanIdent t in (a, b +:+ String dollar s').
Proof.
  induction t as [|x t IH]; [done|].
  rewrite app_cons. cbn. destruct (identByte x); [|done].
  rewrite IH. by destruct (spanIdent t).
Qed.

Lemma expandVarTail_before_dollar g1 t s' :
  expandVarTail g1 (t +:+ String dollar s') = expandVarTail g1 t.
Proof.
  unfold expandVarTail.
  rewrite optByte_before_dollar by done.
  destruct (optByte "(" t) as [g3 t1].
  rewrite optByte_before_dollar by done.
  destruct (optByte "{" t1) as [ob t2].
  rewrite spanIdent_before_dollar.
  destruct (spanIdent t2) as [g4 t3].
  rewrite optByte_before_dollar by done.
  by destruct (optByte "}" t3) as [cb t4].
Qed.

Lemma expandVarRegex_before_dollar p s' :
  p ≠ EmptyString → lastByte p ≠ Some bslash →
  regexp.matchAt expandVarRegex (p +:+ String dollar s')
    = regexp.matchAt expandVarRegex p.
Proof.
  intros Hne Hlast. rewrite !expandVarRegex_matchAt.
  destruct p as [|c t]; [done|].
  rewrite app_cons. unfold expandVarMatch.
  destruct (Ascii.eqb_spec c bslash) as [->|_].
  - destruct t as [|d t']; [done|]. rewrite app_cons.
    destruct (Ascii.eqb d dollar); [|done].
    apply expandVarTail_before_dollar.
  - destruct (Ascii.eqb c dollar); [|done].
    apply expandVarTail_before_dollar.
Qed.

Lemma lastByte_tail c t :
  lastByte (String c t) ≠ Some bslash → lastByte t ≠ Some bslash.
Proof. destruct t; [done|]. done. Qed.

Lemma replaceFrom_before_dollar r n p s' :
  n ≤ String.length p → lastByte p ≠ Some bslash →
  regexp.replaceFrom (regexp.matchAt expandVarRegex) r n
    (p +:+ String dollar s')
  = regexp.replaceFrom (regexp.matchAt expandVarRegex) r n p
    +:+ regexp.replaceFrom (regexp.matchAt expandVarRegex) r 0
          (String dollar s').
Proof.
  revert n. induction p as [|c t IH]; intros n Hn Hlast.
  - cbn in Hn. by replace n with 0 by lia.
  - rewrite app_cons. destruct n as [|k].
    + cbn [regexp.replaceFrom].
      rewrite <- app_cons, expandVarRegex_before_dollar by done.
      destruct (regexp.matchAt expandVarRegex (String c t))
        as [submatch|] eqn:Hm.
      * apply expandVarRegex_prefix in Hm as (_ & Hne & rest & Hp).
        rewrite IH, app_assoc_s; [done| |by eapply lastByte_tail].
        apply (f_equal String.length) in Hp.
        rewrite length_app_s in Hp. cbn in Hp. lia.
      * rewrite IH, app_cons; [done|lia|by eapply lastByte_tail].
    + cbn [regexp.replaceFrom]. apply IH; [cbn in Hn; lia|].
      by eapply lastByte_tail.
Qed.

Lemma expandVariables_before_dollar pre s' m :
  lastByte pre ≠ Some bslash →
  expandVariables (pre +:+ String dollar s') m
    = expandVariables pre m +:+ expandVariables (String dollar s') m.
Proof.
  intros Hlast. unfold expandVariables, regexp.ReplaceAllStringFunc,
    regexp.replaceAll. cbn [regexp.anchored expandVarRegex].
  apply replaceFrom_before_dollar; [lia|done].
Qed.

(** What the replacement function makes of the forms of a reference. *)
Lemma expandVariable_plain m name :
  identifier name → expandVariable m (String dollar name) = m !!! name.
Proof.
  intros Hname. unfold expandVariable.
  rewrite (expandVarRegex_find _
             [String dollar name; EmptyString; str1 dollar; EmptyString; name]).
  - cbn [regexp.group nth]. destruct Hname as [Hne _].
    by rewrite !bool_decide_eq_false_2.
  - rewrite expandVarRegex_dollar. rewrite <- (app_empty_r name) at 1.
    by rewrite (expandVarTail_plain EmptyString name EmptyString).
Qed.

Lemma expandVariable_braced m name :
  identifier name →
  expandVariable m (String dollar (String "{" (name +:+ "}"))) = m !!! name.
Proof.
  intros Hname. unfold expandVariable.
  rewrite (expandVarRegex_find _
             [String dollar (String "{" (name +:+ "}")); EmptyString;
              str1 dollar; EmptyString; name]).
  - cbn [regexp.group nth]. destruct Hname as [Hne _].
    by rewrite !bool_decide_eq_false_2.
  - rewrite expandVarRegex_dollar.
    by rewrite (expandVarTail_braced EmptyString name EmptyString).
Qed.

Lemma expandVariable_closed m name :
  identifier name →
  expandVariable m (String dollar (name +:+ "}")) = m !!! name.
Proof.
  intros Hname. unfold expandVariable.
  rewrite (expandVarRegex_find _
             [String dollar (name +:+ "}"); EmptyString; str1 dollar;
              EmptyString; name]).
  - cbn [regexp.group nth]. destruct Hname as [Hne _].
    by rewrite !bool_decide_eq_false_2.
  - rewrite expandVarRegex_dollar.
    by rewrite (expandVarTail_closed EmptyString name EmptyString).
Qed.

Lemma expandVariable_escaped m name :
  identifier name →
  expandVariable m (String bslash (String dollar name)) = String dollar name.
Proof.
  intros Hname. unfold expandVariable.
  rewrite (expandVarRegex_find _
             [String bslash (String dollar name); str1 bslash; str1 dollar;
              EmptyString; name]).
  - cbn [regexp.group nth]. by rewrite bool_decide_eq_true_2.
  - rewrite expandVarRegex_escaped. rewrite <- (app_empty_r name) at 1.
    by rewrite (expandVarTail_plain (str1 bslash) name EmptyString).
Qed.

Lemma expandVariables_unfold str m :
  expandVariables str m =
    regexp.replaceFrom (regexp.matchAt expandVarRegex)
      (λ submatch, expandVariable m (regexp.group submatch 0)) 0 str.
Proof. reflexivity. Qed.

(** One step of the replacement at a match. *)
Lemma replaceFrom_match m r s submatch rest :
  m s = Some submatch →
  s = regexp.group submatch 0 +:+ rest →
  regexp.group submatch 0 ≠ EmptyString →
  regexp.replaceFrom m r 0 s = r submatch +:+ regexp.replaceFrom m r 0 rest.
Proof.
  intros Hm Hs Hne.
  destruct (regexp.group submatch 0) as [|c w] eqn:Hw; [done|].
  rewrite app_cons in Hs. rewrite Hs in *.
  cbn [regexp.replaceFrom]. rewrite Hm, Hw. f_equal.
  rewrite replaceFrom_skip. cbn [String.length].
  replace (S (String.length w) - 1) with (String.length w) by lia.
  by rewrite drop_bytes_app.
Qed.

(** A reference at the head of the text is replaced by the value that the
    mapping gives for its identifier. *)
Lemma expandVariables_plain m name rest :
  identifier name →
  headSatisfies (λ c, identByte c || Ascii.eqb c "}") rest = false →
  expandVariables (String dollar (name +:+ rest)) m
    = (m !!! name) +:+ expandVariables rest m.
Proof.
  intros Hname Hrest. rewrite !expandVariables_unfold.
  rewrite (replaceFrom_match _ _ _
             [String dollar name; EmptyString; str1 dollar; EmptyString; name]
             rest).
  - cbn [regexp.group nth]. by rewrite expandVariable_plain.
  - rewrite expandVarRegex_dollar.
    by rewrite (expandVarTail_plain EmptyString name rest).
  - done.
  - done.
Qed.

Lemma expandVariables_braced m name rest :
  identifier name →
  expandVariables (String dollar (String "{" (name +:+ String "}" rest))) m
    = (m !!! name) +:+ expandVariables rest m.
Proof.
  intros Hname. rewrite !expandVariables_unfold.
  rewrite (replaceFrom_match _ _ _
             [String dollar (String "{" (name +:+ "}")); EmptyString;
              str1 dollar; EmptyString; name]
             rest).
  - cbn [regexp.group nth]. by rewrite expandVariable_braced.
  - rewrite expandVarRegex_dollar.
    by rewrite (expandVarTail_braced EmptyString name rest).
  - cbn [regexp.group nth]. by rewrite !app_cons, app_assoc_s.
  - done.
Qed.

Lemma expandVariables_closed m name rest :
  identifier name →
  expandVariables (String dollar (name +:+ String "}" rest)) m
    = (m !!! name) +:+ expandVariables rest m.
Proof.
  intros Hname. rewrite !expandVariables_unfold.
  rewrite (replaceFrom_match _ _ _
             [String dollar (name +:+ "}"); EmptyString; str1 dollar;
              EmptyString; name]
             rest).
  - cbn [regexp.group nth]. by rewrite expandVariable_closed.
  - rewrite expandVarRegex_dollar.
    by rewrite (expandVarTail_closed EmptyString name rest).
  - cbn [regexp.group nth]. by rewrite !app_cons, app_assoc_s.
  - done.
Qed.

(** C6. A reference, plain or braced, to an identifier that the mapping
    does not hold expands to the empty string, wherever it stands in the
    text (a backslash right before it makes it a literal; a plain
    reference ends where the identifier bytes end, and takes a closing
    brace that follows it).  Interpolation has no failure path: the lookup
    of a missing key gives the empty string, and every match has the five
    submatches and the first byte that the replacement function reads. *)
Theorem unknown_reference_expands_to_empty
    (m : gmap string string) (name pre post : string) :
  identifier name →
  m !! name = None →
  lastByte pre ≠ Some bslash →
  expandVariables (pre +:+ "${" +:+ name +:+ "}" +:+ post) m
    = expandVariables pre m +:+ expandVariables post m ∧
  (headSatisfies (λ c, identByte c || Ascii.eqb c "}") post = false →
   expandVariables (pre +:+ "$" +:+ name +:+ post) m
     = expandVariables pre m +:+ expandVariables post m) ∧
  expandVariables (pre +:+ "$" +:+ name +:+ "}" +:+ post) m
    = expandVariables pre m +:+ expandVariables post m ∧
  (∀ s submatch,
     regexp.matchAt expandVarRegex s = Some submatch →
     length submatch = 5 ∧ regexp.group submatch 0 ≠ EmptyString).
Proof.
  intros Hname Hm Hpre.
  assert (m !!! name = EmptyString) as Hval
    by by rewrite lookup_total_alt, Hm.
  split; [|split; [|split]].
  - change ("${" +:+ name +:+ "}" +:+ post)
      with (String dollar (String "{" (name +:+ String "}" post))).
    rewrite expandVariables_before_dollar by done.
    by rewrite expandVariables_braced, Hval.
  - intros Hpost.
    change ("$" +:+ name +:+ post) with (String dollar (name +:+ post)).
    rewrite expandVariables_before_dollar by done.
    by rewrite expandVariables_plain, Hval.
  - change ("$" +:+ name +:+ "}" +:+ post)
      with (String dollar (name +:+ String "}" post)).
    rewrite expandVariables_before_dollar by done.
    by rewrite expandVariables_closed, Hval.
  - intros s submatch H.
    by apply expandVarRegex_prefix in H as (? & ? & _).
Qed.

Lemma unknown_reference_expands_to_empty_witness :
  identifier "BAR" ∧
  ({["FOO" := "test"]} : gmap string string) !! "BAR" = None ∧
  lastByte "a=" ≠ Some bslash ∧
  expandVariables "a=${BAR}, b=$FOO" {["FOO" := "test"]} = "a=, b=test" ∧
  expandVariables "a=$BAR, b=$FOO" {["FOO" := "test"]} = "a=, b=test".
Proof.
  assert (identifier "BAR") as Hname by (split; [discriminate|reflexivity]).
  split; [exact Hname|]. split; [reflexivity|]. split; [discriminate|].
  destruct (unknown_reference_expands_to_empty {["FOO" := "test"]}
              "BAR" "a=" ", b=$FOO" Hname)
    as (Hbraced & Hplain & _ & _); [reflexivity|discriminate|].
  split; [exact Hbraced|]. apply Hplain. reflexivity.
Defined.

(** ** Escapes in a double-quoted value *)

Lemma plainByte_spec c :
  plainByte c = true → c ≠ bslash ∧ c ≠ dollar ∧ c ≠ newline.
Proof.
  unfold plainByte. rewrite !andb_true_iff, !negb_true_iff.
  intros [[H1 H2] H3]. by apply Ascii.eqb_neq in H1, H2, H3.
Qed.

Lemma TrimRight_last s c x :
  lastByte s = Some x → x ≠ c → strings.TrimRight s c = s.
Proof.
  intros Hlast Hne. induction s as [|y t IH]; [done|].
  cbn [strings.TrimRight]. destruct t as [|z t].
  - cbn in *. injection Hlast as ->.
    by rewrite (proj2 (Ascii.eqb_neq x c)).
  - rewrite IH by done. done.
Qed.

Lemma Trim_quoted q inner :
  q ≠ " "%char →
  strings.Trim (String q (inner +:+ str1 q)) " " = String q (inner +:+ str1 q).
Proof.
  intros Hq. unfold strings.Trim.
  rewrite (TrimLeft_head _ _ q (inner +:+ str1 q)) by done.
  apply (TrimRight_last _ _ q); [|done].
  rewrite <- app_cons. apply lastByte_app.
Qed.

(** No pattern matches at a byte that is not its first byte. *)
Lemma escapeRegex_head c t :
  c ≠ bslash → regexp.matchAt escapeRegex (String c t) = None.
Proof.
  intros Hc. rewrite escapeRegex_matchAt. cbn. destruct t; [done|].
  by rewrite (proj2 (Ascii.eqb_neq c bslash)).
Qed.

Lemma unescapeCharsRegex_head c t :
  c ≠ bslash → regexp.matchAt unescapeCharsRegex (String c t) = None.
Proof.
  intros Hc. rewrite unescapeCharsRegex_matchAt. cbn. destruct t; [done|].
  by rewrite (proj2 (Ascii.eqb_neq c bslash)).
Qed.

Lemma expandVarRegex_head c t :
  c ≠ bslash → c ≠ dollar →
  regexp.matchAt expandVarRegex (String c t) = None.
Proof.
  intros Hb Hd. rewrite expandVarRegex_matchAt. unfold expandVarMatch.
  by rewrite (proj2 (Ascii.eqb_neq c bslash)), (proj2 (Ascii.eqb_neq c dollar)).
Qed.

Lemma identifier_bytes name c :
  allBytes identByte name = true → strings.Contains name c = true →
  c ≠ bslash ∧ c ≠ dollar ∧ c ≠ newline.
Proof.
  intros Hall Hc. pose proof (Contains_true_allBytes _ _ _ Hall Hc) as H.
  apply identByte_plain in H. tauto.
Qed.

Lemma replaceFrom_miss m r c t :
  m (String c t) = None →
  regexp.replaceFrom m r 0 (String c t) = String c (regexp.replaceFrom m r 0 t).
Proof. intros Hm. cbn [regexp.replaceFrom]. by rewrite Hm. Qed.

(** The three passes of the decoder on a text of plain bytes followed by
    an escaped reference. *)
Section escaped.
Context (m : gmap string string) (pre name : string).
Context (Hpre : allBytes plainByte pre = true) (Hname : identifier name).

Lemma pass_newlines :
  regexp.ReplaceAllStringFunc escapeRegex
    (pre +:+ String bslash (String dollar name)) expandNewline
  = pre +:+ String bslash (String dollar name).
Proof.
  change (regexp.ReplaceAllStringFunc escapeRegex ?src expandNewline)
    with (regexp.replaceFrom (regexp.matchAt escapeRegex)
            (λ submatch, expandNewline (regexp.group submatch 0)) 0 src).
  rewrite replaceFrom_copy.
  - f_equal.
    rewrite (replaceFrom_match _ _ _ [String bslash (str1 dollar)] name);
      [|reflexivity|reflexivity|done].
    cbn [regexp.group nth].
    rewrite replaceFrom_copy_all; [reflexivity|].
    intros c t Hc. apply escapeRegex_head.
    destruct Hname as [_ Hn]. by destruct (identifier_bytes name c Hn Hc).
  - intros c t Hc. apply escapeRegex_head.
    by destruct (plainByte_spec c (Contains_true_allBytes _ _ _ Hpre Hc)).
Qed.

Lemma pass_unescape :
  regexp.ReplaceAllString unescapeCharsRegex
    (pre +:+ String bslash (String dollar name)) 1
  = pre +:+ String bslash (String dollar name).
Proof.
  change (regexp.ReplaceAllString unescapeCharsRegex ?src 1)
    with (regexp.replaceFrom (regexp.matchAt unescapeCharsRegex)
            (λ submatch, regexp.group submatch 1) 0 src).
  rewrite replaceFrom_copy.
  - f_equal. rewrite replaceFrom_miss by reflexivity. f_equal.
    rewrite replaceFrom_copy_all; [reflexivity|].
    intros c t Hc. apply unescapeCharsRegex_head.
    cbn [strings.Contains] in Hc. apply orb_true_iff in Hc as [Hc|Hc].
    + apply Ascii.eqb_eq in Hc. by subst c.
    + destruct Hname as [_ Hn]. by destruct (identifier_bytes name c Hn Hc).
  - intros c t Hc. apply unescapeCharsRegex_head.
    by destruct (plainByte_spec c (Contains_true_allBytes _ _ _ Hpre Hc)).
Qed.

Lemma pass_expand :
  expandVariables (pre +:+ String bslash (String dollar name)) m
  = pre +:+ String dollar name.
Proof.
  rewrite expandVariables_unfold, replaceFrom_copy.
  - f_equal.
    rewrite (replaceFrom_match _ _ _
               [String bslash (String dollar name); str1 bslash; str1 dollar;
                EmptyString; name] EmptyString).
    + cbn [regexp.group nth]. rewrite expandVariable_escaped by done.
      apply app_empty_r.
    + rewrite expandVarRegex_escaped. rewrite <- (app_empty_r name) at 1.
      by rewrite (expandVarTail_plain (str1 bslash) name EmptyString).
    + cbn [regexp.group nth]. by rewrite app_empty_r.
    + done.
  - intros c t Hc.
    destruct (plainByte_spec c (Contains_true_allBytes _ _ _ Hpre Hc))
      as (? & ? & _).
    by apply expandVarRegex_head.
Qed.
End escaped.

(** C5. In a double-quoted value an escaped reference stays a literal
    dollar sequence: the backslash goes, the reference is not expanded,
    whatever the mapping holds. *)
Theorem escaped_reference_stays_literal
    (m : gmap string string) (pre name : string) :
  allBytes plainByte pre = true →
  identifier name →
  parseValue
    (str1 dquote +:+ pre +:+ str1 bslash +:+ "$" +:+ name +:+ str1 dquote) m
    = pre +:+ "$" +:+ name ∧
  parseLine ("FOO=" +:+ str1 dquote +:+ "foo\$BAR" +:+ str1 dquote) m
    = ("FOO", "foo$BAR", None).
Proof.
  intros Hpre Hname. split; [|reflexivity].
  set (inner := pre +:+ String bslash (String dollar name)).
  replace (str1 dquote +:+ pre +:+ str1 bslash +:+ "$" +:+ name +:+ str1 dquote)
    with (String dquote (inner +:+ str1 dquote))
    by (unfold inner; by rewrite !app_cons, !app_empty_l, !app_assoc_s).
  unfold parseValue. rewrite Trim_quoted by done.
  assert (String.length (String dquote (inner +:+ str1 dquote))
            = S (S (String.length inner))) as Hlen.
  { cbn [String.length]. rewrite length_app_s. cbn. lia. }
  rewrite Hlen. 
  assert ((1 <? S (S (String.length inner))) = true) as ->
    by (apply Nat.ltb_lt; lia).
  rewrite singleQuotesRegex_find, doubleQuotesRegex_find.
  rewrite quotedBy_other by done. rewrite quotedBy_wrap.
  - cbn [notNil orb]. unfold slice. cbn [drop_bytes].
    replace (S (S (String.length inner)) - 1 - 1) with (String.length inner)
      by lia.
    rewrite take_bytes_app. unfold inner.
    rewrite pass_newlines, pass_unescape by done.
    by apply pass_expand.
  - unfold inner. rewrite Contains_app. destruct Hname as [_ Hname].
    rewrite (Contains_allBytes plainByte pre) by done.
    cbn. by rewrite (Contains_allBytes identByte name).
Qed.

Lemma escaped_reference_stays_literal_witness :
  allBytes plainByte "foo" = true ∧
  identifier "BAR" ∧
  parseValue (str1 dquote +:+ "foo" +:+ str1 bslash +:+ "$" +:+ "BAR"
                +:+ str1 dquote) {["BAR" := "defined"]}
    = "foo" +:+ "$" +:+ "BAR" ∧
  parseLine ("FOO=" +:+ str1 dquote +:+ "foo\$BAR" +:+ str1 dquote)
    {["BAR" := "defined"]}
    = ("FOO", "foo$BAR", None).
Proof.
  assert (identifier "BAR") as Hname by (split; [discriminate|reflexivity]).
  split; [reflexivity|]. split; [exact Hname|].
  apply (escaped_reference_stays_literal {["BAR" := "defined"]} "foo" "BAR");
    [reflexivity|exact Hname].
Defined.

(** ** The comment stripper *)

Lemma Split_no_sep s c :
  strings.Contains s c = false → strings.Split s c = [s].
Proof.
  induction s as [|x s IH]; [done|]. cbn.
  destruct (Ascii.eqb x c); [done|]. cbn. intros H. by rewrite IH.
Qed.

Lemma Split_nonempty s c : strings.Split s c ≠ [].
Proof.
  destruct s as [|x s]; [done|]. cbn.
  destruct (Ascii.eqb x c); [done|]. by destruct (strings.Split s c).
Qed.

Lemma Split_app_sep a b c :
  strings.Split (a +:+ String c b) c = strings.Split a c ++ strings.Split b c.
Proof.
  induction a as [|x a IH].
  - rewrite app_empty_l. cbn. by rewrite Ascii.eqb_refl.
  - rewrite app_cons. cbn [strings.Split]. rewrite IH.
    destruct (Ascii.eqb x c); [done|].
    pose proof (Split_nonempty a c).
    by destruct (strings.Split a c).
Qed.

Lemma Join_cons_cons e e' rest c :
  strings.Join (e :: e' :: rest) c
    = e +:+ String c (strings.Join (e' :: rest) c).
Proof. reflexivity. Qed.

Lemma Join_Split s c : strings.Join (strings.Split s c) c = s.
Proof.
  induction s as [|x s IH]; [done|]. cbn [strings.Split].
  pose proof (Split_nonempty s c) as Hne.
  destruct (strings.Split s c) as [|h r]; [done|].
  destruct (Ascii.eqb_spec x c) as [->|_].
  - by rewrite Join_cons_cons, IH.
  - destruct r as [|h' r].
    + cbn in *. by rewrite IH.
    + rewrite Join_cons_cons in *. by rewrite app_cons, IH.
Qed.

Lemma Split_pieces (p : ascii → bool) s c :
  allBytes p s = true →
  Forall (λ seg, allBytes p seg = true) (strings.Split s c).
Proof.
  induction s as [|x s IH]; intros Hall.
  - by repeat constructor.
  - cbn in Hall. apply andb_true_iff in Hall as [Hx Hall].
    specialize (IH Hall). cbn [strings.Split].
    destruct (Ascii.eqb x c); [by constructor|].
    destruct (strings.Split s c) as [|h r];
      [by repeat constructor; cbn; rewrite Hx|].
    apply Forall_cons in IH as [Hh Hr]. constructor; [|done].
    cbn. by rewrite Hx, Hh.
Qed.

Lemma Split_pieces_no_sep s c :
  Forall (λ seg, strings.Contains seg c = false) (strings.Split s c).
Proof.
  induction s as [|x s IH]; [by repeat constructor|]. cbn [strings.Split].
  destruct (Ascii.eqb x c) eqn:Hx; [by constructor|].
  destruct (strings.Split s c) as [|h r];
    [by repeat constructor; cbn; rewrite Hx|].
  apply Forall_cons in IH as [Hh Hr]. constructor; [|done].
  cbn. by rewrite Hx, Hh.
Qed.

Lemma Count_app a b c :
  strings.Count (a +:+ b) c = strings.Count a c + strings.Count b c.
Proof.
  induction a as [|x a IH]; [done|]. rewrite app_cons. cbn. rewrite IH. lia.
Qed.

Lemma Count_allBytes p s c :
  allBytes p s = true → p c = false → strings.Count s c = 0.
Proof.
  intros Hall Hc. induction s as [|x s IH]; [done|].
  cbn in *. apply andb_true_iff in Hall as [Hx Hall].
  rewrite IH by done.
  destruct (Ascii.eqb_spec x c) as [->|]; [congruence|done].
Qed.

Lemma noQuote_counts s :
  allBytes noQuote s = true →
  strings.Count s dquote = 0 ∧ strings.Count s squote = 0.
Proof. intros H. split; by apply (Count_allBytes noQuote). Qed.

Lemma noQuoteNoHash_weaken s :
  allBytes noQuoteNoHash s = true →
  allBytes noQuote s = true ∧ strings.Contains s hash = false.
Proof.
  intros H. split.
  - induction s as [|x s IH]; [done|]. cbn in *.
    apply andb_true_iff in H as [Hx H]. rewrite IH by done.
    unfold noQuoteNoHash in Hx. apply andb_true_iff in Hx as [-> _]. done.
  - by apply (Contains_allBytes noQuoteNoHash).
Qed.

(** The step of the loop, by what the segment does to the quote state. *)
Lemma commentStep_toggle quotesAreOpen keep segment :
  togglesQuote segment = true →
  commentStep (quotesAreOpen, keep) segment
    = (negb quotesAreOpen, keep ++ [segment]).
Proof.
  unfold togglesQuote, commentStep. intros ->.
  destruct quotesAreOpen; cbn [negb].
  - rewrite length_app. cbn [length].
    replace (length keep + 1 =? 0) with false
      by (symmetry; apply Nat.eqb_neq; lia).
    done.
  - by rewrite orb_true_r.
Qed.

Lemma commentStep_plain quotesAreOpen keep segment :
  togglesQuote segment = false →
  commentStep (quotesAreOpen, keep) segment
    = if (length keep =? 0) || quotesAreOpen
      then (quotesAreOpen, keep ++ [segment]) else (quotesAreOpen, keep).
Proof. unfold togglesQuote, commentStep. by intros ->. Qed.

(** After the closing quote, segments without quotes are dropped. *)
Lemma commentLoop_drop segments keep :
  keep ≠ [] →
  Forall (λ seg, allBytes noQuote seg = true) segments →
  fold_left commentStep segments (false, keep) = (false, keep).
Proof.
  intros Hkeep Hsegs. induction Hsegs as [|seg segments Hseg _ IH]; [done|].
  cbn [fold_left]. rewrite commentStep_plain.
  - destruct keep; [done|]. apply IH.
  - unfold togglesQuote. by destruct (noQuote_counts seg Hseg) as [-> ->].
Qed.

Lemma togglesQuote_none seg :
  allBytes noQuote seg = true → togglesQuote seg = false.
Proof.
  intros H. unfold togglesQuote. by destruct (noQuote_counts seg H) as [-> ->].
Qed.

Lemma togglesQuote_one q a b :
  q = dquote ∨ q = squote →
  allBytes noQuote a = true → allBytes noQuote b = true →
  togglesQuote (a +:+ String q b) = true.
Proof.
  intros Hq Ha Hb. unfold togglesQuote. rewrite !Count_app.
  cbn [strings.Count].
  destruct (noQuote_counts a Ha) as [-> ->].
  destruct (noQuote_counts b Hb) as [-> ->].
  by destruct Hq as [-> | ->].
Qed.

Lemma togglesQuote_two q a b c :
  q = dquote ∨ q = squote →
  allBytes noQuote a = true → allBytes noQuote b = true →
  allBytes noQuote c = true →
  togglesQuote (a +:+ String q (b +:+ String q c)) = false.
Proof.
  intros Hq Ha Hb Hc. unfold togglesQuote. rewrite !Count_app.
  cbn [strings.Count]. rewrite !Count_app. cbn [strings.Count].
  destruct (noQuote_counts a Ha) as [-> ->].
  destruct (noQuote_counts b Hb) as [-> ->].
  destruct (noQuote_counts c Hc) as [-> ->].
  by destruct Hq as [-> | ->].
Qed.

Section quoted.
Context (q : ascii) (Hq : q = dquote ∨ q = squote).
Context (post : string) (Hpost : allBytes noQuoteNoHash post = true).

Lemma quote_not_hash : q ≠ hash.
Proof. by destruct Hq as [-> | ->]. Qed.

(** Inside an open quote every segment is kept, up to and with the one that
    closes it. *)
Lemma commentLoop_close s ss keep :
  Forall (λ seg, allBytes noQuote seg = true) (s :: ss) →
  Forall (λ seg, strings.Contains seg hash = false) (s :: ss) →
  fold_left commentStep
    (strings.Split (strings.Join (s :: ss) hash +:+ String q post) hash)
    (true, keep)
  = (false,
     keep
       ++ strings.Split (strings.Join (s :: ss) hash +:+ String q post) hash).
Proof.
  destruct (noQuoteNoHash_weaken post Hpost) as [Hpq Hph].
  revert s keep. induction ss as [|s' ss IH]; intros s keep Hquotes Hhashes.
  - cbn [strings.Join].
    apply Forall_cons in Hquotes as [Hs _].
    apply Forall_cons in Hhashes as [Hsh _].
    rewrite Split_no_sep.
    + cbn [fold_left].
      by rewrite commentStep_toggle by by apply togglesQuote_one.
    + rewrite Contains_app, Hsh. cbn [strings.Contains].
      rewrite Hph, (proj2 (Ascii.eqb_neq q hash)); [done|apply quote_not_hash].
  - rewrite Join_cons_cons, app_assoc_s, app_cons, Split_app_sep.
    apply Forall_cons in Hquotes as [Hs Hquotes].
    apply Forall_cons in Hhashes as [Hsh Hhashes].
    rewrite Split_no_sep by done.
    cbn [app fold_left].
    rewrite commentStep_plain by by apply togglesQuote_none.
    rewrite orb_true_r, IH by done.
    by rewrite <- (assoc_L (++)).
Qed.

Context (pre inner : string).
Context (Hpre : allBytes noQuoteNoHash pre = true).
Context (Hinner : allBytes noQuote inner = true).

(** The loop keeps every segment of a line that ends after the quoted
    field, and ends with the quote closed. *)
Lemma commentLoop_code :
  fold_left commentStep
    (strings.Split (pre +:+ String q (inner +:+ String q post)) hash)
    (false, [])
  = (false, strings.Split (pre +:+ String q (inner +:+ String q post)) hash).
Proof.
  destruct (noQuoteNoHash_weaken post Hpost) as [Hpq Hph].
  destruct (noQuoteNoHash_weaken pre Hpre) as [Hprq Hprh].
  pose proof (Split_pieces noQuote inner hash Hinner) as Hquotes.
  pose proof (Split_pieces_no_sep inner hash) as Hhashes.
  pose proof (Join_Split inner hash) as Hjoin.
  pose proof (Split_nonempty inner hash) as Hne.
  destruct (strings.Split inner hash) as [|s0 [|s1 ss]]; [done| |].
  - cbn in Hjoin. subst s0.
    apply Forall_cons in Hhashes as [Hih _].
    rewrite Split_no_sep.
    + cbn [fold_left].
      by rewrite commentStep_plain by by apply togglesQuote_two.
    + rewrite Contains_app, Hprh. cbn [strings.Contains].
      rewrite Contains_app, Hih. cbn [strings.Contains].
      rewrite Hph, (proj2 (Ascii.eqb_neq q hash)); [done|apply quote_not_hash].
  - rewrite Join_cons_cons in Hjoin. rewrite <- Hjoin.
    apply Forall_cons in Hquotes as [Hs0 Hquotes].
    apply Forall_cons in Hhashes as [Hs0h Hhashes].
    replace (pre +:+ String q
                       ((s0 +:+ String hash (strings.Join (s1 :: ss) hash))
                          +:+ String q post))
      with ((pre +:+ String q s0)
              +:+ String hash (strings.Join (s1 :: ss) hash +:+ String q post))
      by (rewrite !app_assoc_s; rewrite ?app_cons, ?app_assoc_s; done).
    rewrite Split_app_sep, Split_no_sep.
    + cbn [app fold_left].
      rewrite commentStep_toggle by by apply togglesQuote_one.
      cbn [negb app]. by rewrite commentLoop_close.
    + rewrite Contains_app, Hprh. cbn [strings.Contains].
      rewrite Hs0h, (proj2 (Ascii.eqb_neq q hash)); [done|apply quote_not_hash].
Qed.

Lemma removeComments_code :
  removeComments (pre +:+ String q (inner +:+ String q post))
    = pre +:+ String q (inner +:+ String q post).
Proof.
  unfold removeComments. destruct (strings.Contains _ hash); [|done].
  rewrite commentLoop_code. apply Join_Split.
Qed.

Lemma removeComments_trailing comment :
  allBytes noQuote comment = true →
  removeComments
    ((pre +:+ String q (inner +:+ String q post)) +:+ String hash comment)
    = pre +:+ String q (inner +:+ String q post).
Proof.
  intros Hcomment. unfold removeComments.
  rewrite Contains_app. cbn [strings.Contains]. rewrite Ascii.eqb_refl.
  rewrite orb_true_r. cbn [orb].
  rewrite Split_app_sep, fold_left_app, commentLoop_code.
  rewrite commentLoop_drop.
  - apply Join_Split.
  - apply Split_nonempty.
  - by apply Split_pieces.
Qed.
End quoted.

(** Where the stripper does keep a quoted hash and drop the comment: on a
    line made of a key part, a quoted field without a quote byte in it and
    more text without quotes or hashes, the stripper removes a trailing
    comment that holds no quote byte, and nothing else, so the line parses
    as it does without the comment.  The two lines of the specification
    parse to [bar#baz] and [ba#r]. *)
Theorem quoted_hash_kept_comment_dropped
    (q : ascii) (pre inner post comment : string) (m : gmap string string) :
  q = dquote ∨ q = squote →
  allBytes noQuoteNoHash pre = true →
  allBytes noQuote inner = true →
  allBytes noQuoteNoHash post = true →
  allBytes noQuote comment = true →
  removeComments
    ((pre +:+ str1 q +:+ inner +:+ str1 q +:+ post) +:+ "#" +:+ comment)
    = pre +:+ str1 q +:+ inner +:+ str1 q +:+ post ∧
  removeComments (pre +:+ str1 q +:+ inner +:+ str1 q +:+ post)
    = pre +:+ str1 q +:+ inner +:+ str1 q +:+ post ∧
  parseLine
    ((pre +:+ str1 q +:+ inner +:+ str1 q +:+ post) +:+ "#" +:+ comment) m
    = parseLine (pre +:+ str1 q +:+ inner +:+ str1 q +:+ post) m ∧
  parseLine ("FOO=" +:+ str1 dquote +:+ "bar#baz" +:+ str1 dquote
               +:+ " # comment") m
    = ("FOO", "bar#baz", None) ∧
  parseLine ("FOO=" +:+ str1 dquote +:+ "ba#r" +:+ str1 dquote) m
    = ("FOO", "ba#r", None).
Proof.
  intros Hq Hpre Hinner Hpost Hcomment.
  replace (pre +:+ str1 q +:+ inner +:+ str1 q +:+ post)
    with (pre +:+ String q (inner +:+ String q post)) by reflexivity.
  change ("#" +:+ comment) with (String hash comment).
  pose proof (removeComments_code q Hq post Hpost pre inner Hpre Hinner)
    as Hcode.
  pose proof (removeComments_trailing q Hq post Hpost pre inner Hpre Hinner
                comment Hcomment) as Htrail.
  split; [exact Htrail|]. split; [exact Hcode|].
  split; [|split; reflexivity].
  unfold parseLine. by rewrite Htrail, Hcode.
Qed.

Lemma quoted_hash_kept_comment_dropped_witness :
  removeComments
    (("FOO=" +:+ str1 dquote +:+ "bar#baz#bang" +:+ str1 dquote +:+ " ")
       +:+ "#" +:+ " comment # more")
    = "FOO=" +:+ str1 dquote +:+ "bar#baz#bang" +:+ str1 dquote +:+ " " ∧
  parseLine
    (("FOO=" +:+ str1 dquote +:+ "bar#baz#bang" +:+ str1 dquote +:+ " ")
       +:+ "#" +:+ " comment # more") ∅
    = ("FOO", "bar#baz#bang", None).
Proof.
  destruct (quoted_hash_kept_comment_dropped dquote "FOO=" "bar#baz#bang" " "
              " comment # more" ∅)
    as (Hstrip & _ & Hparse & _); try reflexivity; [by left|].
  split; [exact Hstrip|]. rewrite Hparse. reflexivity.
Defined.

(** C8. The stripper does not always drop a comment that follows a quoted
    field: an apostrophe between double quotes makes the first segment
    hold exactly one single quote, the stripper takes the quotes for open
    and keeps the comment.  The value then no longer ends in a quote, so
    the decoder leaves the quotes in it as well. *)
Theorem apostrophe_in_quotes_keeps_comment (m : gmap string string) :
  removeComments ("FOO=" +:+ inDoubleQuotes "don't" +:+ " # comment")
    = "FOO=" +:+ inDoubleQuotes "don't" +:+ " # comment" ∧
  parseLine ("FOO=" +:+ inDoubleQuotes "don't" +:+ " # comment") m
    = ("FOO", inDoubleQuotes "don't" +:+ " # comment", None) ∧
  parseLine ("FOO=" +:+ inDoubleQuotes "don't") m = ("FOO", "don't", None).
Proof. repeat split; reflexivity. Qed.

(** ** The lookup without requested variables *)

Lemma Cut_split s c a b :
  strings.Cut s c = Some (a, b) →
  s = a +:+ String c b ∧ strings.Contains a c = false.
Proof.
  revert a. induction s as [|x t IH]; intros a; simpl; [done|].
  destruct (Ascii.eqb_spec x c) as [->|Hne].
  - by intros [= <- <-].
  - destruct (strings.Cut t c) as [[a' b']|]; [|done].
    intros [= <- <-]. destruct (IH a' eq_refl) as [-> Ha'].
    rewrite app_cons. simpl. split; [done|].
    by apply Ascii.eqb_neq in Hne as ->.
Qed.

Lemma Cut_app a b c :
  strings.Contains a c = false →
  strings.Cut (a +:+ String c b) c = Some (a, b).
Proof.
  induction a as [|x a IH]; simpl.
  - intros _. by rewrite Ascii.eqb_refl.
  - intros H. apply orb_false_iff in H as [Hx Ha].
    by rewrite Hx, IH.
Qed.

Lemma systemVariablesFrom_app l1 l2 envMap :
  systemVariablesFrom (l1 ++ l2) envMap =
    match systemVariablesFrom l1 envMap with
    | Some m => systemVariablesFrom l2 m
    | None => None
    end.
Proof.
  revert envMap. induction l1 as [|e l1 IH]; intros envMap; [done|].
  cbn [app systemVariablesFrom]. rewrite SplitN_2.
  destruct (strings.Cut e "=") as [[k v]|]; [apply IH|done].
Qed.

(** The loop over the entries fails exactly on an entry without an equals
    sign. *)
Lemma systemVariablesFrom_None entries envMap :
  systemVariablesFrom entries envMap = None ↔
    ∃ entry, entry ∈ entries ∧ strings.Contains entry "=" = false.
Proof.
  revert envMap. induction entries as [|e entries IH]; intros envMap.
  - split; [done|]. intros (entry & Hin & _). by apply elem_of_nil in Hin.
  - cbn [systemVariablesFrom]. rewrite SplitN_2.
    destruct (strings.Cut e "=") as [[k v]|] eqn:Hcut.
    + rewrite IH. split.
      * intros (entry & Hin & Hno). exists entry. split; [by right|done].
      * intros (entry & Hin & Hno).
        apply elem_of_cons in Hin as [->|Hin]; [|by exists entry].
        apply Cut_Contains in Hno. congruence.
    + split; [|done]. intros _. exists e.
      split; [by left|by apply Cut_Contains].
Qed.

Lemma HasPrefix_app w t : strings.HasPrefix (w +:+ t) w = true.
Proof.
  induction w as [|c w IH]; [apply HasPrefix_empty|].
  rewrite app_cons. simpl. by rewrite Ascii.eqb_refl.
Qed.

(** An entry's binding survives the entries after it that do not begin
    with its name and an equals sign. *)
Lemma systemVariablesFrom_keeps after envMap m name value :
  systemVariablesFrom after envMap = Some m →
  envMap !! name = Some value →
  (∀ e, e ∈ after → strings.HasPrefix e (name +:+ "=") = false) →
  m !! name = Some value.
Proof.
  revert envMap. induction after as [|e after IH]; intros envMap Hrun Hk Hno.
  - cbn in Hrun. by injection Hrun as <-.
  - cbn [systemVariablesFrom] in Hrun. rewrite SplitN_2 in Hrun.
    destruct (strings.Cut e "=") as [[k v]|] eqn:Hcut; [|done].
    eapply IH; [done| |intros e' He'; apply Hno; by right].
    rewrite lookup_insert_ne; [done|]. intros ->.
    apply Cut_split in Hcut as [-> _].
    pose proof (Hno _ (list_elem_of_here _ _)) as Hp.
    change (name +:+ String "=" v) with (name +:+ ("=" +:+ v)) in Hp.
    by rewrite <- app_assoc_s, HasPrefix_app in Hp.
Qed.

(** The merge of the file mapping with the system's: the side that has the
    priority shadows the other. *)
Lemma getAllVariables_union sys fromEnvDotFiles sf sysVars :
  systemVariables sys = Some sysVars →
  getAllVariables sys fromEnvDotFiles sf =
    Some (if sf then sysVars ∪ fromEnvDotFiles
          else fromEnvDotFiles ∪ sysVars).
Proof.
  intros Hsys. unfold getAllVariables. rewrite Hsys. f_equal.
  rewrite copyInto_union, (right_id_L ∅ (∪)).
  apply (map_fold_weak_ind (λ r m,
           r = if sf then m ∪ fromEnvDotFiles else fromEnvDotFiles ∪ m)).
  - destruct sf; [by rewrite (left_id_L ∅ (∪))|by rewrite (right_id_L ∅ (∪))].
  - intros k v m r Hk ->. destruct sf.
    + destruct (notNil _); cbn; by rewrite insert_union_l.
    + rewrite lookup_union, Hk.
      destruct (fromEnvDotFiles !! k) as [w|] eqn:Hf; cbn.
      * apply map_eq. intros j. rewrite !lookup_union.
        destruct (decide (j = k)) as [->|Hne].
        -- by rewrite Hf, lookup_insert_eq, Hk.
        -- by rewrite lookup_insert_ne.
      * by rewrite insert_union_r.
Qed.

(** X1. [Get] fails (the program panics) in exactly one situation: no
    variable is requested and some entry of the process environment holds
    no equals sign, so that [systemVariables] indexes a piece that does not
    exist.  With requested variables the entries are never read. *)
Theorem get_fails_iff_entry_without_equals sys fs cfg :
  get sys fs cfg = None ↔
    variables cfg = [] ∧
    ∃ entry, entry ∈ Environ sys ∧ strings.Contains entry "=" = false.
Proof.
  rewrite <- (systemVariablesFrom_None (Environ sys) ∅).
  unfold get. destruct (read fs _) as [inFile e].
  destruct (variables cfg) as [|v vars]; cbn.
  - unfold getAllVariables, systemVariables.
    destruct (systemVariablesFrom (Environ sys) ∅); cbn; split; try done.
    by intros [_ ?].
  - split; [done|]. by intros [? _].
Qed.

(** X2. Without requested variables the result holds every name of the
    file mapping and every name of the process environment; a name that
    both define takes the file value, and the system value under
    [PrioritizeSystem].  No name is reported as not found. *)
Theorem full_mode_merges_files_and_system sys fs cfg sysVars :
  variables cfg = [] →
  systemVariables sys = Some sysVars →
  ∃ envMap,
    get sys fs cfg = Some (envMap, []) ∧
    ∀ name,
      envMap !! name =
        if systemFirst cfg then
          match sysVars !! name with
          | Some value => Some value
          | None => (read fs (filenamesOrDefault (filenames cfg))).1 !! name
          end
        else
          match (read fs (filenamesOrDefault (filenames cfg))).1 !! name with
          | Some value => Some value
          | None => sysVars !! name
          end.
Proof.
  intros Hall Hsys. unfold get.
  destruct (read fs _) as [inFile e]. rewrite Hall. cbn.
  rewrite (getAllVariables_union _ _ _ _ Hsys).
  eexists. split; [done|]. intros name.
  destruct (systemFirst cfg); rewrite lookup_union;
    by destruct (sysVars !! name), (inFile !! name).
Qed.

(** Both sources define [OPTION_A]; the file alone defines [OPTION_B] and
    the system alone [OPTION_G]. *)
Lemma full_mode_merges_files_and_system_witness :
  ∃ envMap,
    get sampleSystem sampleFS
      (From ["plain.env"]
         {| variables := []; filenames := []; systemFirst := false |})
      = Some (envMap, []) ∧
    envMap !! "OPTION_A" = Some "1" ∧
    envMap !! "OPTION_B" = Some "2" ∧
    envMap !! "OPTION_G" = Some EmptyString.
Proof.
  destruct (full_mode_merges_files_and_system sampleSystem sampleFS
              (From ["plain.env"]
                 {| variables := []; filenames := []; systemFirst := false |})
              {["OPTION_A" := "999"; "OPTION_G" := EmptyString]})
    as (envMap & Hget & Hlook).
  - reflexivity.
  - vm_compute. reflexivity.
  - exists envMap. split; [exact Hget|].
    rewrite !Hlook. repeat split; vm_compute; reflexivity.
Defined.

(** X3. An entry [name=value] of the process environment binds [name] to
    [value], whatever equals signs [value] holds: the entry is split at
    its first equals sign.  (The entries of [os.Environ] have distinct
    names.) *)
Theorem system_entry_splits_at_first_equals sys before name value after :
  Environ sys = before ++ (name +:+ "=" +:+ value) :: after →
  strings.Contains name "=" = false →
  (∀ e, e ∈ before ++ after → strings.Contains e "=" = true) →
  (∀ e, e ∈ before ++ after →
        strings.HasPrefix e (name +:+ "=") = false) →
  ∃ sysVars,
    systemVariables sys = Some sysVars ∧ sysVars !! name = Some value.
Proof.
  intros Henv Hname Hall Hothers.
  destruct (systemVariables sys) as [sysVars|] eqn:Hsys.
  - exists sysVars. split; [done|].
    unfold systemVariables in Hsys.
    rewrite Henv, systemVariablesFrom_app in Hsys.
    destruct (systemVariablesFrom before ∅) as [m0|]; [|done].
    cbn [systemVariablesFrom] in Hsys. rewrite SplitN_2 in Hsys.
    change (name +:+ "=" +:+ value) with (name +:+ String "=" value) in Hsys.
    rewrite (Cut_app _ _ _ Hname) in Hsys.
    eapply systemVariablesFrom_keeps; [done|apply lookup_insert_eq|].
    intros e He. apply Hothers, elem_of_app. by right.
  - apply systemVariablesFrom_None in Hsys as (e & Hin & Hno).
    rewrite Henv in Hin. apply elem_of_app in Hin as [Hin|Hin].
    + rewrite Hall in Hno; [done|]. apply elem_of_app. by left.
    + apply elem_of_cons in Hin as [->|Hin].
      * change (name +:+ "=" +:+ value) with (name +:+ String "=" value)
          in Hno.
        rewrite Contains_app in Hno. cbn in Hno.
        by rewrite orb_true_r in Hno.
      * rewrite Hall in Hno; [done|]. apply elem_of_app. by right.
Qed.

(** The value of [OPTS] holds an equals sign. *)
Lemma system_entry_splits_at_first_equals_witness :
  ∃ sysVars,
    systemVariables
      {| Getenv := λ _, EmptyString;
         Environ := ["PATH=/bin"; "OPTS=a=b"; "HOME=/root"] |}
      = Some sysVars ∧
    sysVars !! "OPTS" = Some "a=b".
Proof.
  apply (system_entry_splits_at_first_equals
           {| Getenv := λ _, EmptyString;
              Environ := ["PATH=/bin"; "OPTS=a=b"; "HOME=/root"] |}
           ["PATH=/bin"] "OPTS" "a=b" ["HOME=/root"]).
  - reflexivity.
  - reflexivity.
  - intros e He. cbn in He.
    repeat (apply elem_of_cons in He as [->|He]); try reflexivity.
    by apply elem_of_nil in He.
  - intros e He. cbn in He.
    repeat (apply elem_of_cons in He as [->|He]); try reflexivity.
    by apply elem_of_nil in He.
Defined.

(** ** The lookup of requested variables, name by name *)

Section lookup_table.
Context (sys : System) (inFile : gmap string string) (sf : bool).

Lemma getLoop_absent vars envMap notFound name :
  name ∉ vars →
  (fold_left (getStep sys inFile sf) vars (envMap, notFound)).1 !! name
    = envMap !! name.
Proof.
  revert envMap notFound.
  induction vars as [|u vars IH]; intros envMap notFound Hnin; [done|].
  cbn [fold_left]. rewrite getStep_resolved.
  apply not_elem_of_cons in Hnin as [Hne Hnin].
  destruct (resolved sys inFile sf u); rewrite IH by done; [|done].
  by rewrite lookup_insert_ne.
Qed.

Lemma getLoop_unresolved vars envMap notFound name :
  resolved sys inFile sf name = None →
  (fold_left (getStep sys inFile sf) vars (envMap, notFound)).1 !! name
    = envMap !! name.
Proof.
  intros Hres. revert envMap notFound.
  induction vars as [|u vars IH]; intros envMap notFound; [done|].
  cbn [fold_left]. rewrite getStep_resolved.
  destruct (resolved sys inFile sf u) eqn:Hu; rewrite IH; [|done].
  rewrite lookup_insert_ne; [done|]. intros ->. congruence.
Qed.

(** What the loop leaves under a name, from the empty mapping. *)
Lemma getLoop_table vars name :
  (fold_left (getStep sys inFile sf) vars (∅, [])).1 !! name =
    if bool_decide (name ∈ vars) then resolved sys inFile sf name else None.
Proof.
  case_bool_decide as Hin.
  - destruct (resolved sys inFile sf name) as [v|] eqn:Hres.
    + by apply getLoop_lookup.
    + by rewrite getLoop_unresolved.
  - by rewrite getLoop_absent.
Qed.
End lookup_table.

(** X4. With requested variables, the result holds no name that was not
    requested, and every requested name is either bound in the mapping or
    listed as not found, never both. *)
Theorem selective_result_partitions_request sys fs cfg :
  variables cfg ≠ [] →
  ∃ envMap notFound,
    get sys fs cfg = Some (envMap, notFound) ∧
    (∀ name, name ∉ variables cfg → envMap !! name = None) ∧
    (∀ name, name ∈ notFound → name ∈ variables cfg) ∧
    (∀ name, name ∈ variables cfg →
       (envMap !! name = None ↔ name ∈ notFound)).
Proof.
  intros Hsel. rewrite (get_selective _ _ _ Hsel).
  set (inFile := (read fs (filenamesOrDefault (filenames cfg))).1).
  eexists _, _. split; [f_equal; apply surjective_pairing|].
  rewrite getLoop_notFound. cbn [app].
  repeat split.
  - intros name Hnin. rewrite getLoop_table. by case_bool_decide.
  - intros name Hin. by apply list_elem_of_filter in Hin as [_ ?].
  - intros Hnone. rewrite getLoop_table in Hnone.
    apply list_elem_of_filter. by case_bool_decide.
  - intros Hin. rewrite getLoop_table. case_bool_decide; [|done].
    by apply list_elem_of_filter in Hin as [? _].
Qed.

(** The file defines [OPTION_B], which is not requested; [OPTION_Z] is
    requested and defined nowhere. *)
Lemma selective_result_partitions_request_witness :
  ∃ envMap notFound,
    get sampleSystem sampleFS
      (Variables ["OPTION_A"; "OPTION_Z"]
         (From ["plain.env"]
            {| variables := []; filenames := []; systemFirst := false |}))
      = Some (envMap, notFound) ∧
    envMap !! "OPTION_B" = None ∧
    (envMap !! "OPTION_Z" = None ↔ "OPTION_Z" ∈ notFound).
Proof.
  destruct (selective_result_partitions_request sampleSystem sampleFS
              (Variables ["OPTION_A"; "OPTION_Z"]
                 (From ["plain.env"]
                    {| variables := []; filenames := [];
                       systemFirst := false |})))
    as (envMap & notFound & Hget & Hother & _ & Hpart).
  - discriminate.
  - exists envMap, notFound. split; [exact Hget|]. split.
    + apply Hother. cbn. intros Hin.
      repeat (apply elem_of_cons in Hin as [Heq|Hin]; [discriminate Heq|]).
      by apply elem_of_nil in Hin.
    + apply Hpart. cbn. right. left.
Defined.

(** X5. A requested name that only one side defines takes that side's
    value, with or without [PrioritizeSystem]: the file value, even the
    empty one, when the system has nothing or the empty string for the
    name, and the system value when it is not empty and the file mapping
    lacks the name. *)
Theorem selective_falls_back_to_other_source sys fs cfg name :
  name ∈ variables cfg →
  ∃ envMap notFound,
    get sys fs cfg = Some (envMap, notFound) ∧
    (Getenv sys name = EmptyString →
     envMap !! name
       = (read fs (filenamesOrDefault (filenames cfg))).1 !! name) ∧
    (Getenv sys name ≠ EmptyString →
     (read fs (filenamesOrDefault (filenames cfg))).1 !! name = None →
     envMap !! name = Some (Getenv sys name)).
Proof.
  intros Hin.
  assert (variables cfg ≠ []) as Hsel.
  { intros Hnil. rewrite Hnil in Hin. by apply elem_of_nil in Hin. }
  rewrite (get_selective _ _ _ Hsel).
  set (inFile := (read fs (filenamesOrDefault (filenames cfg))).1).
  eexists _, _. split; [f_equal; apply surjective_pairing|].
  rewrite getLoop_table, bool_decide_true by done. unfold resolved.
  split.
  - intros ->. by rewrite bool_decide_true.
  - intros Hsys Hfile. rewrite bool_decide_false, Hfile by done.
    by destruct (systemFirst cfg).
Qed.

(** [local.env] does not define [OPTION_A], which the system sets. *)
Lemma selective_falls_back_to_other_source_witness :
  ∃ envMap notFound,
    get sampleSystem sampleFS
      (Variables ["OPTION_A"; "OPTION_B"]
         (From ["local.env"]
            {| variables := []; filenames := []; systemFirst := false |}))
      = Some (envMap, notFound) ∧
    envMap !! "OPTION_A" = Some "999".
Proof.
  destruct (selective_falls_back_to_other_source sampleSystem sampleFS
              (Variables ["OPTION_A"; "OPTION_B"]
                 (From ["local.env"]
                    {| variables := []; filenames := [];
                       systemFirst := false |}))
              "OPTION_A")
    as (envMap & notFound & Hget & _ & Hsys).
  - apply list_elem_of_here.
  - exists envMap, notFound. split; [exact Hget|].
    apply Hsys; [discriminate|vm_compute; reflexivity].
Defined.

(** X6. The two modes disagree on a name that the process environment
    sets to the empty string and no file defines: without requested
    variables the result binds the name to the empty string, while a
    request for it reports the name as not found. *)
Theorem empty_system_value_depends_on_mode sys fs cfg vars name sysVars :
  variables cfg = [] →
  name ∈ vars →
  systemVariables sys = Some sysVars →
  sysVars !! name = Some EmptyString →
  Getenv sys name = EmptyString →
  (read fs (filenamesOrDefault (filenames cfg))).1 !! name = None →
  (∃ envMap,
     get sys fs cfg = Some (envMap, []) ∧
     envMap !! name = Some EmptyString) ∧
  (∃ envMap notFound,
     get sys fs (Variables vars cfg) = Some (envMap, notFound) ∧
     envMap !! name = None ∧ name ∈ notFound).
Proof.
  intros Hall Hin Hsys Hempty Hget Hfile. split.
  - unfold get. destruct (read fs _) as [inFile e]. cbn in Hfile.
    rewrite Hall. cbn. rewrite (getAllVariables_union _ _ _ _ Hsys).
    eexists. split; [done|].
    destruct (systemFirst cfg); rewrite lookup_union, Hempty, Hfile; done.
  - assert (variables (Variables vars cfg) ≠ []) as Hsel.
    { cbn. intros Hnil. rewrite Hnil in Hin. by apply elem_of_nil in Hin. }
    rewrite (get_selective _ _ _ Hsel). cbn [Variables variables filenames
      systemFirst].
    eexists _, _. split; [f_equal; apply surjective_pairing|].
    assert (resolved sys (read fs (filenamesOrDefault (filenames cfg))).1
              (systemFirst cfg) name = None) as Hres.
    { unfold resolved. by rewrite bool_decide_true. }
    split.
    + by rewrite getLoop_unresolved.
    + rewrite getLoop_notFound. cbn [app]. by apply list_elem_of_filter.
Qed.

(** The system sets [OPTION_G] to the empty string. *)
Lemma empty_system_value_depends_on_mode_witness :
  (∃ envMap,
     get sampleSystem sampleFS
       (From ["plain.env"]
          {| variables := []; filenames := []; systemFirst := false |})
       = Some (envMap, []) ∧
     envMap !! "OPTION_G" = Some EmptyString) ∧
  (∃ envMap notFound,
     get sampleSystem sampleFS
       (Variables ["OPTION_G"]
          (From ["plain.env"]
             {| variables := []; filenames := []; systemFirst := false |}))
       = Some (envMap, notFound) ∧
     envMap !! "OPTION_G" = None ∧ "OPTION_G" ∈ notFound).
Proof.
  apply (empty_system_value_depends_on_mode sampleSystem sampleFS
           (From ["plain.env"]
              {| variables := []; filenames := []; systemFirst := false |})
           ["OPTION_G"] "OPTION_G"
           {["OPTION_A" := "999"; "OPTION_G" := EmptyString]}).
  - reflexivity.
  - apply list_elem_of_here.
  - vm_compute. reflexivity.
  - vm_compute. reflexivity.
  - reflexivity.
  - vm_compute. reflexivity.
Defined.

(** ** Options *)

(** X7. The options compose by overwriting: whatever the order and the
    number of the calls, [Get] looks for the variables of the last call of
    [Variables], reads the sources of the last call of [From], and gives
    the priority to the system as soon as [PrioritizeSystem] occurs; no
    call takes the priority back. *)
Theorem options_last_call_wins sys fs (calls : list OptionCall) :
  Get sys fs (optionOf <$> calls) =
    get sys fs
      {| variables := default [] (last (omap variablesArg calls));
         filenames := default [] (last (omap fromArg calls));
         systemFirst := bool_decide (CallPrioritizeSystem ∈ calls) |}.
Proof.
  unfold Get, Option. f_equal.
  induction calls as [|call calls IH] using rev_ind; [done|].
  rewrite fmap_app, fold_left_app, IH, !omap_app. cbn [fmap list_fmap
    fold_left omap list_omap].
  assert (call ≠ CallPrioritizeSystem →
          bool_decide (CallPrioritizeSystem ∈ calls ++ [call])
            = bool_decide (CallPrioritizeSystem ∈ calls)) as Hkeep.
  { intros Hne. apply bool_decide_ext.
    rewrite elem_of_app, list_elem_of_singleton.
    split; [|by left]. intros [Hin|Heq]; [done|congruence]. }
  destruct call as [vars| |filePaths]; cbn.
  - by rewrite last_snoc, app_nil_r, Hkeep.
  - rewrite !app_nil_r. unfold PrioritizeSystem. cbn. f_equal. symmetry.
    apply bool_decide_eq_true. apply elem_of_app. right.
    apply list_elem_of_here.
  - by rewrite last_snoc, app_nil_r, Hkeep.
Qed.

(** ** The merge of the sources *)

Lemma readFiles_error fs names envMap :
  (readFiles fs names envMap).2 = None ↔
    ∀ f, f ∈ names → (readFile fs f).2 = None.
Proof.
  revert envMap. induction names as [|g names IH]; intros envMap.
  - split; [|done]. intros _ f Hf. by apply elem_of_nil in Hf.
  - cbn [readFiles].
    destruct (readFile fs g) as [ind [err|]] eqn:Hg; cbn.
    + split; [done|]. intros Hall.
      specialize (Hall g (list_elem_of_here _ _)). by rewrite Hg in Hall.
    + rewrite IH. split.
      * intros Hall f Hf. apply elem_of_cons in Hf as [->|Hf]; [|by apply Hall].
        by rewrite Hg.
      * intros Hall f Hf. apply Hall. by right.
Qed.

Lemma readFiles_lookup_None fs names envMap k :
  (readFiles fs names envMap).2 = None →
  (readFiles fs names envMap).1 !! k = None ↔
    envMap !! k = None ∧ ∀ f, f ∈ names → (readFile fs f).1 !! k = None.
Proof.
  revert envMap. induction names as [|g names IH]; intros envMap.
  - intros _. cbn. split; [|by intros [? _]]. intros Hk.
    split; [done|]. intros f Hf. by apply elem_of_nil in Hf.
  - cbn [readFiles].
    destruct (readFile fs g) as [ind [err|]] eqn:Hg; [done|]. intros Hok.
    rewrite (IH _ Hok), copyInto_lookup. split.
    + intros [Hhere Hrest].
      destruct (ind !! k) eqn:Hind; [done|]. split; [done|].
      intros f Hf. apply elem_of_cons in Hf as [->|Hf]; [|by apply Hrest].
      by rewrite Hg.
    + intros [Hem Hall].
      pose proof (Hall g (list_elem_of_here _ _)) as Hind.
      rewrite Hg in Hind. cbn in Hind. rewrite Hind. split; [done|].
      intros f Hf. apply Hall. by right.
Qed.

(** X8. [read] succeeds exactly when every source can be read and parsed,
    and the mapping it then returns binds the names that some source binds
    and no others. *)
Theorem read_merges_every_source fs filenames :
  ((read fs filenames).2 = None ↔
     ∀ f, f ∈ filenames → (readFile fs f).2 = None) ∧
  ((read fs filenames).2 = None →
   ∀ k, (read fs filenames).1 !! k = None ↔
          ∀ f, f ∈ filenames → (readFile fs f).1 !! k = None).
Proof.
  unfold read. split; [apply readFiles_error|].
  intros Hok k. rewrite (readFiles_lookup_None _ _ _ _ Hok).
  split; [by intros [_ ?]|]. intros Hall. by split.
Qed.

(** ** Blank lines and comment lines *)

Lemma rev_bytes_snoc s c : rev_bytes (s +:+ str1 c) = String c (rev_bytes s).
Proof.
  induction s as [|x s IH]; [done|].
  rewrite app_cons. simpl. by rewrite IH.
Qed.

Lemma solidByte_spec c :
  solidByte c = true →
  nat_of_ascii c < 128 ∧ strings.asciiSpace c = false.
Proof.
  unfold solidByte. intros H. apply andb_true_iff in H as [Hlt Hsp].
  apply Nat.ltb_lt in Hlt. by apply negb_true_iff in Hsp.
Qed.

(** No white-space rune begins with a solid byte. *)
Lemma afterSpaceRune_solid c t :
  solidByte c = true → strings.afterSpaceRune (String c t) = None.
Proof.
  intros Hc. apply solidByte_spec in Hc as [Hlt Hsp].
  unfold strings.afterSpaceRune. rewrite Hsp.
  destruct (nat_of_ascii c) as [|n] eqn:Hn; [done|].
  do 128 (destruct n as [|n]; [done|]). lia.
Qed.

Lemma stripLeft_blank ws rest fuel :
  allBytes strings.asciiSpace ws = true →
  strings.stripRunes strings.afterSpaceRune (String.length ws + fuel)
    (ws +:+ rest)
  = strings.stripRunes strings.afterSpaceRune fuel rest.
Proof.
  induction ws as [|c ws IH]; [done|]. intros H.
  apply andb_true_iff in H as [Hc Hws].
  rewrite app_cons. cbn [String.length Nat.add strings.stripRunes].
  unfold strings.afterSpaceRune at 1. rewrite Hc. by apply IH.
Qed.

(** From the right end, no white-space rune reaches a solid byte. *)
Lemma afterSpaceRuneRev_solid s c r :
  solidByte c = true →
  strings.afterSpaceRuneRev (s +:+ str1 c) = Some r →
  ∃ s', r = s' +:+ str1 c.
Proof.
  intros Hc. apply solidByte_spec in Hc as [Hlt Hsp].
  assert (∀ n, 128 ≤ n → (nat_of_ascii c =? n) = false) as Hne.
  { intros n Hn. apply Nat.eqb_neq. lia. }
  unfold strings.afterSpaceRuneRev.
  destruct s as [|x [|y [|z s]]]; rewrite ?app_cons, ?app_empty_l;
    unfold str1.
  - by rewrite Hsp.
  - destruct (strings.asciiSpace x); [intros [= <-]; by exists EmptyString|].
    cbv zeta. by rewrite (Hne 194) by lia.
  - destruct (strings.asciiSpace x);
      [intros [= <-]; by exists (str1 y)|].
    cbv zeta.
    destruct (_ && _); [intros [= <-]; by exists EmptyString|].
    rewrite (Hne 225), (Hne 226), (Hne 227) by lia. done.
  - destruct (strings.asciiSpace x);
      [intros [= <-]; exists (String y (String z s));
       by rewrite !app_cons|].
    cbv zeta.
    destruct (_ && _);
      [intros [= <-]; exists (String z s); by rewrite !app_cons|].
    destruct (_ || _); [|done]. intros [= <-]. by exists s.
Qed.

Lemma stripRight_solid fuel s c :
  solidByte c = true →
  ∃ s',
    strings.stripRunes strings.afterSpaceRuneRev fuel (s +:+ str1 c)
      = s' +:+ str1 c.
Proof.
  intros Hc. revert s. induction fuel as [|fuel IH]; intros s.
  - by exists s.
  - cbn [strings.stripRunes].
    destruct (strings.afterSpaceRuneRev (s +:+ str1 c)) as [r|] eqn:Hr;
      [|by exists s].
    destruct (afterSpaceRuneRev_solid _ _ _ Hc Hr) as [s' ->]. apply IH.
Qed.

(** A line that begins with a solid byte keeps it through [TrimSpace]. *)
Lemma TrimSpace_solid ws c t :
  allBytes strings.asciiSpace ws = true →
  solidByte c = true →
  ∃ t', strings.TrimSpace (ws +:+ String c t) = String c t'.
Proof.
  intros Hws Hc. unfold strings.TrimSpace.
  rewrite length_app_s, stripLeft_blank by done.
  cbn [String.length strings.stripRunes].
  rewrite afterSpaceRune_solid by done.
  cbn [rev_bytes String.length].
  destruct (stripRight_solid (S (String.length t)) (rev_bytes t) c Hc)
    as [s' ->].
  rewrite rev_bytes_snoc. by eexists.
Qed.

Lemma TrimSpace_blank ws :
  allBytes strings.asciiSpace ws = true →
  strings.TrimSpace ws = EmptyString.
Proof.
  intros Hws. unfold strings.TrimSpace.
  pose proof (stripLeft_blank ws EmptyString 0 Hws) as H.
  rewrite Nat.add_0_r, app_empty_r in H. by rewrite H.
Qed.

Lemma isIgnoredLine_solid ws c t :
  allBytes strings.asciiSpace ws = true →
  solidByte c = true →
  isIgnoredLine (ws +:+ String c t) = Ascii.eqb c hash.
Proof.
  intros Hws Hc. unfold isIgnoredLine.
  destruct (TrimSpace_solid ws c t Hws Hc) as [t' ->].
  cbn [String.length Nat.eqb orb strings.HasPrefix str1].
  by rewrite HasPrefix_empty, andb_true_r.
Qed.

(** X9. A line of ASCII white space, the empty line too, is ignored, and
    a line whose first byte after the leading ASCII white space is an
    ASCII byte is ignored exactly when that byte is the hash sign,
    whatever follows it. *)
Theorem first_solid_byte_decides_ignored ws c t :
  allBytes strings.asciiSpace ws = true →
  solidByte c = true →
  isIgnoredLine ws = true ∧
  isIgnoredLine (ws +:+ String c t) = Ascii.eqb c hash.
Proof.
  intros Hws Hc. split; [|by apply isIgnoredLine_solid].
  unfold isIgnoredLine. by rewrite TrimSpace_blank.
Qed.

(** A line of two spaces, and an indented comment. *)
Lemma first_solid_byte_decides_ignored_witness :
  isIgnoredLine "  " = true ∧
  isIgnoredLine ("  " +:+ String "#" " not = a line") = true.
Proof.
  apply (first_solid_byte_decides_ignored "  " "#" " not = a line");
    reflexivity.
Defined.

(** X10. The parser does not see the ignored lines: a document and the
    document without its blank lines and comment lines parse alike. *)
Theorem ignored_lines_do_not_count lines :
  parse (document lines)
    = parse (document (filter (λ l, isIgnoredLine l = false) lines)).
Proof.
  unfold parse, document. cbn [scanErr scanLines].
  generalize (∅ : gmap string string).
  induction lines as [|line lines IH]; intros envMap; [done|].
  cbn [parseLines].
  destruct (isIgnoredLine line) eqn:Hign.
  - rewrite filter_cons_False by congruence. apply IH.
  - rewrite filter_cons_True by done. cbn [parseLines]. rewrite Hign.
    destruct (parseLine line envMap) as [[k v] [err|]]; [done|apply IH].
Qed.

(** ** The delimiter of a line *)

Lemma Index_ge s c : (-1 ≤ strings.Index s c)%Z.
Proof.
  induction s as [|x t IH]; simpl; [lia|].
  destruct (Ascii.eqb x c); [lia|].
  destruct (Z.eqb_spec (strings.Index t c) (-1)); lia.
Qed.

(** The index of a byte behind a text that does not hold it. *)
Lemma Index_app a s c :
  strings.Contains a c = false →
  strings.Index (a +:+ s) c =
    if (strings.Index s c =? -1)%Z then (-1)%Z
    else (Z.of_nat (String.length a) + strings.Index s c)%Z.
Proof.
  induction a as [|x a IH]; intros Ha.
  - rewrite app_empty_l. cbn [String.length].
    destruct (Z.eqb_spec (strings.Index s c) (-1)); lia.
  - cbn in Ha. apply orb_false_iff in Ha as [Hx Ha].
    rewrite app_cons. cbn [strings.Index String.length]. rewrite Hx, IH by done.
    destruct (Z.eqb_spec (strings.Index s c) (-1)) as [Hs|Hs]; [done|].
    pose proof (Index_ge s c).
    destruct (Z.eqb_spec (Z.of_nat (String.length a) + strings.Index s c)
                (-1)); lia.
Qed.

Lemma Index_head c t : strings.Index (String c t) c = 0%Z.
Proof. simpl. by rewrite Ascii.eqb_refl. Qed.

Lemma Index_skip x t c :
  x ≠ c →
  strings.Index (String x t) c = (-1)%Z ∨ (0 < strings.Index (String x t) c)%Z.
Proof.
  intros Hne. simpl. apply Ascii.eqb_neq in Hne as ->.
  pose proof (Index_ge t c).
  destruct (Z.eqb_spec (strings.Index t c) (-1)); lia.
Qed.

(** The stripped line is split at its first delimiter, an equals sign or a
    colon. *)
Lemma parseLine_first_delimiter line key d rest envMap :
  removeComments line = key +:+ String d rest →
  d = "="%char ∨ d = ":"%char →
  strings.Contains key "=" = false →
  strings.Contains key ":" = false →
  parseLine line envMap =
    (regexp.ReplaceAllString exportRegex key 1, parseValue rest envMap, None).
Proof.
  intros Hline Hd Heq Hcol. unfold parseLine. rewrite Hline, !SplitN_2.
  rewrite (Index_app key _ "=" Heq), (Index_app key _ ":" Hcol).
  destruct Hd as [-> | ->].
  - rewrite (Cut_app _ _ _ Heq), Index_head.
    pose proof (Index_skip "=" rest ":") as Hskip.
    repeat match goal with
           | |- context [Z.eqb ?a ?b] => destruct (Z.eqb_spec a b)
           | |- context [Z.ltb ?a ?b] => destruct (Z.ltb_spec a b)
           end; try lia; try done.
    destruct Hskip; [done|lia|lia].
  - rewrite (Cut_app _ _ _ Hcol), Index_head.
    pose proof (Index_skip ":" rest "=") as Hskip.
    repeat match goal with
           | |- context [Z.eqb ?a ?b] => destruct (Z.eqb_spec a b)
           | |- context [Z.ltb ?a ?b] => destruct (Z.ltb_spec a b)
           end; try lia; try done.
    destruct Hskip; [done|lia|lia].
Qed.

(** X11. A line is split at the first delimiter of its stripped text,
    whichever of the equals sign and the colon it is: what lies before it
    is the raw key and all that follows is the raw value, with any further
    delimiter in it. *)
Theorem line_splits_at_first_delimiter line key d rest envMap :
  removeComments line = key +:+ String d rest →
  d = "="%char ∨ d = ":"%char →
  strings.Contains key "=" = false →
  strings.Contains key ":" = false →
  parseLine line envMap =
    (regexp.ReplaceAllString exportRegex key 1, parseValue rest envMap, None).
Proof. apply parseLine_first_delimiter. Qed.

(** A colon before an equals sign. *)
Lemma line_splits_at_first_delimiter_witness :
  parseLine "OPTION_A: Foo=bar" ∅ = ("OPTION_A", "Foo=bar", None).
Proof.
  apply (line_splits_at_first_delimiter "OPTION_A: Foo=bar" "OPTION_A" ":"
           " Foo=bar" ∅).
  - reflexivity.
  - by right.
  - reflexivity.
  - reflexivity.
Defined.

(** ** The key of a line *)

Lemma dropSpaces_blank ws t :
  allBytes reSpace ws = true → dropSpaces (ws +:+ t) = dropSpaces t.
Proof.
  induction ws as [|c ws IH]; [done|]. intros H.
  apply andb_true_iff in H as [Hc Hws].
  rewrite app_cons. cbn [dropSpaces]. rewrite Hc. by apply IH.
Qed.

Lemma dropSpaces_all ws :
  allBytes reSpace ws = true → dropSpaces ws = EmptyString.
Proof.
  intros H. rewrite <- (app_empty_r ws). by rewrite dropSpaces_blank.
Qed.

Lemma dropSpaces_head c t :
  reSpace c = false → dropSpaces (String c t) = String c t.
Proof. intros H. cbn. by rewrite H. Qed.

Lemma dropTrailingSpaces_tight name ws :
  allBytes noSpace name = true →
  allBytes reSpace ws = true →
  dropTrailingSpaces (name +:+ ws) = name.
Proof.
  intros Hname Hws. induction name as [|c name IH].
  - by apply dropTrailingSpaces_spaces.
  - apply andb_true_iff in Hname as [Hc Hname].
    apply negb_true_iff in Hc.
    rewrite app_cons, dropTrailingSpaces_cons, IH; [done|done|].
    cbn. by rewrite Hc.
Qed.

(** A prefix without white space lies before the white space of the
    text. *)
Lemma HasPrefix_before_blank w name ws :
  allBytes noSpace w = true →
  allBytes reSpace ws = true →
  strings.HasPrefix (name +:+ ws) w = true →
  strings.HasPrefix name w = true.
Proof.
  intros Hw Hws. revert name. induction w as [|p w IH]; intros name.
  { intros _. apply HasPrefix_empty. }
  apply andb_true_iff in Hw as [Hp Hw]. apply negb_true_iff in Hp.
  destruct name as [|n name].
  - rewrite app_empty_l. destruct ws as [|c ws]; [done|].
    cbn. apply andb_true_iff in Hws as [Hc _].
    destruct (Ascii.eqb_spec c p) as [->|]; [congruence|done].
  - rewrite app_cons. cbn. intros H.
    apply andb_true_iff in H as [-> H]. by apply IH.
Qed.

Lemma HasPrefix_split s w :
  strings.HasPrefix s w = true → s = w +:+ drop_bytes (String.length w) s.
Proof.
  revert s. induction w as [|p w IH]; intros s; [done|].
  destruct s as [|c s]; [done|]. cbn [strings.HasPrefix String.length
    drop_bytes]. intros H.
  apply andb_true_iff in H as [Hc H].
  apply Ascii.eqb_eq in Hc as ->. rewrite app_cons. f_equal. by apply IH.
Qed.

(** The keyword is only taken off a text that has white space after it. *)
Lemma afterExport_tight name ws :
  allBytes noSpace name = true →
  allBytes reSpace ws = true →
  name ≠ "export" →
  afterExport (name +:+ ws) = name +:+ ws.
Proof.
  intros Hname Hws Hne. unfold afterExport.
  destruct (drop_bytes 6 (name +:+ ws)) as [|c t] eqn:Hdrop; [done|].
  destruct (strings.HasPrefix (name +:+ ws) "export") eqn:Hpre; [|done].
  apply (HasPrefix_before_blank "export" name ws eq_refl Hws) in Hpre.
  apply HasPrefix_split in Hpre. cbn [String.length] in Hpre.
  destruct (drop_bytes 6 name) as [|x name'] eqn:Htail.
  - rewrite app_empty_r in Hpre. done.
  - rewrite Hpre in Hdrop, Hname.
    change (drop_bytes 6 (("export" +:+ String x name') +:+ ws))
      with (String x name' +:+ ws) in Hdrop.
    rewrite app_cons in Hdrop. injection Hdrop as <- _.
    change (allBytes noSpace ("export" +:+ String x name'))
      with (noSpace x && allBytes noSpace name') in Hname.
    apply andb_true_iff in Hname as [Hx _].
    apply negb_true_iff in Hx. by rewrite Hx.
Qed.

Lemma afterExport_keyword ws t :
  ws ≠ EmptyString →
  allBytes reSpace ws = true →
  afterExport ("export" +:+ ws +:+ t) = dropSpaces t.
Proof.
  intros Hne Hws. destruct ws as [|c ws]; [done|].
  apply andb_true_iff in Hws as [Hc Hws].
  unfold afterExport.
  change (drop_bytes 6 ("export" +:+ String c ws +:+ t))
    with (String c ws +:+ t).
  rewrite app_cons.
  change (strings.HasPrefix ("export" +:+ String c (ws +:+ t)) "export")
    with (strings.HasPrefix (String c (ws +:+ t)) EmptyString).
  cbn [strings.HasPrefix andb]. rewrite Hc. by apply dropSpaces_blank.
Qed.

Lemma noSpace_no_newline name :
  allBytes noSpace name = true → strings.Contains name newline = false.
Proof. intros H. by apply (Contains_allBytes noSpace). Qed.

(** The key pattern gives the text that remains once the leading white
    space, the keyword and the trailing white space are gone, when that text
    holds no white space. *)
Lemma exportRegex_key rawKey name :
  dropTrailingSpaces (afterExport (dropSpaces rawKey)) = name →
  allBytes noSpace name = true →
  regexp.ReplaceAllString exportRegex rawKey 1 = name.
Proof.
  intros Hbody Hname. rewrite exportRegex_replace. unfold exportMatch.
  by rewrite Hbody, noSpace_no_newline.
Qed.

Lemma dropSpaces_tight ws name ws' :
  allBytes reSpace ws = true →
  allBytes noSpace name = true →
  allBytes reSpace ws' = true →
  dropSpaces (ws +:+ name +:+ ws')
    = match name with EmptyString => EmptyString | _ => name +:+ ws' end.
Proof.
  intros Hws Hname Hws'. rewrite dropSpaces_blank by done.
  destruct name as [|c name].
  - rewrite app_empty_l. by apply dropSpaces_all.
  - apply andb_true_iff in Hname as [Hc _]. apply negb_true_iff in Hc.
    rewrite app_cons. by apply dropSpaces_head.
Qed.

Lemma exportRegex_plain_key ws1 name ws3 :
  allBytes reSpace ws1 = true →
  allBytes noSpace name = true →
  allBytes reSpace ws3 = true →
  name ≠ "export" →
  regexp.ReplaceAllString exportRegex (ws1 +:+ name +:+ ws3) 1 = name.
Proof.
  intros H1 Hname H3 Hne. apply exportRegex_key; [|done].
  rewrite dropSpaces_tight by done. destruct name as [|c name]; [done|].
  rewrite afterExport_tight by done. by apply dropTrailingSpaces_tight.
Qed.

Lemma exportRegex_exported_key ws1 ws2 name ws3 :
  allBytes reSpace ws1 = true →
  allBytes reSpace ws2 = true →
  allBytes reSpace ws3 = true →
  allBytes noSpace name = true →
  ws2 ≠ EmptyString →
  regexp.ReplaceAllString exportRegex
    (ws1 +:+ "export" +:+ ws2 +:+ name +:+ ws3) 1 = name.
Proof.
  intros H1 H2 H3 Hname Hne. apply exportRegex_key; [|done].
  rewrite dropSpaces_blank by done.
  change (dropSpaces ("export" +:+ ws2 +:+ name +:+ ws3))
    with ("export" +:+ ws2 +:+ name +:+ ws3).
  rewrite afterExport_keyword by done.
  pose proof (dropSpaces_tight EmptyString name ws3 eq_refl Hname H3) as Hd.
  rewrite app_empty_l in Hd. rewrite Hd.
  destruct name as [|c name]; [done|]. by apply dropTrailingSpaces_tight.
Qed.

(** X12. The key of a line is its raw key without the white space around
    it and without a leading keyword [export] that white space follows.
    So a key may begin with the letters of the keyword, but the key
    [export] itself is lost when white space follows it: it is taken for
    the keyword, and the key is empty. *)
Theorem key_is_trimmed_and_unexported ws1 ws2 ws3 name :
  allBytes reSpace ws1 = true →
  allBytes reSpace ws2 = true →
  allBytes reSpace ws3 = true →
  allBytes noSpace name = true →
  ws2 ≠ EmptyString →
  regexp.ReplaceAllString exportRegex
    (ws1 +:+ "export" +:+ ws2 +:+ name +:+ ws3) 1 = name ∧
  (name ≠ "export" →
   regexp.ReplaceAllString exportRegex (ws1 +:+ name +:+ ws3) 1 = name) ∧
  regexp.ReplaceAllString exportRegex (ws1 +:+ "export" +:+ ws2) 1
    = EmptyString.
Proof.
  intros H1 H2 H3 Hname Hne. split; [by apply exportRegex_exported_key|].
  split; [intros Hkey; by apply exportRegex_plain_key|].
  pose proof (exportRegex_exported_key ws1 ws2 EmptyString EmptyString
                H1 H2 eq_refl eq_refl Hne) as H.
  by rewrite !app_empty_r in H.
Qed.

(** A key that begins with the letters of the keyword. *)
Lemma key_is_trimmed_and_unexported_witness :
  regexp.ReplaceAllString exportRegex (" " +:+ "export" +:+ "  " +:+
    "exportFoo" +:+ " ") 1 = "exportFoo" ∧
  regexp.ReplaceAllString exportRegex (" " +:+ "exportFoo" +:+ " ") 1
    = "exportFoo" ∧
  regexp.ReplaceAllString exportRegex (" " +:+ "export" +:+ "  ") 1
    = EmptyString.
Proof.
  destruct (key_is_trimmed_and_unexported " " "  " " " "exportFoo")
    as (Ha & Hb & Hc); try reflexivity; [discriminate|].
  split; [exact Ha|]. split; [|exact Hc]. apply Hb. discriminate.
Defined.

(** ** Values without quotes *)

Lemma TrimLeft_blank l t :
  allBytes spaceByte l = true →
  strings.TrimLeft (l +:+ t) " " = strings.TrimLeft t " ".
Proof.
  induction l as [|c l IH]; [done|]. intros H.
  apply andb_true_iff in H as [Hc Hl]. unfold spaceByte in Hc.
  rewrite app_cons. cbn [strings.TrimLeft]. rewrite Hc. by apply IH.
Qed.

Lemma TrimRight_all r :
  allBytes spaceByte r = true → strings.TrimRight r " " = EmptyString.
Proof.
  induction r as [|c r IH]; [done|]. intros H.
  apply andb_true_iff in H as [Hc Hr]. unfold spaceByte in Hc.
  cbn [strings.TrimRight]. by rewrite IH, Hc.
Qed.

Lemma TrimRight_blank s r :
  allBytes spaceByte r = true →
  strings.TrimRight (s +:+ r) " " = strings.TrimRight s " ".
Proof.
  intros Hr. induction s as [|x s IH].
  - rewrite app_empty_l. by apply TrimRight_all.
  - rewrite app_cons. cbn [strings.TrimRight]. by rewrite IH.
Qed.

Lemma lastByte_is_Some x t : is_Some (lastByte (String x t)).
Proof.
  revert x. induction t as [|d t IH]; intros x; [by eexists|].
  change (lastByte (String x (String d t))) with (lastByte (String d t)).
  apply IH.
Qed.

(** [Trim] takes the spaces off a text that has none at its ends. *)
Lemma Trim_blank l v r :
  allBytes spaceByte l = true →
  allBytes spaceByte r = true →
  headSatisfies spaceByte v = false →
  lastByte v ≠ Some " "%char →
  strings.Trim (l +:+ v +:+ r) " " = v.
Proof.
  intros Hl Hr Hhead Hlast. unfold strings.Trim.
  rewrite TrimLeft_blank by done.
  destruct v as [|x t].
  - rewrite app_empty_l.
    assert (strings.TrimLeft r " " = EmptyString) as ->; [|done].
    rewrite <- (app_empty_r r). by rewrite TrimLeft_blank.
  - rewrite app_cons.
    rewrite (TrimLeft_head _ " " x (t +:+ r)); [|done|].
    + rewrite <- app_cons, TrimRight_blank by done.
      destruct (lastByte_is_Some x t) as [y Hy].
      apply (TrimRight_last _ _ y); [done|congruence].
    + cbn in Hhead. unfold spaceByte in Hhead.
      by apply Ascii.eqb_neq in Hhead.
Qed.

(** The interpolator copies a text without a dollar sign. *)
Lemma expandVarRegex_no_dollar c t :
  strings.Contains (String c t) dollar = false →
  regexp.matchAt expandVarRegex (String c t) = None.
Proof.
  intros H. cbn in H. apply orb_false_iff in H as [Hc Ht].
  rewrite expandVarRegex_matchAt. unfold expandVarMatch. rewrite Hc.
  destruct (Ascii.eqb c bslash); [|done].
  destruct t as [|d t']; [done|].
  cbn in Ht. apply orb_false_iff in Ht as [Hd _]. by rewrite Hd.
Qed.

Lemma expandVariables_no_dollar s m :
  strings.Contains s dollar = false → expandVariables s m = s.
Proof.
  rewrite expandVariables_unfold. induction s as [|c t IH]; [done|].
  intros H. rewrite replaceFrom_miss by by apply expandVarRegex_no_dollar.
  f_equal. apply IH. cbn in H. by apply orb_false_iff in H as [_ ?].
Qed.

(** The decoder on a value that is not wrapped in quotes. *)
Lemma parseValue_unquoted raw m :
  headSatisfies (λ c, negb (noQuote c)) (strings.Trim raw " ") = false →
  parseValue raw m =
    if 1 <? String.length (strings.Trim raw " ")
    then expandVariables (strings.Trim raw " ") m
    else strings.Trim raw " ".
Proof.
  intros Hhead. unfold parseValue.
  destruct (1 <? String.length (strings.Trim raw " ")); [|done].
  rewrite singleQuotesRegex_find, doubleQuotesRegex_find.
  destruct (strings.Trim raw " ") as [|c t]; [done|].
  cbn in Hhead. apply negb_false_iff, andb_true_iff in Hhead as [Hd Hs].
  apply negb_true_iff, Ascii.eqb_neq in Hd.
  apply negb_true_iff, Ascii.eqb_neq in Hs.
  by rewrite !quotedBy_other by done.
Qed.

(** X13. A value that is not wrapped in quotes and holds no dollar sign
    is taken as it is, without the spaces around it: the spaces inside it
    stay, and so do tabs, backslashes and quotes that do not begin it. *)
Theorem unquoted_value_is_trimmed_text l v r m :
  allBytes spaceByte l = true →
  allBytes spaceByte r = true →
  v = EmptyString ∨ headSatisfies opensPlainValue v = true →
  lastByte v ≠ Some " "%char →
  strings.Contains v dollar = false →
  parseValue (l +:+ v +:+ r) m = v.
Proof.
  intros Hl Hr Hhead Hlast Hdollar.
  assert (headSatisfies spaceByte v = false
          ∧ headSatisfies (λ c, negb (noQuote c)) v = false) as [Hsp Hq].
  { destruct Hhead as [-> | Hhead]; [done|].
    destruct v as [|c t]; [done|]. cbn in *.
    apply andb_true_iff in Hhead as [Hc ->].
    by apply negb_true_iff in Hc as ->. }
  assert (strings.Trim (l +:+ v +:+ r) " " = v) as Htrim
    by by apply Trim_blank.
  rewrite parseValue_unquoted; rewrite Htrim; [|done].
  destruct (1 <? String.length v); [|done].
  by apply expandVariables_no_dollar.
Qed.

(** Spaces, an apostrophe and a backslash inside a value. *)
Lemma unquoted_value_is_trimmed_text_witness :
  parseValue ("  " +:+ "it's a\tb c" +:+ " ") ∅ = "it's a\tb c".
Proof.
  apply (unquoted_value_is_trimmed_text "  " "it's a\tb c" " " ∅).
  - reflexivity.
  - reflexivity.
  - by right.
  - discriminate.
  - reflexivity.
Defined.

(** ** References *)

Lemma expandVarTail_bare g1 post :
  headSatisfies
    (λ c, identByte c || Ascii.eqb c "(" || Ascii.eqb c "{" || Ascii.eqb c "}")
    post = false →
  expandVarTail g1 post
    = Some [g1 +:+ str1 dollar; g1; str1 dollar; EmptyString; EmptyString].
Proof.
  intros Hpost. unfold expandVarTail. destruct post as [|c t]; [done|].
  cbn in Hpost.
  apply orb_false_iff in Hpost as [Hpost Hc]. apply Ascii.eqb_neq in Hc.
  apply orb_false_iff in Hpost as [Hpost Ho]. apply Ascii.eqb_neq in Ho.
  apply orb_false_iff in Hpost as [Hid Hp]. apply Ascii.eqb_neq in Hp.
  rewrite !optByte_miss by done. cbn [spanIdent]. rewrite Hid.
  by rewrite optByte_miss by done.
Qed.

(** A dollar sign that no name follows is copied. *)
Lemma expandVariables_bare m post :
  headSatisfies
    (λ c, identByte c || Ascii.eqb c "(" || Ascii.eqb c "{" || Ascii.eqb c "}")
    post = false →
  expandVariables (String dollar post) m
    = String dollar (expandVariables post m).
Proof.
  intros Hpost. rewrite !expandVariables_unfold.
  rewrite (replaceFrom_match _ _ _
             [str1 dollar; EmptyString; str1 dollar; EmptyString; EmptyString]
             post).
  - reflexivity.
  - by rewrite expandVarRegex_dollar, (expandVarTail_bare EmptyString).
  - reflexivity.
  - done.
Qed.

(** X14. A reference, braced or plain, to a name that the mapping binds is
    replaced by the value, wherever it stands in the text (unless a
    backslash is right before it).  The value comes in as it is: a dollar
    sign in it is not expanded again. *)
Theorem known_reference_expands_to_value
    (m : gmap string string) (name value pre post : string) :
  identifier name →
  m !! name = Some value →
  lastByte pre ≠ Some bslash →
  expandVariables (pre +:+ "${" +:+ name +:+ "}" +:+ post) m
    = expandVariables pre m +:+ value +:+ expandVariables post m ∧
  (headSatisfies (λ c, identByte c || Ascii.eqb c "}") post = false →
   expandVariables (pre +:+ "$" +:+ name +:+ post) m
     = expandVariables pre m +:+ value +:+ expandVariables post m).
Proof.
  intros Hname Hm Hpre.
  assert (m !!! name = value) as Hval by by apply lookup_total_correct.
  split.
  - change ("${" +:+ name +:+ "}" +:+ post)
      with (String dollar (String "{" (name +:+ String "}" post))).
    rewrite expandVariables_before_dollar by done.
    by rewrite expandVariables_braced, Hval.
  - intros Hpost.
    change ("$" +:+ name +:+ post) with (String dollar (name +:+ post)).
    rewrite expandVariables_before_dollar by done.
    by rewrite expandVariables_plain, Hval.
Qed.

(** The value of [A] holds a reference to [B], which is left alone. *)
Lemma known_reference_expands_to_value_witness :
  expandVariables "x=${A}." {["A" := "$B"; "B" := "no"]} = "x=$B.".
Proof.
  assert (identifier "A") as Hname by (split; [discriminate|reflexivity]).
  destruct (known_reference_expands_to_value {["A" := "$B"; "B" := "no"]}
              "A" "$B" "x=" "." Hname)
    as [Hbraced _]; [reflexivity|discriminate|].
  exact Hbraced.
Defined.

(** X15. What is not a reference is copied: a text without a dollar sign,
    and a dollar sign that is followed by neither an identifier byte, a
    parenthesis nor a brace.  Identifiers are made of capital letters,
    digits and underscores, so a dollar sign before a small letter is
    copied with the letters after it. *)
Theorem dollar_without_name_is_copied (m : gmap string string) pre post :
  lastByte pre ≠ Some bslash →
  headSatisfies
    (λ c, identByte c || Ascii.eqb c "(" || Ascii.eqb c "{" || Ascii.eqb c "}")
    post = false →
  expandVariables (pre +:+ "$" +:+ post) m
    = expandVariables pre m +:+ "$" +:+ expandVariables post m ∧
  (strings.Contains pre dollar = false → expandVariables pre m = pre).
Proof.
  intros Hpre Hpost. split; [|apply expandVariables_no_dollar].
  change ("$" +:+ post) with (String dollar post).
  rewrite expandVariables_before_dollar by done.
  by rewrite expandVariables_bare.
Qed.

(** A reference to a name in small letters, in a mapping that binds it. *)
Lemma dollar_without_name_is_copied_witness :
  expandVariables "a $home b" {["home" := "/root"]} = "a $home b".
Proof.
  destruct (dollar_without_name_is_copied {["home" := "/root"]}
              "a " "home b")
    as [Hcopy _]; [discriminate|reflexivity|].
  exact Hcopy.
Defined.

(** ** Values in double quotes *)

(** The decoder on an anchored double-quoted wrap: the two escape passes,
    then the interpolator. *)
Lemma parseValue_double_quoted raw inner (m : gmap string string) :
  strings.Trim raw " " = String dquote (inner +:+ str1 dquote) →
  strings.Contains inner newline = false →
  parseValue raw m =
    expandVariables
      (regexp.ReplaceAllString unescapeCharsRegex
         (regexp.ReplaceAllStringFunc escapeRegex inner expandNewline) 1) m.
Proof.
  intros Htrim Hnl. unfold parseValue. rewrite Htrim.
  assert (String.length (String dquote (inner +:+ str1 dquote))
            = S (S (String.length inner))) as Hlen.
  { cbn [String.length]. rewrite length_app_s. cbn. lia. }
  rewrite Hlen. cbn [Nat.ltb Nat.leb].
  rewrite singleQuotesRegex_find, doubleQuotesRegex_find.
  rewrite (quotedBy_wrap dquote inner Hnl), quotedBy_other by done.
  cbn [notNil orb].
  unfold slice. cbn [drop_bytes].
  replace (S (S (String.length inner)) - 1 - 1) with (String.length inner)
    by lia.
  by rewrite take_bytes_app.
Qed.

Lemma plain_no_backslash s c t :
  allBytes plainByte s = true → strings.Contains s c = true →
  regexp.matchAt escapeRegex (String c t) = None
  ∧ regexp.matchAt unescapeCharsRegex (String c t) = None.
Proof.
  intros Hs Hc.
  destruct (plainByte_spec c (Contains_true_allBytes _ _ _ Hs Hc))
    as (Hb & _ & _).
  split; [by apply escapeRegex_head|by apply unescapeCharsRegex_head].
Qed.


Section escape.
Context (a b : string) (c : ascii).
Context (Ha : allBytes plainByte a = true) (Hb : allBytes plainByte b = true).




End escape.



(** ** From one line to the next *)

Lemma allBytes_impl (p q : ascii → bool) s :
  (∀ c, p c = true → q c = true) →
  allBytes p s = true → allBytes q s = true.
Proof.
  intros Hpq. induction s as [|c s IH]; [done|]. cbn. intros H.
  apply andb_true_iff in H as [Hc Hs]. by rewrite (Hpq c Hc), IH.
Qed.

(** An identifier byte is a solid byte, no white space of the key pattern,
    no hash sign and no delimiter. *)
Lemma identByte_solid c :
  identByte c = true →
  solidByte c = true ∧ noSpace c = true ∧ c ≠ hash
  ∧ c ≠ "="%char ∧ c ≠ ":"%char.
Proof.
  destruct c as [[] [] [] [] [] [] [] []]; try discriminate; by intros _.
Qed.

Lemma identifier_no_byte name c :
  allBytes identByte name = true → identByte c = false →
  strings.Contains name c = false.
Proof. intros Hname Hc. by apply (Contains_allBytes identByte). Qed.

Lemma removeComments_no_hash line :
  strings.Contains line hash = false → removeComments line = line.
Proof. intros H. unfold removeComments. by rewrite H. Qed.

Lemma Trim_tight s :
  headSatisfies spaceByte s = false →
  lastByte s ≠ Some " "%char →
  strings.Trim s " " = s.
Proof.
  intros Hhead Hlast.
  pose proof (Trim_blank EmptyString s EmptyString eq_refl eq_refl Hhead Hlast)
    as H.
  by rewrite app_empty_l, app_empty_r in H.
Qed.

Lemma exportRegex_identifier key :
  identifier key → regexp.ReplaceAllString exportRegex key 1 = key.
Proof.
  intros [_ Hkey].
  pose proof (exportRegex_plain_key EmptyString key EmptyString) as H.
  rewrite app_empty_l, app_empty_r in H. apply H; try done.
  - eapply allBytes_impl; [|exact Hkey].
    intros c Hc. by destruct (identByte_solid c Hc) as (_ & ? & _).
  - intros ->. discriminate.
Qed.

(** The decoder on a braced reference. *)
Lemma parseValue_reference name (m : gmap string string) :
  identifier name → parseValue ("${" +:+ name +:+ "}") m = m !!! name.
Proof.
  intros Hname.
  assert (strings.Trim ("${" +:+ name +:+ "}") " " = "${" +:+ name +:+ "}")
    as Htrim.
  { apply Trim_tight; [done|].
    change ("${" +:+ name +:+ "}") with ("${" +:+ (name +:+ str1 "}")).
    rewrite <- app_assoc_s, lastByte_app. discriminate. }
  rewrite parseValue_unquoted; rewrite Htrim; [|done].
  change ("${" +:+ name +:+ "}")
    with (String dollar (String "{" (name +:+ String "}" EmptyString))).
  cbn [String.length Nat.ltb Nat.leb].
  rewrite expandVariables_braced by done.
  change (expandVariables EmptyString m) with EmptyString.
  apply app_empty_r.
Qed.

(** An assignment of a braced reference to an identifier key. *)
Lemma parseLine_reference key name (m : gmap string string) :
  identifier key → identifier name →
  isIgnoredLine (key +:+ "=${" +:+ name +:+ "}") = false ∧
  parseLine (key +:+ "=${" +:+ name +:+ "}") m = (key, m !!! name, None).
Proof.
  intros Hkey Hname. split.
  - destruct Hkey as [Hkne Hkey]. destruct key as [|c key]; [done|].
    cbn in Hkey. apply andb_true_iff in Hkey as [Hc _].
    destruct (identByte_solid c Hc) as (Hsolid & _ & Hhash & _).
    rewrite app_cons.
    pose proof (isIgnoredLine_solid EmptyString c
                  (key +:+ "=${" +:+ name +:+ "}") eq_refl Hsolid) as H.
    rewrite app_empty_l in H. rewrite H. by apply Ascii.eqb_neq.
  - rewrite (parseLine_first_delimiter _ key "=" ("${" +:+ name +:+ "}")).
    + by rewrite exportRegex_identifier, parseValue_reference.
    + destruct Hkey as [_ Hkey], Hname as [_ Hname].
      apply removeComments_no_hash.
      change (strings.Contains (key +:+ ("=${" +:+ (name +:+ "}"))) hash
                = false).
      rewrite !Contains_app.
      by rewrite (identifier_no_byte key), (identifier_no_byte name).
    + by left.
    + destruct Hkey as [_ Hkey]. by apply identifier_no_byte.
    + destruct Hkey as [_ Hkey]. by apply identifier_no_byte.
Qed.

(** X17. A line can refer to the names that the lines before it have
    bound in the same document: the reference takes the value they gave,
    and the empty string when none of them binds the name. *)
Theorem later_line_sees_earlier_assignment lines m key name :
  parse (document lines) = (m, None) →
  identifier key →
  identifier name →
  (∀ value,
     m !! name = Some value →
     parse (document (lines ++ [key +:+ "=${" +:+ name +:+ "}"]))
       = (<[key := value]> m, None)) ∧
  (m !! name = None →
   parse (document (lines ++ [key +:+ "=${" +:+ name +:+ "}"]))
     = (<[key := EmptyString]> m, None)).
Proof.
  intros Hparse Hkey Hname.
  assert (parse (document (lines ++ [key +:+ "=${" +:+ name +:+ "}"]))
            = (<[key := m !!! name]> m, None)) as ->.
  { unfold parse, document in *. cbn [scanErr scanLines] in *.
    rewrite parseLines_app, Hparse. cbn [parseLines].
    by destruct (parseLine_reference key name m Hkey Hname) as [-> ->]. }
  split.
  - intros value Hm. by rewrite (lookup_total_correct _ _ _ Hm).
  - intros Hnone. by rewrite lookup_total_alt, Hnone.
Qed.

(** The second line refers to the first one. *)
Lemma later_line_sees_earlier_assignment_witness :
  parse (document ["A=1"; "B=${A}"])
    = (<["B" := "1"]> {["A" := "1"]}, None).
Proof.
  assert (identifier "B") as HB by (split; [discriminate|reflexivity]).
  assert (identifier "A") as HA by (split; [discriminate|reflexivity]).
  destruct (later_line_sees_earlier_assignment ["A=1"] {["A" := "1"]}
              "B" "A" eq_refl HB HA) as [Hrun _].
  apply Hrun. reflexivity.
Defined.

(** ** What the comment stripper keeps *)

(** One round of the loop keeps or appends the segment, and appends it
    when nothing is kept yet. *)
Lemma commentStep_append quotesAreOpen keep segment :
  ((commentStep (quotesAreOpen, keep) segment).2 = keep
   ∨ (commentStep (quotesAreOpen, keep) segment).2 = keep ++ [segment])
  ∧ (keep = [] → (commentStep (quotesAreOpen, keep) segment).2 = [segment]).
Proof.
  assert (∀ l : list string, (length (l ++ [segment]) =? 0) = false) as Hlen.
  { intros l. rewrite length_app. cbn. apply Nat.eqb_neq. lia. }
  unfold commentStep.
  destruct (_ || _), quotesAreOpen; cbn [orb].
  - rewrite Hlen. cbn [snd]. split; [by right|by intros ->].
  - rewrite orb_true_r. cbn [snd]. split; [by right|by intros ->].
  - rewrite orb_true_r. cbn [snd]. split; [by right|by intros ->].
  - destruct keep as [|s keep]; cbn; (split; [|done]); [by right|by left].
Qed.

Lemma commentLoop_selection segments st processed :
  sublist st.2 processed →
  head st.2 = head processed →
  sublist (fold_left commentStep segments st).2 (processed ++ segments)
  ∧ head (fold_left commentStep segments st).2
      = head (processed ++ segments).
Proof.
  revert st processed.
  induction segments as [|seg segments IH]; intros [isOpen keep] processed;
    cbn [fold_left snd]; intros Hsub Hhead.
  - by rewrite app_nil_r.
  - replace (processed ++ seg :: segments)
      with ((processed ++ [seg]) ++ segments)
      by by rewrite <- (assoc_L (++)).
    destruct (commentStep_append isOpen keep seg) as [Hstep Hfirst].
    destruct (commentStep (isOpen, keep) seg) as [isOpen' keep'] eqn:Hst.
    cbn [snd] in Hstep, Hfirst.
    apply IH; cbn [snd].
    + destruct Hstep as [-> | ->].
      * by apply sublist_inserts_r.
      * by apply sublist_app.
    + destruct keep as [|x keep].
      * rewrite (Hfirst eq_refl).
        destruct processed as [|p processed]; [done|discriminate].
      * destruct processed as [|p processed]; [discriminate|].
        by destruct Hstep as [-> | ->].
Qed.

Lemma removeComments_selection line :
  ∃ kept,
    removeComments line = strings.Join kept hash ∧
    sublist kept (strings.Split line hash) ∧
    head kept = head (strings.Split line hash).
Proof.
  unfold removeComments. destruct (strings.Contains line hash) eqn:Hhash.
  - destruct (commentLoop_selection (strings.Split line hash) (false, []) [])
      as [Hsub Hhead]; [done|done|].
    destruct (fold_left _ _ _) as [isOpen kept]. by exists kept.
  - exists [line]. by rewrite Split_no_sep.
Qed.

(** X18. The comment stripper only selects: its result is made of
    segments of the line between hash signs, in their order and joined by
    hash signs again, and the first segment, the text before the first
    hash sign, is always among them. *)
Theorem removeComments_keeps_a_selection line :
  ∃ kept,
    removeComments line = strings.Join kept hash ∧
    sublist kept (strings.Split line hash) ∧
    head kept = head (strings.Split line hash).
Proof. apply removeComments_selection. Qed.

(** X19. A trailing comment that holds exactly one quote byte, an
    apostrophe for instance, is not stripped: the stripper takes the quote
    for the opening of a quoted text and keeps the segment, so the comment
    ends up in the value. *)
Theorem comment_with_lone_quote_is_kept code comment :
  allBytes noQuoteNoHash code = true →
  togglesQuote comment = true →
  strings.Contains comment hash = false →
  removeComments (code +:+ "#" +:+ comment) = code +:+ "#" +:+ comment.
Proof.
  intros Hcode Htoggle Hno.
  destruct (noQuoteNoHash_weaken code Hcode) as [Hquote Hhash].
  change (code +:+ "#" +:+ comment) with (code +:+ String hash comment).
  unfold removeComments.
  rewrite Contains_app. cbn [strings.Contains]. rewrite Ascii.eqb_refl.
  rewrite orb_true_r, Split_app_sep, !Split_no_sep by done.
  cbn [app fold_left].
  rewrite commentStep_plain by by apply togglesQuote_none.
  cbn [length Nat.eqb orb app].
  by rewrite commentStep_toggle.
Qed.

(** The apostrophe of the comment opens a quoted text that never ends. *)
Lemma comment_with_lone_quote_is_kept_witness :
  removeComments ("FOO=bar " +:+ "#" +:+ " it's a comment")
    = "FOO=bar " +:+ "#" +:+ " it's a comment" ∧
  parseLine "FOO=bar # it's a comment" ∅
    = ("FOO", "bar # it's a comment", None).
Proof.
  split; [|vm_compute; reflexivity].
  apply (comment_with_lone_quote_is_kept "FOO=bar " " it's a comment");
    reflexivity.
Defined.

(** ** The keys of a document *)

Lemma Contains_notNewline s :
  strings.Contains s newline = false ↔ allBytes notNewline s = true.
Proof.
  induction s as [|c s IH]; [done|]. cbn. unfold notNewline at 1.
  rewrite orb_false_iff, andb_true_iff, negb_true_iff, IH. done.
Qed.

Lemma Join_allBytes (p : ascii → bool) elems sep :
  p sep = true →
  Forall (λ e, allBytes p e = true) elems →
  allBytes p (strings.Join elems sep) = true.
Proof.
  intros Hsep. induction 1 as [|e elems He Hrest IH]; [done|].
  destruct elems as [|e' elems]; [done|].
  rewrite Join_cons_cons.
  assert (∀ a b, allBytes p a = true → allBytes p b = true →
                 allBytes p (a +:+ b) = true) as Happ.
  { intros a b Ha Hb. induction a as [|c a IHa]; [done|].
    cbn in Ha. apply andb_true_iff in Ha as [Hc Ha].
    rewrite app_cons. cbn. by rewrite Hc, IHa. }
  apply Happ; [done|]. cbn [allBytes]. by rewrite Hsep, IH.
Qed.

(** The stripper brings no newline into a line that has none. *)
Lemma removeComments_no_newline line :
  strings.Contains line newline = false →
  strings.Contains (removeComments line) newline = false.
Proof.
  rewrite !Contains_notNewline. intros Hline.
  destruct (removeComments_selection line) as (kept & -> & Hsub & _).
  apply Join_allBytes; [done|].
  pose proof (Split_pieces notNewline line hash Hline) as Hall.
  rewrite Forall_forall in Hall. apply Forall_forall.
  intros seg Hseg. apply Hall. by eapply elem_of_sublist.
Qed.

Lemma dropTrailingSpaces_prefix t : ∃ b, t = dropTrailingSpaces t +:+ b.
Proof.
  induction t as [|c t [b IH]]; [by exists EmptyString|].
  cbn [dropTrailingSpaces].
  destruct (dropTrailingSpaces t) as [|d t'] eqn:Ht.
  - rewrite app_empty_l in IH. subst b.
    destruct (reSpace c); [by exists (String c t)|by exists t].
  - exists b. rewrite app_cons. by f_equal.
Qed.

Lemma dropSpaces_head_solid s : headSatisfies reSpace (dropSpaces s) = false.
Proof.
  induction s as [|c s IH]; [done|]. cbn [dropSpaces].
  destruct (reSpace c) eqn:Hc; [done|]. cbn. done.
Qed.

Lemma afterExport_head_solid s :
  headSatisfies reSpace s = false →
  headSatisfies reSpace (afterExport s) = false.
Proof.
  intros Hs. unfold afterExport.
  destruct (drop_bytes 6 s) as [|c t]; [done|].
  destruct (_ && _); [apply dropSpaces_head_solid|done].
Qed.

Lemma dropTrailingSpaces_tight_ends s :
  headSatisfies reSpace s = false → tight (dropTrailingSpaces s).
Proof.
  intros Hhead. split.
  - destruct s as [|c s]; [done|]. cbn in Hhead. cbn [dropTrailingSpaces].
    rewrite Hhead. by destruct (dropTrailingSpaces s); cbn.
  - clear Hhead. induction s as [|x s IH]; [done|].
    cbn [dropTrailingSpaces].
    destruct (dropTrailingSpaces s) as [|y t'] eqn:Ht.
    + destruct (reSpace x) eqn:Hx; [done|]. intros c [= <-]. done.
    + intros c Hc. by apply IH.
Qed.

(** The key pattern leaves no white space at the ends of a key without a
    newline. *)
Lemma exportRegex_tight rawKey :
  strings.Contains rawKey newline = false →
  tight (regexp.ReplaceAllString exportRegex rawKey 1).
Proof.
  intros Hnl. rewrite exportRegex_replace. unfold exportMatch.
  set (body := dropTrailingSpaces (afterExport (dropSpaces rawKey))).
  assert (strings.Contains body newline = false) as ->.
  { destruct (dropSpaces_suffix rawKey) as [a Ha].
    destruct (afterExport_suffix (dropSpaces rawKey)) as [a' Ha'].
    destruct (dropTrailingSpaces_prefix (afterExport (dropSpaces rawKey)))
      as [b Hb].
    fold body in Hb. rewrite Ha, Ha', Hb, !Contains_app in Hnl.
    apply orb_false_iff in Hnl as [_ Hnl].
    apply orb_false_iff in Hnl as [_ Hnl].
    by apply orb_false_iff in Hnl as [Hnl _]. }
  cbn [regexp.group nth].
  apply dropTrailingSpaces_tight_ends, afterExport_head_solid,
    dropSpaces_head_solid.
Qed.

Lemma parseLine_key_tight line envMap k v :
  strings.Contains line newline = false →
  parseLine line envMap = (k, v, None) →
  tight k.
Proof.
  intros Hnl. apply removeComments_no_newline in Hnl. revert Hnl.
  unfold parseLine. set (l := removeComments line). rewrite !SplitN_2.
  intros Hnl.
  assert (∀ d a b, strings.Cut l d = Some (a, b) →
                   tight (regexp.ReplaceAllString exportRegex a 1)) as Hcut.
  { intros d a b Hab. apply exportRegex_tight.
    apply Cut_split in Hab as [Hl _]. rewrite Hl, Contains_app in Hnl.
    by apply orb_false_iff in Hnl as [? _]. }
  destruct (_ && _).
  - destruct (strings.Cut l ":") as [[a b]|] eqn:Hab; [|done].
    intros [= <- _]. by eapply Hcut.
  - destruct (strings.Cut l "=") as [[a b]|] eqn:Hab; [|done].
    intros [= <- _]. by eapply Hcut.
Qed.

Lemma parseLines_keys_tight lines envMap m e :
  parseLines lines envMap = (m, e) →
  Forall (λ line, strings.Contains line newline = false) lines →
  (∀ k, is_Some (envMap !! k) → tight k) →
  ∀ k, is_Some (m !! k) → tight k.
Proof.
  revert envMap. induction lines as [|line lines IH]; intros envMap Hrun Hnl.
  - cbn in Hrun. by injection Hrun as <- _.
  - apply Forall_cons in Hnl as [Hline Hnl]. cbn [parseLines] in Hrun.
    destruct (isIgnoredLine line); [by eapply IH|].
    destruct (parseLine line envMap) as [[k v] [err|]] eqn:Hpl.
    + by injection Hrun as <- _.
    + intros Hinv. eapply IH; [done|done|].
      intros j Hj. destruct (decide (j = k)) as [->|Hne].
      * by eapply parseLine_key_tight.
      * rewrite lookup_insert_ne in Hj by done. by apply Hinv.
Qed.

(** X20. Every key of the mapping that the parser returns, with or
    without an error, is free of white space at both ends (the lines that
    a scanner yields hold no newline). *)
Theorem keys_have_no_outer_white_space lines m e :
  parse (document lines) = (m, e) →
  Forall (λ line, strings.Contains line newline = false) lines →
  ∀ k, is_Some (m !! k) → tight k.
Proof.
  unfold parse, document. cbn [scanErr scanLines]. intros Hrun Hnl.
  eapply parseLines_keys_tight; [done|done|].
  intros k [v Hk]. by rewrite lookup_empty in Hk.
Qed.

(** An indented assignment after the keyword, with spaces before the
    delimiter. *)
Lemma keys_have_no_outer_white_space_witness :
  (parse (document ["  export  KEY  = value"; "OTHER : 2"])).1 !! "KEY"
    = Some "value" ∧
  tight "KEY".
Proof.
  split; [vm_compute; reflexivity|].
  apply (keys_have_no_outer_white_space
           ["  export  KEY  = value"; "OTHER : 2"]
           (parse (document ["  export  KEY  = value"; "OTHER : 2"])).1
           None).
  - vm_compute. reflexivity.
  - repeat constructor.
  - exists "value". vm_compute. reflexivity.
Defined.

(** ** The other versions of the package *)

(** X21. The version with the variable holder gives what the options
    give: a holder with its file names is the call of [Get] with the
    options [Variables] and [From], and with [PrioritizeSystem] when the
    holder has the priority set; [Get] on a holder reads the default
    file. *)
Theorem holder_agrees_with_options sys fs vars names :
  holder.GetFrom sys fs (holder.Variables vars) names
    = Get sys fs [Variables vars; From names] ∧
  holder.GetFrom sys fs (holder.PrioritizeSystem (holder.Variables vars))
    names
    = Get sys fs [Variables vars; PrioritizeSystem; From names] ∧
  holder.Get sys fs (holder.Variables vars)
    = Get sys fs [Variables vars; From [".env"]] ∧
  holder.Get sys fs (holder.PrioritizeSystem (holder.Variables vars))
    = Get sys fs [PrioritizeSystem; Variables vars].
Proof. repeat split; reflexivity. Qed.

(** ** The version with [Read] *)

Lemma readonly_parseLine line envMap :
  isIgnoredLine line = false →
  readonly.parseLine line envMap =
    let '(key, value, err) := parseLine line envMap in
    (key, value, readonly.Shared <$> err).
Proof.
  intros Hign. unfold readonly.parseLine.
  destruct line as [|c line]; [discriminate Hign|done].
Qed.

Lemma readonly_parseLines lines envMap :
  readonly.parseLines lines envMap =
    ((parseLines lines envMap).1,
     readonly.Shared <$> (parseLines lines envMap).2).
Proof.
  revert envMap. induction lines as [|line lines IH]; intros envMap; [done|].
  cbn [readonly.parseLines parseLines].
  destruct (isIgnoredLine line) eqn:Hign; [apply IH|].
  rewrite readonly_parseLine by done.
  destruct (parseLine line envMap) as [[k v] [err|]]; [done|apply IH].
Qed.

Lemma readonly_readFile fs filename :
  readonly.readFile fs filename =
    ((readFile fs filename).1,
     readonly.Shared <$> (readFile fs filename).2).
Proof.
  unfold readonly.readFile, readFile.
  destruct (fs filename) as [err|r]; [done|].
  unfold readonly.parse, parse. destruct (scanErr r); [done|].
  apply readonly_parseLines.
Qed.

Lemma readonly_readFiles fs filenames envMap :
  readonly.readFiles fs filenames envMap =
    ((readFiles fs filenames envMap).1,
     readonly.Shared <$> (readFiles fs filenames envMap).2).
Proof.
  revert envMap.
  induction filenames as [|f filenames IH]; intros envMap; [done|].
  cbn [readonly.readFiles readFiles]. rewrite readonly_readFile.
  destruct (readFile fs f) as [ind [err|]]; [done|apply IH].
Qed.

(** X22. The test for the empty line in the [parseLine] of the version
    with [Read] never fires: the parser skips the empty lines before it
    calls [parseLine].  So [Read] returns the mapping and the error that
    the [read] of the other versions returns on the same file names, and
    never the error of the empty line. *)
Theorem readonly_read_agrees_with_read fs filenames :
  readonly.Read fs filenames =
    ((read fs (filenamesOrDefault filenames)).1,
     readonly.Shared <$> (read fs (filenamesOrDefault filenames)).2) ∧
  (readonly.Read fs filenames).2 ≠ Some readonly.EmptyLine.
Proof.
  unfold readonly.Read, read. rewrite readonly_readFiles. split; [done|].
  cbn [snd]. by destruct (readFiles fs _ ∅).2.
Qed.

(** ** References in double quotes, and comments without quotes *)

Section quoted_reference.
Context (m : gmap string string) (a b name : string).
Context (Ha : allBytes plainByte a = true) (Hb : allBytes plainByte b = true).
Context (Hname : identifier name).

Lemma reference_no_backslash c t :
  strings.Contains (a +:+ String dollar (String "{" (name +:+ String "}" b))) c
    = true →
  regexp.matchAt escapeRegex (String c t) = None
  ∧ regexp.matchAt unescapeCharsRegex (String c t) = None.
Proof.
  assert (c ≠ bslash →
          regexp.matchAt escapeRegex (String c t) = None
          ∧ regexp.matchAt unescapeCharsRegex (String c t) = None) as Hne.
  { intros Hc.
    split; [by apply escapeRegex_head|by apply unescapeCharsRegex_head]. }
  rewrite Contains_app. cbn [strings.Contains]. rewrite Contains_app.
  cbn [strings.Contains]. intros H.
  repeat (apply orb_true_iff in H as [H|H]).
  - by apply (plain_no_backslash a).
  - apply Ascii.eqb_eq in H as <-. by apply Hne.
  - apply Ascii.eqb_eq in H as <-. by apply Hne.
  - destruct Hname as [_ Hn]. apply Hne.
    by destruct (identifier_bytes name c Hn H).
  - apply Ascii.eqb_eq in H as <-. by apply Hne.
  - by apply (plain_no_backslash b).
Qed.

Lemma passes_keep_reference :
  regexp.ReplaceAllString unescapeCharsRegex
    (regexp.ReplaceAllStringFunc escapeRegex
       (a +:+ String dollar (String "{" (name +:+ String "}" b)))
       expandNewline) 1
  = a +:+ String dollar (String "{" (name +:+ String "}" b)).
Proof.
  change (regexp.ReplaceAllStringFunc escapeRegex ?src expandNewline)
    with (regexp.replaceFrom (regexp.matchAt escapeRegex)
            (λ submatch, expandNewline (regexp.group submatch 0)) 0 src).
  rewrite replaceFrom_copy_all
    by (intros c t Hc; by destruct (reference_no_backslash c t Hc)).
  change (regexp.ReplaceAllString unescapeCharsRegex ?src 1)
    with (regexp.replaceFrom (regexp.matchAt unescapeCharsRegex)
            (λ submatch, regexp.group submatch 1) 0 src).
  apply replaceFrom_copy_all.
  intros c t Hc. by destruct (reference_no_backslash c t Hc).
Qed.

Lemma plain_facts s :
  allBytes plainByte s = true →
  strings.Contains s newline = false ∧ strings.Contains s dollar = false
  ∧ lastByte s ≠ Some bslash.
Proof.
  intros Hs. split; [by apply (Contains_allBytes plainByte)|].
  split; [by apply (Contains_allBytes plainByte)|].
  induction s as [|c s IH]; [done|].
  cbn in Hs. apply andb_true_iff in Hs as [Hc Hs].
  destruct s as [|d s]; [|by apply IH].
  cbn. intros [= ->]. done.
Qed.

Lemma parseValue_quoted_reference :
  parseValue
    (inDoubleQuotes (a +:+ String dollar (String "{" (name +:+ String "}" b))))
    m
  = a +:+ (m !!! name) +:+ b.
Proof.
  destruct (plain_facts a Ha) as (Hna & Hda & Hla).
  destruct (plain_facts b Hb) as (Hnb & Hdb & _).
  rewrite (parseValue_double_quoted _
             (a +:+ String dollar (String "{" (name +:+ String "}" b)))).
  - rewrite passes_keep_reference.
    rewrite expandVariables_before_dollar by done.
    rewrite expandVariables_braced by done.
    by rewrite !expandVariables_no_dollar.
  - by apply Trim_quoted.
  - destruct Hname as [_ Hn].
    rewrite Contains_app. cbn [strings.Contains]. rewrite Contains_app.
    cbn [strings.Contains].
    by rewrite Hna, Hnb, (Contains_allBytes identByte name).
Qed.
End quoted_reference.

(** X23. Double quotes do not protect a reference: inside them a braced
    reference is replaced by the value of the name, and by the empty
    string when the mapping does not bind the name. *)
Theorem double_quoted_reference_is_expanded
    (m : gmap string string) (a b name : string) :
  allBytes plainByte a = true →
  allBytes plainByte b = true →
  identifier name →
  (∀ value,
     m !! name = Some value →
     parseValue (inDoubleQuotes (a +:+ "${" +:+ name +:+ "}" +:+ b)) m
       = a +:+ value +:+ b) ∧
  (m !! name = None →
   parseValue (inDoubleQuotes (a +:+ "${" +:+ name +:+ "}" +:+ b)) m
     = a +:+ b).
Proof.
  intros Ha Hb Hname.
  change (a +:+ "${" +:+ name +:+ "}" +:+ b)
    with (a +:+ String dollar (String "{" (name +:+ String "}" b))).
  rewrite parseValue_quoted_reference by done. split.
  - intros value Hm. by rewrite (lookup_total_correct _ _ _ Hm).
  - intros Hnone. by rewrite lookup_total_alt, Hnone.
Qed.

(** A reference between two words. *)
Lemma double_quoted_reference_is_expanded_witness :
  parseValue (inDoubleQuotes ("to " +:+ "${" +:+ "WHO" +:+ "}" +:+ "!"))
    {["WHO" := "you"]}
    = "to " +:+ "you" +:+ "!".
Proof.
  assert (identifier "WHO") as Hname by (split; [discriminate|reflexivity]).
  destruct (double_quoted_reference_is_expanded {["WHO" := "you"]}
              "to " "!" "WHO" eq_refl eq_refl Hname) as [Hsome _].
  apply Hsome. reflexivity.
Defined.

(** X24. On a line without quotes the comment goes in full: the stripper
    keeps the text before the first hash sign and nothing else, whatever
    further hash signs the comment holds. *)
Theorem comment_without_quotes_is_dropped code comment :
  allBytes noQuoteNoHash code = true →
  allBytes noQuote comment = true →
  removeComments (code +:+ "#" +:+ comment) = code.
Proof.
  intros Hcode Hcomment.
  destruct (noQuoteNoHash_weaken code Hcode) as [Hquote Hhash].
  change (code +:+ "#" +:+ comment) with (code +:+ String hash comment).
  unfold removeComments.
  rewrite Contains_app. cbn [strings.Contains]. rewrite Ascii.eqb_refl.
  rewrite orb_true_r, Split_app_sep, (Split_no_sep code) by done.
  cbn [app fold_left].
  rewrite commentStep_plain by by apply togglesQuote_none.
  cbn [length Nat.eqb orb app].
  rewrite commentLoop_drop; [done|done|].
  by apply Split_pieces.
Qed.

(** A comment with a second hash sign. *)
Lemma comment_without_quotes_is_dropped_witness :
  removeComments ("KEY=value " +:+ "#" +:+ " one # two") = "KEY=value ".
Proof.
  apply (comment_without_quotes_is_dropped "KEY=value " " one # two");
    reflexivity.
Defined.

(** ** The tests of the repository

    The cases of [TestParsing], [TestExpanding], [TestLinesToIgnore] and of
    the error tests, run on the embedding: it gives what the tests expect. *)

Example TestParsing_plain :
  parseLine "FOO=bar" ∅ = ("FOO", "bar", None) ∧
  parseLine "FOO =bar" ∅ = ("FOO", "bar", None) ∧
  parseLine "FOO= bar" ∅ = ("FOO", "bar", None) ∧
  parseLine "FOO='bar'" ∅ = ("FOO", "bar", None) ∧
  parseLine "FOO.BAR=foobar" ∅ = ("FOO.BAR", "foobar", None) ∧
  parseLine "FOO=foobar=" ∅ = ("FOO", "foobar=", None) ∧
  parseLine "FOO=bar " ∅ = ("FOO", "bar", None) ∧
  parseLine " KEY =value" ∅ = ("KEY", "value", None) ∧
  parseLine ("FOO=" +:+ inDoubleQuotes "bar") ∅ = ("FOO", "bar", None) ∧
  parseLine ("=" +:+ inDoubleQuotes "value") ∅
    = (EmptyString, "value", None) ∧
  parseLine ("FOO=" +:+ inDoubleQuotes "'d'") ∅ = ("FOO", "'d'", None) ∧
  parseLine ("KEY=" +:+ str1 dquote) ∅ = ("KEY", str1 dquote, None) ∧
  parseLine ("KEY=" +:+ str1 dquote +:+ "value") ∅
    = ("KEY", str1 dquote +:+ "value", None).
Proof. repeat split; vm_compute; reflexivity. Qed.

Example TestParsing_yaml :
  parseLine "OPTION_A: 1" ∅ = ("OPTION_A", "1", None) ∧
  parseLine "OPTION_A: Foo=bar" ∅ = ("OPTION_A", "Foo=bar", None) ∧
  parseLine "OPTION_A=1:B" ∅ = ("OPTION_A", "1:B", None).
Proof. repeat split; vm_compute; reflexivity. Qed.

Example TestParsing_export :
  parseLine "export OPTION_A=2" ∅ = ("OPTION_A", "2", None) ∧
  parseLine "export OPTION_B='\n'" ∅ = ("OPTION_B", "\n", None) ∧
  parseLine "export exportFoo=2" ∅ = ("exportFoo", "2", None) ∧
  parseLine "exportFOO=2" ∅ = ("exportFOO", "2", None) ∧
  parseLine "export_FOO =2" ∅ = ("export_FOO", "2", None) ∧
  parseLine "export.FOO= 2" ∅ = ("export.FOO", "2", None) ∧
  parseLine ("export" +:+ str1 "009" +:+ "OPTION_A=2") ∅
    = ("OPTION_A", "2", None) ∧
  parseLine "  export OPTION_A=2" ∅ = ("OPTION_A", "2", None) ∧
  parseLine (str1 "009" +:+ "export OPTION_A=2") ∅ = ("OPTION_A", "2", None).
Proof. repeat split; vm_compute; reflexivity. Qed.

Example TestParsing_escapes :
  parseLine
    ("FOO="
       +:+ inDoubleQuotes ("escaped" +:+ str1 bslash +:+ str1 dquote +:+ "bar"))
    ∅
    = ("FOO", "escaped" +:+ str1 dquote +:+ "bar", None) ∧
  parseLine ("FOO=" +:+ inDoubleQuotes "bar\nbaz") ∅
    = ("FOO", "bar" +:+ str1 newline +:+ "baz", None) ∧
  parseLine ("FOO=" +:+ inDoubleQuotes "bar\n\ b\az") ∅
    = ("FOO", "bar" +:+ str1 newline +:+ " baz", None) ∧
  parseLine ("FOO=" +:+ inDoubleQuotes "bar\\\n\ b\az") ∅
    = ("FOO", "bar" +:+ str1 bslash +:+ str1 newline +:+ " baz", None) ∧
  parseLine ("FOO=" +:+ inDoubleQuotes "bar\r\ b\az") ∅
    = ("FOO", "bar" +:+ str1 creturn +:+ " baz", None) ∧
  parseLine ("FOO=" +:+ inDoubleQuotes "bar\n\r\ b\az") ∅
    = ("FOO", "bar" +:+ str1 newline +:+ str1 creturn +:+ " baz", None) ∧
  parseLine ("FOO=" +:+ inDoubleQuotes "bar\\r\ b\az") ∅
    = ("FOO", "bar" +:+ str1 bslash +:+ "r baz", None).
Proof. repeat split; vm_compute; reflexivity. Qed.

Example TestParsing_comments :
  parseLine "FOO=bar # this is foo" ∅ = ("FOO", "bar", None) ∧
  parseLine ("FOO=" +:+ inDoubleQuotes "bar#baz" +:+ " # comment") ∅
    = ("FOO", "bar#baz", None) ∧
  parseLine "FOO='bar#baz' # comment" ∅ = ("FOO", "bar#baz", None) ∧
  parseLine ("FOO=" +:+ inDoubleQuotes "bar#baz#bang" +:+ " # comment") ∅
    = ("FOO", "bar#baz#bang", None) ∧
  parseLine ("FOO=" +:+ inDoubleQuotes "ba#r") ∅ = ("FOO", "ba#r", None) ∧
  parseLine "FOO='ba#r'" ∅ = ("FOO", "ba#r", None) ∧
  (parseLine "lol$wut" ∅).2 = Some FormatError.
Proof. repeat split; vm_compute; reflexivity. Qed.

Example TestExpanding :
  parse (document ["FOO=test"; "BAR=$FOO"])
    = ({["FOO" := "test"; "BAR" := "test"]}, None) ∧
  parse (document ["FOO=test"; "BAR=${FOO}bar"])
    = ({["FOO" := "test"; "BAR" := "testbar"]}, None) ∧
  parse (document ["BAR=$FOO"]) = ({["BAR" := EmptyString]}, None) ∧
  parse (document ["FOO=test"; "BAR=" +:+ inDoubleQuotes "quote $FOO"])
    = ({["FOO" := "test"; "BAR" := "quote test"]}, None) ∧
  parse (document ["BAR='quote $FOO'"]) = ({["BAR" := "quote $FOO"]}, None) ∧
  parse (document ["FOO=" +:+ inDoubleQuotes "foo\$BAR"])
    = ({["FOO" := "foo$BAR"]}, None) ∧
  parse (document ["FOO=" +:+ inDoubleQuotes "foo\${BAR}"])
    = ({["FOO" := "foo${BAR}"]}, None) ∧
  parse (document ["FOO=test"; "BAR=" +:+ inDoubleQuotes "foo\${FOO} ${FOO}"])
    = ({["FOO" := "test"; "BAR" := "foo${FOO} test"]}, None).
Proof. repeat split; vm_compute; reflexivity. Qed.

Example TestLinesToIgnore :
  isIgnoredLine (str1 newline) = true ∧
  isIgnoredLine (str1 creturn +:+ str1 newline) = true ∧
  isIgnoredLine (str1 "009" +:+ str1 "009" +:+ " ") = true ∧
  isIgnoredLine "# comment" = true ∧
  isIgnoredLine (str1 "009" +:+ "#comment") = true ∧
  isIgnoredLine "export OPTION_B='\n'" = false.
Proof. repeat split; vm_compute; reflexivity. Qed.

Example TestErrors :
  read sampleFS ["fixtures/"] = (∅, Some (ReadError "is a directory")) ∧
  read sampleFS ["invalid.env"] = (∅, Some FormatError) ∧
  readFile sampleFS "invalid.env" = ({["OPTION_D" := "4"]}, Some FormatError).
Proof. repeat split; vm_compute; reflexivity. Qed.

Example TestGetCollision :
  get sampleSystem sampleFS
    {| variables := ["OPTION_A"; "OPTION_B"]; filenames := ["plain.env"];
       systemFirst := false |}
    = Some ({["OPTION_A" := "1"; "OPTION_B" := "2"]}, []) ∧
  get sampleSystem sampleFS
    {| variables := ["OPTION_A"; "OPTION_B"]; filenames := ["plain.env"];
       systemFirst := true |}
    = Some ({["OPTION_A" := "999"; "OPTION_B" := "2"]}, []) ∧
  get sampleSystem sampleFS
    {| variables := ["OPTION_A"; "OPTION_NOT_FOUND"];
       filenames := ["plain.env"]; systemFirst := false |}
    = Some ({["OPTION_A" := "1"]}, ["OPTION_NOT_FOUND"]).
Proof. repeat split; vm_compute; reflexivity. Qed.
